(** * sqs-consumer: the polling consumer, embedded and verified

    The consumer is an event emitter that long-polls a queue, hands every
    received message to a user handler, deletes the message on success and
    reports failures as events.

    Its methods are asynchronous.  They are embedded as resumption trees
    ([Async]) over the state they touch ([World]): the fields written after
    construction, the fields added to message objects, the work left for
    later turns of the event loop, and the log of what can be seen from
    outside (events emitted, requests issued, lines passed to [debug]).
    What lies outside the program is given by its fate: a promise is
    fulfilled or rejected after so many milliseconds, or never settles; the
    queue client answers each request with such a promise; the handler is
    a function from messages to such promises.

    [exec] runs one call to its end, each awaited promise settling in turn
    with nothing else run in between; [seg] runs a call up to its next
    [await]; [join] interleaves, under any schedule, the calls handed to
    [Promise.all]; [turn] runs a piece of scheduled work.

    The emitter is taken to have a listener for every event, [error]
    included, so that [emit] returns; thrown values are error objects,
    whose fields can be assigned.  Timers are Node's: a delay that is not
    within 1 and 2^31-1 milliseconds is taken as 1. *)

From Stdlib Require Import ZArith String List DecimalString Lia.
From stdpp Require Import base option list strings gmap.

Local Open Scope string_scope.
Local Open Scope list_scope.
Local Open Scope Z_scope.

(** ** Values *)

(** What [instanceof] sees of a thrown value. *)
Inductive ErrorClass : Type :=
| Class_Error
| Class_SQSError
| Class_TimeoutError.

(** An error object: its class, the two standard fields, and the transport
    fields [toSQSError] copies. *)
Record JsError : Type := mkError {
  err_class : ErrorClass;
  err_name : string;
  err_message : string;
  err_code : option string;
  err_statusCode : option Z;
  err_region : option string;
  err_retryable : option bool;
  err_hostname : option string;
  err_time : option string
}.

(** A received message: the object's identity and the fields the queue
    fills in. *)
Record Message : Type := mkMessage {
  addr : nat;
  MessageId : string;
  ReceiptHandle : string;
  Body : string
}.

(** The two fields the consumer adds to a message object. *)
Record Processing : Type := mkProcessing {
  finishedProcessing : option bool;
  visibilityTimeout : option Z
}.

(** A promise, by its fate: it never settles, or settles [after] so many
    milliseconds. *)
Inductive Promise (X : Type) : Type :=
| forever
| fulfilled (after : Z) (x : X)
| rejected (after : Z) (e : JsError).
Arguments forever {X}.
Arguments fulfilled {X} after x.
Arguments rejected {X} after e.

(** ** The queue client *)

Record ReceiveParams : Type := mkReceiveParams {
  rp_QueueUrl : string;
  rp_AttributeNames : list string;
  rp_MessageAttributeNames : list string;
  rp_MaxNumberOfMessages : Z;
  rp_WaitTimeSeconds : Z;
  rp_VisibilityTimeout : option Z
}.

Inductive SqsCall : Type :=
| receiveMessage (params : ReceiveParams)
| getQueueAttributes (QueueUrl : string) (AttributeNames : list string)
| deleteMessage (QueueUrl ReceiptHandle : string)
| changeMessageVisibility (QueueUrl ReceiptHandle : string)
                          (VisibilityTimeout : option Z).

Record Response : Type := mkResponse {
  Messages : option (list Message)
}.

(** The client answers a request with a promise; the answer may depend on
    the requests it has seen before.  Of the answer to [getQueueAttributes]
    the program reads one attribute, [VisibilityTimeout]; the answer is
    given as the number it holds. *)
Record SQS : Type := mkSQS {
  sqs_receiveMessage : list SqsCall -> ReceiveParams -> Promise (option Response);
  sqs_getQueueAttributes : list SqsCall -> string -> list string -> Promise (option Z);
  sqs_deleteMessage : list SqsCall -> string -> string -> Promise unit;
  sqs_changeMessageVisibility :
    list SqsCall -> string -> string -> option Z -> Promise unit
}.

(** ** Observable actions and the mutable state *)

(** [emit(name, err, message)]. *)
Record Event : Type := mkEvent {
  ev_name : string;
  ev_err : option JsError;
  ev_msg : option Message
}.

Inductive DebugArg : Type :=
| dbg_text (s : string)
| dbg_response (r : option Response)
| dbg_deleting (id : string)
| dbg_data.

Inductive Action : Type :=
| Emit (ev : Event)
| Call (c : SqsCall)
| Debug (d : DebugArg).

(** Work that is named and left for a later turn of the event loop. *)
Inductive Task : Type :=
| task_poll
| task_handleSqsResponse (response : option Response)
| task_extendTimeout (message : Message)
| task_extendTimeout_then (message : Message).

Inductive Scheduled : Type :=
| called (t : Task)
| timer (t : Task) (delay : option Z)
| on_fulfilled (t : Task) (after : Z).

Record World : Type := mkWorld {
  trace : list Action;
  objects : gmap nat Processing;
  this_stopped : bool;
  this_visibilityTimeout : option Z;
  agenda : list Scheduled;
  unhandled : list JsError
}.

Definition log (a : Action) (w : World) : World :=
  mkWorld (trace w ++ [a]) (objects w) (this_stopped w)
          (this_visibilityTimeout w) (agenda w) (unhandled w).

Definition set_stopped (b : bool) (w : World) : World :=
  mkWorld (trace w) (objects w) b (this_visibilityTimeout w) (agenda w)
          (unhandled w).

Definition set_visibilityTimeout (v : option Z) (w : World) : World :=
  mkWorld (trace w) (objects w) (this_stopped w) v (agenda w) (unhandled w).

Definition schedule (s : Scheduled) (w : World) : World :=
  mkWorld (trace w) (objects w) (this_stopped w) (this_visibilityTimeout w)
          (agenda w ++ [s]) (unhandled w).

Definition set_agenda (l : list Scheduled) (w : World) : World :=
  mkWorld (trace w) (objects w) (this_stopped w) (this_visibilityTimeout w)
          l (unhandled w).

Definition report_unhandled (e : JsError) (w : World) : World :=
  mkWorld (trace w) (objects w) (this_stopped w) (this_visibilityTimeout w)
          (agenda w) (unhandled w ++ [e]).

Definition fields (message : Message) (w : World) : Processing :=
  default (mkProcessing None None) (objects w !! addr message).

Definition set_fields (message : Message) (p : Processing) (w : World) : World :=
  mkWorld (trace w) (<[addr message := p]> (objects w)) (this_stopped w)
          (this_visibilityTimeout w) (agenda w) (unhandled w).

Definition set_finishedProcessing (message : Message) (b : bool) (w : World)
  : World :=
  set_fields message
    (mkProcessing (Some b) (visibilityTimeout (fields message w))) w.

Definition set_message_visibilityTimeout (message : Message) (v : option Z)
    (w : World) : World :=
  set_fields message
    (mkProcessing (finishedProcessing (fields message w)) v) w.

Definition events_of (l : list Action) : list Event :=
  omap (fun a => match a with Emit ev => Some ev | _ => None end) l.

Definition calls_of (l : list Action) : list SqsCall :=
  omap (fun a => match a with Call c => Some c | _ => None end) l.

Definition events (w : World) : list Event := events_of (trace w).

Definition calls (w : World) : list SqsCall := calls_of (trace w).

(** ** Asynchronous code *)

(** A call of an asynchronous function: it returns or throws, reads and
    writes the state, suspends at an [await], waits for ever on a promise
    that never settles, or awaits [Promise.all] of further calls. *)
#[warning="-register-all"]
Inductive Async (A : Type) : Type :=
| Ret (a : A)
| Throw (e : JsError)
| Get (k : World -> Async A)
| Put (f : World -> World) (k : Async A)
| Suspend (k : Async A)
| Never
| All (children : list (Async unit)) (k : option JsError -> Async A).
Arguments Ret {A} a.
Arguments Throw {A} e.
Arguments Get {A} k.
Arguments Put {A} f k.
Arguments Suspend {A} k.
Arguments Never {A}.
Arguments All {A} children k.

Fixpoint bind {A B : Type} (p : Async A) (f : A -> Async B) : Async B :=
  match p with
  | Ret a => f a
  | Throw e => Throw e
  | Get k => Get (fun w => bind (k w) f)
  | Put g k => Put g (bind k f)
  | Suspend k => Suspend (bind k f)
  | Never => Never
  | All children k => All children (fun r => bind (k r) f)
  end.

Declare Scope async_scope.
Delimit Scope async_scope with async.
Notation "'let*' x := p 'in' q" := (bind p (fun x => q))
  (at level 10, x name, p at level 100, q at level 200) : async_scope.
Notation "p >> q" := (bind p (fun _ => q))
  (at level 65, right associativity) : async_scope.
Local Open Scope async_scope.

(** [try { p } catch (err) { h err }]. *)
Fixpoint try_catch {A : Type} (p : Async A) (h : JsError -> Async A)
  : Async A :=
  match p with
  | Ret a => Ret a
  | Throw e => h e
  | Get k => Get (fun w => try_catch (k w) h)
  | Put g k => Put g (try_catch k h)
  | Suspend k => Suspend (try_catch k h)
  | Never => Never
  | All children k => All children (fun r => try_catch (k r) h)
  end.

(** [try { p } finally { q }]. *)
Definition try_finally {A : Type} (p : Async A) (q : Async unit) : Async A :=
  let* a := try_catch p (fun e => q >> Throw e) in q >> Ret a.

Definition get_world : Async World := Get (fun w => Ret w).
Definition modify (f : World -> World) : Async unit := Put f (Ret tt).

Definition emit (name : string) (err : option JsError) (msg : option Message)
  : Async unit :=
  modify (log (Emit (mkEvent name err msg))).

Definition debug (d : DebugArg) : Async unit := modify (log (Debug d)).

(** [await p]. *)
Definition await {X : Type} (p : Promise X) : Async X :=
  match p with
  | forever => Never
  | fulfilled _ x => Suspend (Ret x)
  | rejected _ e => Suspend (Throw e)
  end.

(** [await Promise.all(children)]. *)
Definition await_all (children : list (Async unit)) : Async unit :=
  All children (fun r => match r with None => Ret tt | Some e => Throw e end).

(** Issuing a request: the call is recorded and the client's promise
    returned. *)
Definition request {X : Type} (c : SqsCall) (answer : list SqsCall -> Promise X)
  : Async (Promise X) :=
  Get (fun w => Put (log (Call c)) (Ret (answer (calls w)))).

(** [Promise.race]: the promise that settles first.  The program has one
    race, of the handler's promise against the deadline, listed in that
    order; the deadline's timer is set before the handler is called, so of
    the two settling at the same millisecond the deadline, listed last, is
    first. *)
Definition settles_after {X : Type} (p : Promise X) : option Z :=
  match p with
  | forever => None
  | fulfilled t _ => Some t
  | rejected t _ => Some t
  end.

Definition race2 {X : Type} (p q : Promise X) : Promise X :=
  match settles_after p, settles_after q with
  | _, None => p
  | None, Some _ => q
  | Some tp, Some tq => if tp <? tq then p else q
  end.

Definition Promise_race {X : Type} (ps : list (Promise X)) : Promise X :=
  match ps with
  | [] => forever
  | p :: rest => fold_left race2 rest p
  end.

(** [p.then(cb)] with no rejection handler. *)
Definition then_ {X : Type} (p : Promise X) (cb : Task) : Async unit :=
  match p with
  | forever => Ret tt
  | fulfilled t _ => modify (schedule (on_fulfilled cb t))
  | rejected _ e => modify (report_unhandled e)
  end.

Definition setTimeout (cb : Task) (delay : option Z) : Async unit :=
  modify (schedule (timer cb delay)).

(** An asynchronous method called without [await]. *)
Definition call_detached (t : Task) : Async unit :=
  modify (schedule (called t)).

(** ** Running asynchronous code *)

Inductive Outcome (A : Type) : Type :=
| Resolved (a : A)
| Rejected (e : JsError)
| Pending.
Arguments Resolved {A} a.
Arguments Rejected {A} e.
Arguments Pending {A}.

(** A call between two turns of the event loop. *)
Inductive Thread (A : Type) : Type :=
| settled (r : JsError + A)
| waiting (k : Async A)
| hung.
Arguments settled {A} r.
Arguments waiting {A} k.
Arguments hung {A}.

(** One turn: the code runs up to its next [await].  A call handed to
    [Promise.all] holds no [Promise.all] of its own in this program. *)
Fixpoint seg {A : Type} (p : Async A) (w : World) : Thread A * World :=
  match p with
  | Ret a => (settled (inr a), w)
  | Throw e => (settled (inl e), w)
  | Get k => seg (k w) w
  | Put f k => seg k (f w)
  | Suspend k => (waiting k, w)
  | Never => (hung, w)
  | All _ _ => (hung, w)
  end.

(** [children.map(f)]: every call runs to its first [await], in order. *)
Fixpoint start_all (children : list (Async unit)) (w : World)
  : list (Thread unit) * World :=
  match children with
  | [] => ([], w)
  | c :: rest =>
      let '(t, w1) := seg c w in
      let '(ts, w2) := start_all rest w1 in
      (t :: ts, w2)
  end.

Definition rejection (t : Thread unit) : option JsError :=
  match t with
  | settled (inl e) => Some e
  | _ => None
  end.

Definition is_settled (t : Thread unit) : bool :=
  match t with
  | settled _ => true
  | _ => false
  end.

Definition first_rejection (pool : list (Thread unit)) : option JsError :=
  list_find (fun t => is_Some (rejection t)) pool ≫= fun it => rejection it.2.

(** [Promise.all]: rejected as soon as one call is, resolved once all are.
    The schedule names, turn after turn, the call whose awaited promise
    settles next; when it runs out with a call still waiting, the whole is
    still pending. *)
Fixpoint join (sched : list nat) (pool : list (Thread unit)) (w : World)
  : Outcome unit * World :=
  match first_rejection pool with
  | Some e => (Rejected e, w)
  | None =>
      if forallb is_settled pool then (Resolved tt, w)
      else
        match sched with
        | [] => (Pending, w)
        | i :: sched' =>
            match pool !! i with
            | Some (waiting k) =>
                let '(t, w') := seg k w in
                join sched' (<[i := t]> pool) w'
            | _ => join sched' pool w
            end
        end
  end.

(** A call run to its end, every awaited promise settling in turn. *)
Fixpoint exec {A : Type} (sched : list nat) (p : Async A) (w : World)
  : Outcome A * World :=
  match p with
  | Ret a => (Resolved a, w)
  | Throw e => (Rejected e, w)
  | Get k => exec sched (k w) w
  | Put f k => exec sched k (f w)
  | Suspend k => exec sched k w
  | Never => (Pending, w)
  | All children k =>
      let '(pool, w1) := start_all children w in
      match join sched pool w1 with
      | (Resolved _, w2) => exec sched (k None) w2
      | (Rejected e, w2) => exec sched (k (Some e)) w2
      | (Pending, w2) => (Pending, w2)
      end
  end.

(** ** The consumer *)

Definition Handler : Type := Message -> Promise unit.

Record ConsumerOptions : Type := mkOptions {
  o_queueUrl : option string;
  o_handleMessage : option Handler;
  o_handleMessageTimeout : option Z;
  o_attributeNames : option (list string);
  o_messageAttributeNames : option (list string);
  o_batchSize : option Z;
  o_terminateVisibilityTimeout : option bool;
  o_extendVisibilityTimeout : option bool;
  o_waitTimeSeconds : option Z;
  o_authenticationErrorTimeout : option Z;
  o_sqs : option SQS;
  o_region : option string
}.

(** The fields the constructor assigns and nothing writes afterwards;
    [this.stopped] and [this.visibilityTimeout] are written later and live
    in [World]. *)
Record Consumer : Type := mkConsumer {
  queueUrl : string;
  handleMessage : Handler;
  handleMessageTimeout : option Z;
  attributeNames : list string;
  messageAttributeNames : list string;
  batchSize : Z;
  terminateVisibilityTimeout : bool;
  extendVisibilityTimeout : bool;
  waitTimeSeconds : Z;
  authenticationErrorTimeout : Z;
  sqs : SQS
}.

(** JavaScript truthiness and [a || b]. *)
Definition truthy_string (s : option string) : bool :=
  match s with
  | Some s => negb (String.eqb s "")
  | None => false
  end.

Definition truthy_number (n : option Z) : bool :=
  match n with
  | Some n => negb (n =? 0)
  | None => false
  end.

Definition or_number (n : option Z) (d : Z) : Z :=
  match n with
  | Some n => if n =? 0 then d else n
  | None => d
  end.

Definition or_string (s : option string) (d : string) : string :=
  match s with
  | Some s => if String.eqb s "" then d else s
  | None => d
  end.

(** [a > b] and [a < b] on a number that may be undefined: a comparison
    with [undefined] is false. *)
Definition gt_number (a : option Z) (b : Z) : bool :=
  match a with
  | Some a => b <? a
  | None => false
  end.

Definition lt_number (a : option Z) (b : Z) : bool :=
  match a with
  | Some a => a <? b
  | None => false
  end.

(** [String(n)] in a template literal. *)
Definition template_number (n : option Z) : string :=
  match n with
  | Some n => NilZero.string_of_int (Z.to_int n)
  | None => "undefined"
  end.

Definition plain_Error (text : string) : JsError :=
  mkError Class_Error "Error" text None None None None None None.

Definition requiredOptions : list string := ["queueUrl"; "handleMessage"].

(** [options[option]] as a condition, for the names [validate] asks. *)
Definition has_option (options : ConsumerOptions) (opt : string) : bool :=
  if String.eqb opt "queueUrl" then truthy_string (o_queueUrl options)
  else if String.eqb opt "handleMessage" then
    match o_handleMessage options with Some _ => true | None => false end
  else false.

Fixpoint require_each (options : ConsumerOptions) (names : list string)
  : JsError + unit :=
  match names with
  | [] => inr tt
  | opt :: rest =>
      if negb (has_option options opt) then
        inl (plain_Error ("Missing SQS consumer option [" +:+ opt +:+ "]."))
      else require_each options rest
  end.

Definition validate (options : ConsumerOptions) : JsError + unit :=
  match require_each options requiredOptions with
  | inl e => inl e
  | inr _ =>
      if gt_number (o_batchSize options) 10 || lt_number (o_batchSize options) 1
      then inl (plain_Error "SQS batchSize option must be between 1 and 10.")
      else inr tt
  end.

Definition isAuthenticationError (err : JsError) : bool :=
  match err_statusCode err with
  | Some 403 => true
  | _ =>
      match err_code err with
      | Some c => String.eqb c "CredentialsError"
      | None => false
      end
  end.

Definition hasMessages (response : Response) : bool :=
  match Messages response with
  | Some l => (0 <? Z.of_nat (length l))
  | None => false
  end.

(** Modelled from the spec: the module [./errors] that declares [SQSError]
    and [TimeoutError] is not among the sources.  The spec distinguishes a
    transport error wrapping a queue-client failure from a handler-timeout
    error by tag: an [SQSError] carries the name of its class and the text
    it is built with. *)
Definition SQSError_name : string := "SQSError".

Definition new_SQSError (text : string) : JsError :=
  mkError Class_SQSError SQSError_name text None None None None None None.

Definition instanceof_TimeoutError (err : JsError) : bool :=
  match err_class err with
  | Class_TimeoutError => true
  | _ => false
  end.

Definition toSQSError (err : JsError) (text : string) : JsError :=
  let sqsError := new_SQSError text in
  mkError (err_class sqsError) (err_name sqsError) (err_message sqsError)
          (err_code err) (err_statusCode err) (err_region err)
          (err_retryable err) (err_hostname err) (err_time err).

Definition set_message (err : JsError) (text : string) : JsError :=
  mkError (err_class err) (err_name err) text (err_code err)
          (err_statusCode err) (err_region err) (err_retryable err)
          (err_hostname err) (err_time err).

Section Program.

(** What the program takes from outside its sources: the text a
    [TimeoutError] built without argument carries, the client the SDK
    builds for a region, and the process environment. *)
Variable TimeoutError_text : string.
Variable SDK_SQS : string -> SQS.
Variable env_AWS_REGION : option string.

(** Modelled from the spec: [new TimeoutError()], of the absent module
    [./errors]; a handler-timeout error, told from the others by its
    class. *)
Definition new_TimeoutError : JsError :=
  mkError Class_TimeoutError "TimeoutError" TimeoutError_text
          None None None None None None.

(** The longest delay a timer of Node takes. *)
Definition TIMEOUT_MAX : Z := 2147483647.

(** The milliseconds after which a timer set with [setTimeout(f, after)]
    fires: a delay that is not within 1 and [TIMEOUT_MAX] is taken as 1. *)
Definition timer_delay (after : Z) : Z :=
  if (1 <=? after) && (after <=? TIMEOUT_MAX) then after else 1.

(** The timer handle is kept as the delay it was set with; the promise is
    rejected when the timer fires. *)
Definition createTimeout (duration : Z) : Z * Promise unit :=
  (duration, rejected (timer_delay duration) new_TimeoutError).

(** A cleared timer does not fire; the promise it would have rejected has
    won or lost its race by then. *)
Definition clearTimeout (timeout : option Z) : Async unit := Ret tt.

(** The constructor: the object and the state it starts in.  [auto(this)]
    binds the methods to the object and changes no field.  The second case
    is never met, [validate] having thrown. *)
Definition constructor (options : ConsumerOptions) : JsError + (Consumer * World) :=
  match validate options, o_handleMessage options with
  | inl e, _ => inl e
  | inr _, None => inl (plain_Error "Missing SQS consumer option [handleMessage].")
  | inr _, Some handler =>
      inr (mkConsumer
             (default "" (o_queueUrl options))
             handler
             (o_handleMessageTimeout options)
             (default [] (o_attributeNames options))
             (default [] (o_messageAttributeNames options))
             (or_number (o_batchSize options) 1)
             (default false (o_terminateVisibilityTimeout options))
             (default false (o_extendVisibilityTimeout options))
             (or_number (o_waitTimeSeconds options) 20)
             (or_number (o_authenticationErrorTimeout options) 10000)
             (default
                (SDK_SQS (or_string (o_region options)
                            (or_string env_AWS_REGION "eu-west-1")))
                (o_sqs options)),
           mkWorld [] ∅ true None [] [])
  end.

Definition create (options : ConsumerOptions) : JsError + (Consumer * World) :=
  constructor options.

Section Methods.

Variable this : Consumer.

Definition _receiveMessage (params : ReceiveParams) : Async (option Response) :=
  try_catch
    (let* p := request (receiveMessage params)
                 (fun h => sqs_receiveMessage (sqs this) h params) in
     await p)
    (fun err =>
       Throw (toSQSError err ("SQS receive message failed: " +:+ err_message err))).

Definition _terminateVisabilityTimeout (message : Message) : Async unit :=
  let* p := request
              (changeMessageVisibility (queueUrl this) (ReceiptHandle message)
                 (Some 0))
              (fun h => sqs_changeMessageVisibility (sqs this) h (queueUrl this)
                          (ReceiptHandle message) (Some 0)) in
  await p.

Definition _deleteMessage (message : Message) : Async unit :=
  debug (dbg_deleting (MessageId message)) >>
  try_catch
    (let* p := request (deleteMessage (queueUrl this) (ReceiptHandle message))
                 (fun h => sqs_deleteMessage (sqs this) h (queueUrl this)
                             (ReceiptHandle message)) in
     await p)
    (fun err =>
       Throw (toSQSError err ("SQS delete message failed: " +:+ err_message err))).

(** The callback [extendTimeout] hands to [then]: it receives what the
    promise was fulfilled with, an object, under the name [err]. *)
Definition extendTimeout_then (message : Message) : Async unit :=
  debug dbg_data >>
  let* w := get_world in
  setTimeout (task_extendTimeout message)
    (option_map (fun v => v * 450) (visibilityTimeout (fields message w))).

Definition extendTimeout (message : Message) : Async unit :=
  let* w := get_world in
  match finishedProcessing (fields message w) with
  | Some true => Ret tt
  | _ =>
      modify (set_message_visibilityTimeout message
                (option_map (fun v => v * 2) (visibilityTimeout (fields message w)))) >>
      let* w := get_world in
      let* p := request
                  (changeMessageVisibility (queueUrl this) (ReceiptHandle message)
                     (visibilityTimeout (fields message w)))
                  (fun h => sqs_changeMessageVisibility (sqs this) h
                              (queueUrl this) (ReceiptHandle message)
                              (visibilityTimeout (fields message w))) in
      then_ p (task_extendTimeout_then message)
  end.

Definition _executeHandler (message : Message) : Async unit :=
  let timeout :=
    if truthy_number (handleMessageTimeout this)
    then Some (fst (createTimeout (default 0 (handleMessageTimeout this))))
    else None in
  try_finally
    (try_catch
       (modify (set_finishedProcessing message false) >>
        let* w := get_world in
        modify (set_message_visibilityTimeout message (this_visibilityTimeout w)) >>
        (if extendVisibilityTimeout this then extendTimeout message else Ret tt) >>
        if truthy_number (handleMessageTimeout this) then
          let pending :=
            snd (createTimeout (default 0 (handleMessageTimeout this))) in
          await (Promise_race [handleMessage this message; pending])
        else
          await (handleMessage this message))
       (fun err =>
          if instanceof_TimeoutError err then
            let err :=
              set_message err
                ("Message handler timed out after "
                   +:+ template_number (handleMessageTimeout this)
                   +:+ "ms: " +:+ err_message err) in
            modify (set_finishedProcessing message true) >> Throw err
          else
            let err :=
              set_message err
                ("Unexpected message handler failure: " +:+ err_message err) in
            modify (set_finishedProcessing message true) >> Throw err))
    (clearTimeout timeout).

Definition _processMessage (message : Message) : Async unit :=
  emit "message_received" None (Some message) >>
  try_catch
    (_executeHandler message >>
     _deleteMessage message >>
     emit "message_processed" None (Some message))
    (fun err =>
       (if String.eqb (err_name err) SQSError_name then
          emit "error" (Some err) (Some message)
        else if instanceof_TimeoutError err then
          emit "timeout_error" (Some err) (Some message)
        else
          emit "processing_error" (Some err) (Some message)) >>
       if terminateVisibilityTimeout this then
         try_catch (_terminateVisabilityTimeout message)
           (fun err => emit "error" (Some err) (Some message))
       else Ret tt).

Definition _handleSqsResponse (response : option Response) : Async unit :=
  debug (dbg_text "Received SQS response") >>
  debug (dbg_response response) >>
  match response with
  | Some r =>
      if hasMessages r then
        await_all (map _processMessage (default [] (Messages r))) >>
        emit "response_processed" None None
      else
        emit "empty" None None
  | None => Ret tt
  end >>
  call_detached task_poll.

Definition _poll : Async unit :=
  let* w := get_world in
  if this_stopped w then
    emit "stopped" None None
  else
    debug (dbg_text "Polling for messages") >>
    try_catch
      (let* w := get_world in
       let receiveParams :=
         mkReceiveParams (queueUrl this) (attributeNames this)
           (messageAttributeNames this) (batchSize this) (waitTimeSeconds this)
           (this_visibilityTimeout w) in
       let* response := _receiveMessage receiveParams in
       let* p := request (getQueueAttributes (queueUrl this) ["VisibilityTimeout"])
                   (fun h => sqs_getQueueAttributes (sqs this) h (queueUrl this)
                               ["VisibilityTimeout"]) in
       let* visTimeoutResponse := await p in
       modify (set_visibilityTimeout visTimeoutResponse) >>
       call_detached (task_handleSqsResponse response))
      (fun err =>
         emit "error" (Some err) None >>
         if isAuthenticationError err then
           debug (dbg_text "There was an authentication error. Pausing before retrying.") >>
           setTimeout task_poll (Some (authenticationErrorTimeout this))
         else Ret tt).

Definition start : Async unit :=
  let* w := get_world in
  if this_stopped w then
    debug (dbg_text "Starting consumer") >>
    modify (set_stopped false) >>
    call_detached task_poll
  else Ret tt.

Definition stop : Async unit :=
  debug (dbg_text "Stopping consumer") >>
  modify (set_stopped true).

(** ** The event loop *)

Definition body (t : Task) : Async unit :=
  match t with
  | task_poll => _poll
  | task_handleSqsResponse response => _handleSqsResponse response
  | task_extendTimeout message => extendTimeout message
  | task_extendTimeout_then message => extendTimeout_then message
  end.

Definition task_of (s : Scheduled) : Task :=
  match s with
  | called t => t
  | timer t _ => t
  | on_fulfilled t _ => t
  end.

(** A later turn: the [i]-th piece of scheduled work is taken off the
    agenda and run; a rejection of it has no handler. *)
Definition turn (sched : list nat) (i : nat) (w : World) : World :=
  match agenda w !! i with
  | Some s =>
      let '(r, w') := exec sched (body (task_of s))
                        (set_agenda (delete i (agenda w)) w) in
      match r with
      | Rejected e => report_unhandled e w'
      | _ => w'
      end
  | None => w
  end.

End Methods.
End Program.

(** ** Vocabulary of the statements *)

Definition received (message : Message) : Event :=
  mkEvent "message_received" None (Some message).

Definition processed (message : Message) : Event :=
  mkEvent "message_processed" None (Some message).

(** The promise [_executeHandler] awaits: the handler's raced against the
    deadline when a budget is set, the handler's own when none is. *)
Definition awaited (T : string) (this : Consumer) (message : Message)
  : Promise unit :=
  if truthy_number (handleMessageTimeout this) then
    Promise_race
      [handleMessage this message;
       snd (createTimeout T (default 0 (handleMessageTimeout this)))]
  else handleMessage this message.

(** The error [_executeHandler] throws on, after its [catch] has rewritten
    the text. *)
Definition rethrown (this : Consumer) (err : JsError) : JsError :=
  if instanceof_TimeoutError err then
    set_message err
      ("Message handler timed out after "
         +:+ template_number (handleMessageTimeout this)
         +:+ "ms: " +:+ err_message err)
  else
    set_message err ("Unexpected message handler failure: " +:+ err_message err).

(** The request the first extension round of [_executeHandler] issues. *)
Definition extension_calls (this : Consumer) (message : Message) (w : World)
  : list SqsCall :=
  if extendVisibilityTimeout this then
    [changeMessageVisibility (queueUrl this) (ReceiptHandle message)
       (option_map (fun v => v * 2) (this_visibilityTimeout w))]
  else [].

(** The event the [catch] of [_processMessage] emits for [err]. *)
Definition failure_name (err : JsError) : string :=
  if String.eqb (err_name err) SQSError_name then "error"
  else if instanceof_TimeoutError err then "timeout_error"
  else "processing_error".

Definition failure_event (message : Message) (err : JsError) : Event :=
  mkEvent (failure_name err) (Some err) (Some message).

(** The release of a failed message: the request and, when it fails, the
    event; [h] is what the client has been asked before. *)
Definition release_call (this : Consumer) (message : Message) : SqsCall :=
  changeMessageVisibility (queueUrl this) (ReceiptHandle message) (Some 0).

Definition release_promise (this : Consumer) (message : Message)
    (h : list SqsCall) : Promise unit :=
  sqs_changeMessageVisibility (sqs this) h (queueUrl this)
    (ReceiptHandle message) (Some 0).

Definition release_actions (this : Consumer) (message : Message)
    (h : list SqsCall) : list Action :=
  if terminateVisibilityTimeout this then
    Call (release_call this message) ::
    match release_promise this message h with
    | rejected _ e => [Emit (mkEvent "error" (Some e) (Some message))]
    | _ => []
    end
  else [].

Definition release_outcome (this : Consumer) (message : Message)
    (h : list SqsCall) : Outcome unit :=
  if terminateVisibilityTimeout this then
    match release_promise this message h with
    | forever => Pending
    | _ => Resolved tt
    end
  else Resolved tt.

Definition is_deleteMessage (c : SqsCall) : bool :=
  match c with
  | deleteMessage _ _ => true
  | _ => false
  end.

(** A promise has not settled before [d] milliseconds are over: it settles
    then or later, or never. *)
Definition exceeds {X : Type} (p : Promise X) (d : Z) : Prop :=
  match settles_after p with
  | Some t => d <= t
  | None => True
  end.

(** The state one extension round leaves, for a message not finished. *)
Definition extension_round (this : Consumer) (message : Message) (w : World)
  : World :=
  let v := option_map (fun v => v * 2) (visibilityTimeout (fields message w)) in
  let w1 :=
    log (Call (changeMessageVisibility (queueUrl this) (ReceiptHandle message) v))
        (set_message_visibilityTimeout message v w) in
  match sqs_changeMessageVisibility (sqs this) (calls w) (queueUrl this)
          (ReceiptHandle message) v with
  | forever => w1
  | fulfilled t _ => schedule (on_fulfilled (task_extendTimeout_then message) t) w1
  | rejected _ e => report_unhandled e w1
  end.

(** The state in which [_executeHandler] awaits the handler. *)
Definition entered (this : Consumer) (message : Message) (w : World) : World :=
  let w1 :=
    set_message_visibilityTimeout message (this_visibilityTimeout w)
      (set_finishedProcessing message false w) in
  if extendVisibilityTimeout this then extension_round this message w1 else w1.

(** The state the [catch] of [_processMessage] leaves. *)
Definition recovered (this : Consumer) (message : Message) (err : JsError)
    (w : World) : World :=
  let w1 := log (Emit (failure_event message err)) w in
  if terminateVisibilityTimeout this then
    let w2 := log (Call (release_call this message)) w1 in
    match release_promise this message (calls w1) with
    | rejected _ e => log (Emit (mkEvent "error" (Some e) (Some message))) w2
    | _ => w2
    end
  else w1.

(** The [try] block of [_processMessage]. *)
Definition attempt (T : string) (this : Consumer) (message : Message)
  : Async unit :=
  _executeHandler T this message >>
  _deleteMessage this message >>
  emit "message_processed" None (Some message).

(** The error [_deleteMessage] throws for a failure [e] of the client. *)
Definition delete_failure (e : JsError) : JsError :=
  toSQSError e ("SQS delete message failed: " +:+ err_message e).

(** The parameters [_poll] asks the queue with. *)
Definition receive_params (this : Consumer) (w : World) : ReceiveParams :=
  mkReceiveParams (queueUrl this) (attributeNames this)
    (messageAttributeNames this) (batchSize this) (waitTimeSeconds this)
    (this_visibilityTimeout w).

(** A poll cycle: [_poll], then the piece of work it has scheduled. *)
Definition cycle (T : string) (this : Consumer) (sched : list nat) (w : World)
  : World :=
  turn T this sched (length (agenda w)) (exec sched (_poll this) w).2.

(** Code that awaits no [Promise.all]. *)
Fixpoint flat {A : Type} (p : Async A) : Prop :=
  match p with
  | Ret _ | Throw _ | Never => True
  | Get k => forall w, flat (k w)
  | Put _ k | Suspend k => flat k
  | All _ _ => False
  end.

(** *** Calls under [Promise.all] *)

(** The events that close the processing of a message. *)
Definition closing_names : list string :=
  ["message_processed"; "error"; "timeout_error"; "processing_error"].

Definition closes (message : Message) (ev : Event) : Prop :=
  ev_msg ev = Some message /\ ev_name ev ∈ closing_names.

(** A step of the state that emits nothing, or one event. *)
Definition quiet (f : World -> World) : Prop :=
  forall w, events (f w) = events w.

Definition emits (ev : Event) (f : World -> World) : Prop :=
  forall w, events (f w) = events w ++ [ev].

(** What code does turn by turn, whatever the state it finds at each turn:
    it awaits at most [n] times and waits for ever only if [may_hang]; each
    event it emits closes the processing of [message]; it returns in a state
    of [ret] or throws in a state of [thr], both told the awaits left and
    whether a closing event has been emitted ([reported], at the start). *)
Fixpoint runs {A : Type} (may_hang : Prop) (message : Message) (p : Async A)
    (n : nat) (reported : bool)
    (ret : A -> nat -> bool -> Prop) (thr : JsError -> nat -> bool -> Prop)
  : Prop :=
  match p with
  | Ret a => ret a n reported
  | Throw e => thr e n reported
  | Get k => forall w, runs may_hang message (k w) n reported ret thr
  | Put f k =>
      (quiet f /\ runs may_hang message k n reported ret thr) \/
      (exists ev, emits ev f /\ closes message ev /\
                  runs may_hang message k n true ret thr)
  | Suspend k =>
      match n with
      | O => False
      | S n' => runs may_hang message k n' reported ret thr
      end
  | Never => may_hang
  | All _ _ => False
  end.

(** What is left of a call of [_processMessage]: it is not rejected, and
    has reported by the time it resolves. *)
Definition tame (may_hang : Prop) (message : Message) (p : Async unit)
    (n : nat) (reported : bool) : Prop :=
  runs may_hang message p n reported
       (fun _ _ b => b = true) (fun _ _ _ => False).

(** A call in the pool of [join]; [evs] is what has been emitted since the
    calls were started. *)
Definition thread_ok (may_hang : Prop) (evs : list Event) (message : Message)
    (t : Thread unit) : Prop :=
  match t with
  | settled (inr _) => Exists (closes message) evs
  | settled (inl _) => False
  | waiting k =>
      exists n b, tame may_hang message k n b /\
                  (b = true -> Exists (closes message) evs)
  | hung => may_hang
  end.

(** A call that settles within the turns the schedule still gives it. *)
Definition thread_live (sched : list nat) (i : nat) (t : Thread unit) : Prop :=
  match t with
  | settled (inr _) => True
  | settled (inl _) => False
  | waiting k =>
      exists n m b, tame False m k n b /\
                    (n < length (filter (fun j => j = i) sched))%nat
  | hung => False
  end.

(** The client answers every delete and visibility request, and the handler
    of each message settles or has a deadline. *)
Definition responsive (T : string) (this : Consumer) (msgs : list Message) : Prop :=
  (forall h q r, sqs_deleteMessage (sqs this) h q r <> forever) /\
  (forall h q r v, sqs_changeMessageVisibility (sqs this) h q r v <> forever) /\
  (forall m, m ∈ msgs -> awaited T this m <> forever).

(** A closing event of one of [msgs]. *)
Definition closing_of (msgs : list Message) (ev : Event) : Prop :=
  exists m, m ∈ msgs /\ closes m ev.

(** An event of the processing of one of [msgs]. *)
Definition per_message (msgs : list Message) (ev : Event) : Prop :=
  exists m, m ∈ msgs /\ (ev = received m \/ closes m ev).

Definition is_waiting (t : Thread unit) : bool :=
  match t with
  | waiting _ => true
  | _ => false
  end.

(** ** Sample inputs *)

Module Sample.

Definition text : string := "Operation timed out.".

Definition first : Message := mkMessage 1 "id-1" "receipt-1" "one".
Definition second : Message := mkMessage 2 "id-2" "receipt-2" "two".

Definition boom : JsError := plain_Error "boom".

Definition unavailable : JsError :=
  mkError Class_Error "ServiceUnavailable" "try later"
          (Some "ServiceUnavailable") (Some 503) (Some "eu-west-1") (Some true)
          (Some "sqs.eu-west-1.amazonaws.com") (Some "2019-01-01T00:00:00Z").

Definition denied : JsError :=
  mkError Class_Error "AccessDenied" "no access"
          (Some "AccessDenied") (Some 403) None None None None.

(** A client that answers every request well, with a batch of two. *)
Definition client : SQS :=
  mkSQS (fun _ _ => fulfilled 5 (Some (mkResponse (Some [first; second]))))
        (fun _ _ _ => fulfilled 5 (Some 30))
        (fun _ _ _ => fulfilled 5 tt)
        (fun _ _ _ _ => fulfilled 5 tt).

(** Clients that fail one kind of request. *)
Definition client_receive_fails (e : JsError) : SQS :=
  mkSQS (fun _ _ => rejected 5 e) (sqs_getQueueAttributes client)
        (sqs_deleteMessage client) (sqs_changeMessageVisibility client).

Definition client_delete_fails : SQS :=
  mkSQS (sqs_receiveMessage client) (sqs_getQueueAttributes client)
        (fun _ _ _ => rejected 5 unavailable)
        (sqs_changeMessageVisibility client).

Definition client_visibility_fails : SQS :=
  mkSQS (sqs_receiveMessage client) (sqs_getQueueAttributes client)
        (sqs_deleteMessage client) (fun _ _ _ _ => rejected 5 unavailable).

(** The handler settles the first message in 10 ms and fails the second
    after 20 ms. *)
Definition handler : Handler :=
  fun m => if Nat.eqb (addr m) 1 then fulfilled 10 tt else rejected 20 boom.

Definition consumer_with (budget : option Z) (terminate extend : bool)
    (c : SQS) : Consumer :=
  mkConsumer "queue" handler budget [] [] 10 terminate extend 20 10000 c.

Definition consumer : Consumer := consumer_with None false false client.

(** A running consumer that has learnt the queue's visibility timeout. *)
Definition world : World := mkWorld [] ∅ false (Some 30) [] [].

Definition options : ConsumerOptions :=
  mkOptions (Some "queue") (Some handler) None None None (Some 10) None None
            None None (Some client) None.

End Sample.

(** ** Pending work, piece by piece *)

(** The work of the polling loop, and the work of the extension of one
    message's visibility timeout. *)
Definition loop_task (t : Task) : bool :=
  match t with
  | task_poll | task_handleSqsResponse _ => true
  | _ => false
  end.

Definition extension_task (message : Message) (t : Task) : bool :=
  match t with
  | task_extendTimeout m | task_extendTimeout_then m =>
      Nat.eqb (addr m) (addr message)
  | _ => false
  end.

(** The oldest pending piece of work among those [sel] selects is run. *)
Definition run_next (T : string) (this : Consumer) (sched : list nat)
    (sel : Task -> bool) (w : World) : World :=
  match list_find (fun s => sel (task_of s) = true) (agenda w) with
  | Some (i, _) => turn T this sched i w
  | None => w
  end.

(** A state in which one piece of the selected work is pending, after
    everything else. *)
Definition next_is (sel : Task -> bool) (s : Scheduled)
    (others : list Scheduled) (w : World) : Prop :=
  agenda w = others ++ [s] /\
  Forall (fun s' => sel (task_of s') = false) others.

(** A round of the polling loop: the pending poll is run, then the
    handling of the response it has called. *)
Definition loop_round (T : string) (this : Consumer) (sched : list nat)
    (w : World) : World :=
  run_next T this sched loop_task (run_next T this sched loop_task w).

(** A round of the extension of a message: the pending round is run, then
    the callback it has left with the queue's promise. *)
Definition extension_cycle (T : string) (this : Consumer) (sched : list nat)
    (message : Message) (w : World) : World :=
  run_next T this sched (extension_task message)
    (run_next T this sched (extension_task message) w).

(** The values the rounds of extension ask the queue for, from a message
    timeout of [v]: [n] of them, each twice the one before. *)
Fixpoint doublings (v : Z) (n : nat) : list Z :=
  match n with
  | O => []
  | S n' => (v * 2) :: doublings (v * 2) n'
  end.

(** What a state shows outside the process: the requests issued and the
    events emitted, in the order they were, without the lines passed to
    [debug]. *)
Definition is_Debug (a : Action) : bool :=
  match a with
  | Debug _ => true
  | _ => false
  end.

Definition shown (w : World) : list Action :=
  filter (fun a => is_Debug a = false) (trace w).

(** What a round of the loop on an idle queue shows: a receive request,
    then the attributes request, then [empty] if the queue has answered the
    first with a response. *)
Definition idle_round_shown (this : Consumer) (round : ReceiveParams * bool)
  : list Action :=
  [Call (receiveMessage round.1);
   Call (getQueueAttributes (queueUrl this) ["VisibilityTimeout"])]
  ++ (if round.2 then [Emit (mkEvent "empty" None None)] else []).

(** A response without messages, or none at all. *)
Definition without_messages (response : option Response) : bool :=
  match response with
  | Some r => negb (hasMessages r)
  | None => true
  end.

(** A queue that is idle and well: every receive request is answered
    without messages and every attributes request is answered. *)
Definition idle_queue (this : Consumer) : Prop :=
  (forall h p, exists t r,
      sqs_receiveMessage (sqs this) h p = fulfilled t r /\
      without_messages r = true) /\
  (forall h q a, exists t v,
      sqs_getQueueAttributes (sqs this) h q a = fulfilled t v).

(** A queue that refuses every receive request for want of
    authentication. *)
Definition refuses_receive (this : Consumer) : Prop :=
  forall h p, exists t e,
    sqs_receiveMessage (sqs this) h p = rejected t e /\
    isAuthenticationError e = true.

(** The event a poll emits when the queue refuses it. *)
Definition refusal (ev : Event) : Prop :=
  ev_name ev = "error" /\ ev_msg ev = None /\
  exists e, ev_err ev = Some e /\ err_name e = "SQSError" /\
            isAuthenticationError e = true.

(** A queue that grants every change of visibility. *)
Definition grants_visibility (this : Consumer) : Prop :=
  forall h q r v, exists t,
    sqs_changeMessageVisibility (sqs this) h q r v = fulfilled t tt.

(** The states of a poll that goes on: its first request issued, then
    its second. *)
Definition polled (this : Consumer) (w : World) : World :=
  log (Call (receiveMessage (receive_params this w)))
      (log (Debug (dbg_text "Polling for messages")) w).

Definition asked (this : Consumer) (w : World) : World :=
  log (Call (getQueueAttributes (queueUrl this) ["VisibilityTimeout"]))
      (polled this w).

(** The error [_receiveMessage] throws for a failure [e] of the client. *)
Definition receive_failure (e : JsError) : JsError :=
  toSQSError e ("SQS receive message failed: " +:+ err_message e).

(** The state the [catch] of [_poll] leaves. *)
Definition poll_failed (this : Consumer) (err : JsError) (w : World) : World :=
  let w1 := log (Emit (mkEvent "error" (Some err) None)) w in
  if isAuthenticationError err then
    schedule (timer task_poll (Some (authenticationErrorTimeout this)))
      (log (Debug (dbg_text
                     "There was an authentication error. Pausing before retrying."))
           w1)
  else w1.

Definition is_receiveMessage (c : SqsCall) : bool :=
  match c with
  | receiveMessage _ => true
  | _ => false
  end.

(** Code all of whose writes to the state are of the kind [P], the calls
    it hands to [Promise.all] included. *)
Fixpoint writes {A : Type} (P : (World -> World) -> Prop) (p : Async A)
  : Prop :=
  match p with
  | Ret _ | Throw _ | Never => True
  | Get k => forall w, writes P (k w)
  | Put f k => P f /\ writes P k
  | Suspend k => writes P k
  | All children k =>
      (fix each (l : list (Async unit)) : Prop :=
         match l with
         | [] => True
         | c :: l' => writes P c /\ each l'
         end) children /\
      forall r, writes P (k r)
  end.

(** A write that takes every state to one [R] relates it to; a write that
    leaves an observation of the state as it is. *)
Definition steps (R : World -> World -> Prop) (f : World -> World) : Prop :=
  forall w, R w (f w).

Definition keeps {X : Type} (obs : World -> X) (f : World -> World) : Prop :=
  forall w, obs (f w) = obs w.

(** Code that does not return: it throws, or waits for ever. *)
Fixpoint no_return {A : Type} (p : Async A) : Prop :=
  match p with
  | Ret _ => False
  | Throw _ | Never => True
  | Get k => forall w, no_return (k w)
  | Put _ k | Suspend k => no_return k
  | All _ k => forall r, no_return (k r)
  end.

(** Code to which [this.stopped] is nothing: what it does next does not
    depend on the flag, and its writes commute with a write of the flag;
    likewise for a call between two turns. *)
Fixpoint blind_to_stopped {A : Type} (p : Async A) : Prop :=
  match p with
  | Ret _ | Throw _ | Never => True
  | Get k =>
      forall w, (forall b, k (set_stopped b w) = k w) /\ blind_to_stopped (k w)
  | Put f k =>
      (forall w b, f (set_stopped b w) = set_stopped b (f w)) /\
      blind_to_stopped k
  | Suspend k => blind_to_stopped k
  | All children k =>
      (fix each (l : list (Async unit)) : Prop :=
         match l with
         | [] => True
         | c :: l' => blind_to_stopped c /\ each l'
         end) children /\
      forall r, blind_to_stopped (k r)
  end.

Definition thread_blind (t : Thread unit) : Prop :=
  match t with
  | waiting k => blind_to_stopped k
  | _ => True
  end.

(** The queue has been asked further requests, each of them as [ok]
    asks. *)
Definition asked_only (ok : SqsCall -> Prop) (w w' : World) : Prop :=
  exists cs, calls w' = calls w ++ cs /\ Forall ok cs.

(** A request that, if it deletes, deletes a message of [msgs] whose
    handler has succeeded. *)
Definition deletes_handled (T : string) (this : Consumer) (msgs : list Message)
    (c : SqsCall) : Prop :=
  match c with
  | deleteMessage q r =>
      exists m t, m ∈ msgs /\ q = queueUrl this /\ r = ReceiptHandle m /\
                  awaited T this m = fulfilled t tt
  | _ => True
  end.

(** A call between two turns, what is left of it writing as [P] asks. *)
Definition thread_writes (P : (World -> World) -> Prop) (t : Thread unit)
  : Prop :=
  match t with
  | waiting k => writes P k
  | _ => True
  end.

(** The fields of the message object at an address. *)
Definition object_at (a : nat) (w : World) : option Processing :=
  objects w !! a.

(** The messages a piece of scheduled work is about. *)
Definition task_messages (t : Task) : list Message :=
  match t with
  | task_poll => []
  | task_handleSqsResponse response =>
      default [] (response ≫= Messages)
  | task_extendTimeout m | task_extendTimeout_then m => [m]
  end.

(** The polls and response handlings pending. *)
Definition pending_loop (w : World) : list Scheduled :=
  filter (fun s => loop_task (task_of s) = true) (agenda w).

Module Scenario.

(** A queue with nothing in it. *)
Definition client_idle : SQS :=
  mkSQS (fun _ _ => fulfilled 5 (Some (mkResponse None)))
        (fun _ _ _ => fulfilled 5 (Some 30))
        (fun _ _ _ => fulfilled 5 tt)
        (fun _ _ _ _ => fulfilled 5 tt).

(** A queue that hands out messages and then fails to tell its
    attributes. *)
Definition client_attributes_fail : SQS :=
  mkSQS (sqs_receiveMessage Sample.client)
        (fun _ _ _ => rejected 5 Sample.unavailable)
        (sqs_deleteMessage Sample.client)
        (sqs_changeMessageVisibility Sample.client).

(** A consumer of that queue. *)
Definition idle : Consumer :=
  mkConsumer "queue" Sample.handler None [] [] 10 false false 20 10000
             client_idle.

(** A consumer that fails every message and extends timeouts. *)
Definition failing : Consumer :=
  mkConsumer "queue" (fun _ => rejected 20 Sample.boom) None [] [] 10 true true
             20 10000 Sample.client.

(** A consumer whose handler never settles, and has no deadline. *)
Definition stuck : Consumer :=
  mkConsumer "queue" (fun _ => forever) None [] [] 10 false false 20 10000
             Sample.client.

(** A consumer whose queue refuses it. *)
Definition refused : Consumer :=
  mkConsumer "queue" Sample.handler None [] [] 10 false false 20 10000
             (Sample.client_receive_fails Sample.denied).

(** A running consumer about to poll. *)
Definition polling : World :=
  mkWorld [] ∅ false None [called task_poll] [].

(** A running consumer in the pause after an authentication failure. *)
Definition backing_off : World :=
  mkWorld [] ∅ false None [timer task_poll (Some 10000)] [].

End Scenario.

(** ** Method binding ([bind.ts]) *)

Module Bind.

(** A function value: code, by its name, that sees as [this] the receiver
    it is called with; or what [f.bind(o)] returns. *)
Inductive JsFunction : Type :=
| fn_code (name : string)
| fn_bound (target : JsFunction) (boundThis : nat).

Inductive JsValue : Type :=
| js_undefined
| js_boolean (b : bool)
| js_number (n : Z)
| js_string (s : string)
| js_function (f : JsFunction).

(** An instance of a class: its identity, its own properties, the own
    properties of the prototype of its class (which is what
    [obj.constructor.prototype] is for an instance), and the prototypes
    further up the chain.  Properties are data properties. *)
Record Instance : Type := mkInstance {
  self : nat;
  own : gmap string JsValue;
  class_prototype : gmap string JsValue;
  inherited : list (gmap string JsValue)
}.

(** [obj[propertyName]]: the nearest object of the chain that has the
    property gives it. *)
Fixpoint lookup_chain (chain : list (gmap string JsValue))
    (propertyName : string) : JsValue :=
  match chain with
  | [] => js_undefined
  | o :: rest =>
      match o !! propertyName with
      | Some v => v
      | None => lookup_chain rest propertyName
      end
  end.

Definition get (obj : Instance) (propertyName : string) : JsValue :=
  lookup_chain (own obj :: class_prototype obj :: inherited obj) propertyName.

(** [obj[propertyName] = value]. *)
Definition set (obj : Instance) (propertyName : string) (value : JsValue)
  : Instance :=
  mkInstance (self obj) (<[propertyName := value]> (own obj))
             (class_prototype obj) (inherited obj).

Definition typeof_function (value : JsValue) : bool :=
  match value with
  | js_function _ => true
  | _ => false
  end.

Definition isMethod (propertyName : string) (value : JsValue) : bool :=
  negb (String.eqb propertyName "constructor") && typeof_function value.

(** [Object.getOwnPropertyNames]: the names, each once; they are taken in
    the order of the map, on which nothing below depends. *)
Definition getOwnPropertyNames (o : gmap string JsValue) : list string :=
  (map_to_list o).*1.

(** The body of the [forEach]; [value.bind(obj)] is reached with a
    function only. *)
Definition autoBind_each (obj : Instance) (propertyName : string) : Instance :=
  let value := get obj propertyName in
  if isMethod propertyName value then
    match value with
    | js_function f =>
        set obj propertyName (js_function (fn_bound f (self obj)))
    | _ => obj
    end
  else obj.

Definition autoBind (obj : Instance) : Instance :=
  foldl autoBind_each obj (getOwnPropertyNames (class_prototype obj)).

(** A call of a function with a receiver: the code that runs and the
    [this] it sees. *)
Fixpoint invoke (f : JsFunction) (receiver : nat) : string * nat :=
  match f with
  | fn_code name => (name, receiver)
  | fn_bound target boundThis => invoke target boundThis
  end.

(** A call of a value; a value that is no function cannot be called. *)
Definition call (value : JsValue) (receiver : nat) : option (string * nat) :=
  match value with
  | js_function f => Some (invoke f receiver)
  | _ => None
  end.

(** A consumer object as the constructor has it when it binds: fields of
    its own, the methods on the prototype of its class, and the emitter's
    methods above. *)
Definition consumer_prototype : gmap string JsValue :=
  {[ "constructor" := js_function (fn_code "Consumer");
     "start" := js_function (fn_code "start");
     "_poll" := js_function (fn_code "_poll");
     "_processMessage" := js_function (fn_code "_processMessage") ]}.

Definition emitter_prototype : gmap string JsValue :=
  {[ "emit" := js_function (fn_code "emit");
     "on" := js_function (fn_code "on") ]}.

Definition consumer_object : Instance :=
  mkInstance 7 {[ "stopped" := js_boolean true; "batchSize" := js_number 1 ]}
             consumer_prototype [emitter_prototype].

End Bind.

(** * Properties *)

(** ** The state *)

Lemma events_of_app (l1 l2 : list Action) :
  events_of (l1 ++ l2) = events_of l1 ++ events_of l2.
Proof. apply omap_app. Qed.

Lemma calls_of_app (l1 l2 : list Action) :
  calls_of (l1 ++ l2) = calls_of l1 ++ calls_of l2.
Proof. apply omap_app. Qed.

Lemma calls_of_map_Call (l : list SqsCall) : calls_of (map Call l) = l.
Proof. induction l as [|c l IH]; simpl; [done|]. by rewrite IH. Qed.

Lemma events_of_map_Call (l : list SqsCall) : events_of (map Call l) = [].
Proof. induction l as [|c l IH]; simpl; done. Qed.

Lemma fields_set_fields m p w : fields m (set_fields m p w) = p.
Proof. unfold fields, set_fields; simpl. by rewrite lookup_insert_eq. Qed.

Lemma fields_set_finishedProcessing m b w :
  fields m (set_finishedProcessing m b w)
  = mkProcessing (Some b) (visibilityTimeout (fields m w)).
Proof. apply fields_set_fields. Qed.

Lemma fields_set_message_visibilityTimeout m v w :
  fields m (set_message_visibilityTimeout m v w)
  = mkProcessing (finishedProcessing (fields m w)) v.
Proof. apply fields_set_fields. Qed.

Lemma calls_log a w :
  calls (log a w) = calls w ++ match a with Call c => [c] | _ => [] end.
Proof. unfold calls, log; simpl. rewrite calls_of_app. by destruct a. Qed.

Lemma events_log a w :
  events (log a w) = events w ++ match a with Emit ev => [ev] | _ => [] end.
Proof. unfold events, log; simpl. rewrite events_of_app. by destruct a. Qed.

Lemma calls_set_finishedProcessing m b w :
  calls (set_finishedProcessing m b w) = calls w.
Proof. reflexivity. Qed.

Lemma calls_set_message_visibilityTimeout m v w :
  calls (set_message_visibilityTimeout m v w) = calls w.
Proof. reflexivity. Qed.

Lemma calls_log_Emit ev w : calls (log (Emit ev) w) = calls w.
Proof. rewrite calls_log. apply app_nil_r. Qed.

Lemma calls_log_Debug d w : calls (log (Debug d) w) = calls w.
Proof. rewrite calls_log. apply app_nil_r. Qed.

Lemma calls_log_Call c w : calls (log (Call c) w) = calls w ++ [c].
Proof. apply calls_log. Qed.

Lemma fields_log m a w : fields m (log a w) = fields m w.
Proof. reflexivity. Qed.

Lemma this_visibilityTimeout_set_finishedProcessing m b w :
  this_visibilityTimeout (set_finishedProcessing m b w) = this_visibilityTimeout w.
Proof. reflexivity. Qed.

Create Rewrite HintDb world.
#[local] Hint Rewrite fields_set_fields fields_set_finishedProcessing
  fields_set_message_visibilityTimeout fields_log
  calls_set_finishedProcessing calls_set_message_visibilityTimeout
  calls_log_Emit calls_log_Debug calls_log_Call
  this_visibilityTimeout_set_finishedProcessing : world.

#[local] Arguments fields : simpl never.
#[local] Arguments calls : simpl never.
#[local] Arguments events : simpl never.
#[local] Arguments set_finishedProcessing : simpl never.
#[local] Arguments set_message_visibilityTimeout : simpl never.
#[local] Arguments log : simpl never.
#[local] Arguments schedule : simpl never.
#[local] Arguments report_unhandled : simpl never.

(** ** Running code: sequencing and handlers *)

Lemma exec_bind {A B : Type} sched (p : Async A) (f : A -> Async B) w :
  exec sched (bind p f) w =
  match exec sched p w with
  | (Resolved a, w') => exec sched (f a) w'
  | (Rejected e, w') => (Rejected e, w')
  | (Pending, w') => (Pending, w')
  end.
Proof.
  revert w. induction p as [A a|A e|A k IH|A g k IH|A k IH|A|A cs k IH];
    intros w; simpl; auto.
  destruct (start_all cs w) as [pool w1].
  destruct (join sched pool w1) as [[ | | ] w2]; auto.
Qed.

Lemma exec_try_catch {A : Type} sched (p : Async A) (h : JsError -> Async A) w :
  exec sched (try_catch p h) w =
  match exec sched p w with
  | (Rejected e, w') => exec sched (h e) w'
  | other => other
  end.
Proof.
  revert w. induction p as [A a|A e|A k IH|A g k IH|A k IH|A|A cs k IH];
    intros w; simpl; auto.
  destruct (start_all cs w) as [pool w1].
  destruct (join sched pool w1) as [[ | | ] w2]; auto.
Qed.

Lemma exec_try_finally_clearTimeout {A : Type} sched (p : Async A) timeout w :
  exec sched (try_finally p (clearTimeout timeout)) w = exec sched p w.
Proof.
  unfold try_finally, clearTimeout. rewrite exec_bind, exec_try_catch.
  destruct (exec sched p w) as [[a|e|] w']; reflexivity.
Qed.

Lemma exec_request_await {X : Type} sched (c : SqsCall)
    (answer : list SqsCall -> Promise X) w :
  exec sched (let* p := request c answer in await p) w =
  (match answer (calls w) with
   | forever => Pending
   | fulfilled _ x => Resolved x
   | rejected _ e => Rejected e
   end, log (Call c) w).
Proof. simpl. destruct (answer (calls w)); reflexivity. Qed.

(** [exec] gives a call that awaits no [Promise.all] one turn after the
    other. *)
Lemma exec_seg {A : Type} sched (p : Async A) w :
  flat p ->
  exec sched p w =
  match seg p w with
  | (settled (inr a), w') => (Resolved a, w')
  | (settled (inl e), w') => (Rejected e, w')
  | (waiting k, w') => exec sched k w'
  | (hung, w') => (Pending, w')
  end.
Proof.
  revert w. induction p as [A a|A e|A k IH|A g k IH|A k IH|A|A cs k IH];
    intros w Hp; simpl in *; auto. done.
Qed.

Lemma flat_bind {A B : Type} (p : Async A) (f : A -> Async B) :
  flat p -> (forall a, flat (f a)) -> flat (bind p f).
Proof.
  induction p as [A a|A e|A k IH|A g k IH|A k IH|A|A cs k IH]; simpl; auto.
Qed.

Lemma flat_try_catch {A : Type} (p : Async A) (h : JsError -> Async A) :
  flat p -> (forall e, flat (h e)) -> flat (try_catch p h).
Proof.
  induction p as [A a|A e|A k IH|A g k IH|A k IH|A|A cs k IH]; simpl; auto.
Qed.

Lemma flat_await {X : Type} (p : Promise X) : flat (await p).
Proof. by destruct p. Qed.

Lemma flat_request_await {X : Type} c (answer : list SqsCall -> Promise X) :
  flat (let* p := request c answer in await p).
Proof. intros w. simpl. apply flat_await. Qed.

Lemma flat_processMessage T this m : flat (_processMessage T this m).
Proof.
  unfold _processMessage. apply flat_bind; [done|]. intros _.
  apply flat_try_catch.
  - apply flat_bind.
    + unfold _executeHandler, try_finally, clearTimeout.
      apply flat_bind; [|done]. apply flat_try_catch; [|done].
      apply flat_try_catch.
      * simpl. intros w. apply flat_bind.
        { destruct (extendVisibilityTimeout this); [|done].
          unfold extendTimeout. simpl. intros w0.
          destruct (finishedProcessing (fields m w0)) as [[|]|]; simpl; try done;
            intros w1 w2; by destruct (sqs_changeMessageVisibility _ _ _ _ _). }
        intros _. destruct (truthy_number _); apply flat_await.
      * intros e. by destruct (instanceof_TimeoutError e).
    + intros _. apply flat_bind; [|done]. unfold _deleteMessage.
      apply flat_bind; [done|]. intros _.
      apply flat_try_catch; [apply flat_request_await|done].
  - intros e. apply flat_bind.
    + destruct (String.eqb _ _); [done|]. by destruct (instanceof_TimeoutError e).
    + intros _. destruct (terminateVisibilityTimeout this); [|done].
      apply flat_try_catch; [apply flat_request_await|done].
Qed.

(** ** The methods, one by one *)

Lemma exec_extendTimeout_finished this m sched w :
  finishedProcessing (fields m w) = Some true ->
  exec sched (extendTimeout this m) w = (Resolved tt, w).
Proof. intros H. unfold extendTimeout. simpl. by rewrite H. Qed.

Lemma exec_extendTimeout_round this m sched w :
  finishedProcessing (fields m w) <> Some true ->
  exec sched (extendTimeout this m) w = (Resolved tt, extension_round this m w).
Proof.
  intros H. unfold extendTimeout, extension_round. simpl.
  destruct (finishedProcessing (fields m w)) as [[|]|] eqn:E; [done| |];
    simpl; autorewrite with world; simpl;
    destruct (sqs_changeMessageVisibility _ _ _ _ _); reflexivity.
Qed.

Lemma exec_extendTimeout_then m sched w :
  exec sched (extendTimeout_then m) w =
  (Resolved tt,
   schedule (timer (task_extendTimeout m)
               (option_map (fun v => v * 450) (visibilityTimeout (fields m w))))
            (log (Debug dbg_data) w)).
Proof. reflexivity. Qed.

Lemma trace_extension_round this m w :
  trace (extension_round this m w) =
  trace w ++ [Call (changeMessageVisibility (queueUrl this) (ReceiptHandle m)
                      (option_map (fun v => v * 2)
                         (visibilityTimeout (fields m w))))].
Proof.
  unfold extension_round.
  destruct (sqs_changeMessageVisibility _ _ _ _ _); reflexivity.
Qed.

Lemma fields_extension_round this m w :
  fields m (extension_round this m w) =
  mkProcessing (finishedProcessing (fields m w))
    (option_map (fun v => v * 2) (visibilityTimeout (fields m w))).
Proof.
  unfold extension_round.
  destruct (sqs_changeMessageVisibility _ _ _ _ _);
    apply fields_set_message_visibilityTimeout.
Qed.

Lemma trace_entered this m w :
  trace (entered this m w) = trace w ++ map Call (extension_calls this m w).
Proof.
  unfold entered, extension_calls.
  destruct (extendVisibilityTimeout this); simpl.
  - rewrite trace_extension_round, fields_set_message_visibilityTimeout.
    reflexivity.
  - by rewrite app_nil_r.
Qed.

Lemma calls_entered this m w :
  calls (entered this m w) = calls w ++ extension_calls this m w.
Proof.
  unfold calls. by rewrite trace_entered, calls_of_app, calls_of_map_Call.
Qed.

Lemma fields_entered this m w :
  finishedProcessing (fields m (entered this m w)) = Some false.
Proof.
  unfold entered. destruct (extendVisibilityTimeout this).
  - rewrite fields_extension_round. simpl.
    by rewrite fields_set_message_visibilityTimeout, fields_set_finishedProcessing.
  - by rewrite fields_set_message_visibilityTimeout, fields_set_finishedProcessing.
Qed.

Lemma exec_executeHandler T this m sched w :
  exec sched (_executeHandler T this m) w =
  match awaited T this m with
  | forever => (Pending, entered this m w)
  | fulfilled _ _ => (Resolved tt, entered this m w)
  | rejected _ e =>
      (Rejected (rethrown this e), set_finishedProcessing m true (entered this m w))
  end.
Proof.
  unfold _executeHandler. rewrite exec_try_finally_clearTimeout, exec_try_catch.
  simpl exec at 1.
  rewrite !exec_bind.
  assert (Hext :
    exec sched (if extendVisibilityTimeout this then extendTimeout this m else Ret tt)
      (set_message_visibilityTimeout m (this_visibilityTimeout
           (set_finishedProcessing m false w)) (set_finishedProcessing m false w))
    = (Resolved tt, entered this m w)).
  { unfold entered. destruct (extendVisibilityTimeout this); [|reflexivity].
    apply exec_extendTimeout_round.
    by rewrite fields_set_message_visibilityTimeout, fields_set_finishedProcessing. }
  simpl exec at 1. simpl in Hext |- *. rewrite Hext.
  unfold awaited, rethrown. simpl.
  destruct (truthy_number (handleMessageTimeout this));
    match goal with |- context [await ?p] => destruct p as [|t []|t e] end;
    simpl; try reflexivity;
    match goal with |- context [instanceof_TimeoutError ?e] =>
      destruct (instanceof_TimeoutError e) end; reflexivity.
Qed.

Lemma exec_deleteMessage this m sched w :
  exec sched (_deleteMessage this m) w =
  (match sqs_deleteMessage (sqs this) (calls w) (queueUrl this) (ReceiptHandle m) with
   | forever => Pending
   | fulfilled _ _ => Resolved tt
   | rejected _ e =>
       Rejected (toSQSError e ("SQS delete message failed: " +:+ err_message e))
   end,
   log (Call (deleteMessage (queueUrl this) (ReceiptHandle m)))
       (log (Debug (dbg_deleting (MessageId m))) w)).
Proof.
  unfold _deleteMessage. simpl.
  replace (calls (log (Debug (dbg_deleting (MessageId m))) w)) with (calls w)
    by (rewrite calls_log; by rewrite app_nil_r).
  destruct (sqs_deleteMessage _ _ _ _) as [|t []|t e]; reflexivity.
Qed.

Lemma trace_recovered this m err w :
  trace (recovered this m err w) =
  trace w ++ Emit (failure_event m err) :: release_actions this m (calls w).
Proof.
  unfold recovered, release_actions.
  replace (calls (log (Emit (failure_event m err)) w)) with (calls w)
    by (rewrite calls_log; by rewrite app_nil_r).
  destruct (terminateVisibilityTimeout this); simpl; [|done].
  destruct (release_promise this m (calls w)); simpl;
    by rewrite <- ?app_assoc.
Qed.

Lemma exec_emit sched name err msg w :
  exec sched (emit name err msg) w = (Resolved tt, log (Emit (mkEvent name err msg)) w).
Proof. reflexivity. Qed.

Lemma exec_failure_event sched m err w :
  exec sched
    (if String.eqb (err_name err) SQSError_name
     then emit "error" (Some err) (Some m)
     else if instanceof_TimeoutError err
          then emit "timeout_error" (Some err) (Some m)
          else emit "processing_error" (Some err) (Some m)) w
  = (Resolved tt, log (Emit (failure_event m err)) w).
Proof.
  unfold failure_event, failure_name.
  destruct (String.eqb _ _); [reflexivity|].
  destruct (instanceof_TimeoutError err); reflexivity.
Qed.

Lemma exec_release sched this m w :
  exec sched
    (if terminateVisibilityTimeout this
     then try_catch (_terminateVisabilityTimeout this m)
            (fun err => emit "error" (Some err) (Some m))
     else Ret tt) w
  = (release_outcome this m (calls w),
     if terminateVisibilityTimeout this then
       let w2 := log (Call (release_call this m)) w in
       match release_promise this m (calls w) with
       | rejected _ e => log (Emit (mkEvent "error" (Some e) (Some m))) w2
       | _ => w2
       end
     else w).
Proof.
  unfold release_outcome.
  destruct (terminateVisibilityTimeout this); [|reflexivity].
  rewrite exec_try_catch. unfold _terminateVisabilityTimeout.
  rewrite exec_request_await. unfold release_promise, release_call.
  destruct (sqs_changeMessageVisibility _ _ _ _ _) as [|t []|t e]; reflexivity.
Qed.

Lemma exec_processMessage T this m sched w :
  exec sched (_processMessage T this m) w =
  match exec sched
          (_executeHandler T this m >> _deleteMessage this m >>
           emit "message_processed" None (Some m))
          (log (Emit (received m)) w) with
  | (Rejected err, w1) => (release_outcome this m (calls w1), recovered this m err w1)
  | other => other
  end.
Proof.
  unfold _processMessage.
  rewrite exec_bind, exec_emit, exec_try_catch. fold (received m).
  destruct (exec sched _ (log (Emit (received m)) w)) as [[[]|err|] w1];
    try reflexivity.
  rewrite exec_bind, exec_failure_event, exec_release.
  unfold recovered. by rewrite !calls_log_Emit.
Qed.

(** ** One message *)

Ltac filter_step :=
  rewrite filter_cons;
  first [ rewrite decide_True by reflexivity
        | rewrite decide_False by (simpl; discriminate) ].

(** The delay of a timer is within Node's range; a delay given within it
    is kept. *)
Lemma timer_delay_range (after : Z) : 1 <= timer_delay after <= TIMEOUT_MAX.
Proof.
  unfold timer_delay, TIMEOUT_MAX.
  destruct (Z.leb_spec 1 after), (Z.leb_spec after 2147483647); simpl; lia.
Qed.

Lemma timer_delay_within (after : Z) :
  1 <= after <= TIMEOUT_MAX -> timer_delay after = after.
Proof.
  unfold timer_delay. intros [H1 H2].
  destruct (Z.leb_spec 1 after), (Z.leb_spec after TIMEOUT_MAX); simpl; lia.
Qed.

(** A budget of a millisecond or more that a handler has not met is a
    deadline it has not met. *)
Lemma exceeds_timer_delay (p : Promise unit) (d : Z) :
  1 <= d -> exceeds p d -> exceeds p (timer_delay d).
Proof.
  unfold exceeds, timer_delay, TIMEOUT_MAX. intros Hd.
  destruct (settles_after p) as [t|]; [|done].
  destruct (Z.leb_spec 1 d), (Z.leb_spec d 2147483647); simpl; lia.
Qed.

Lemma race2_handler_in_time (p : Promise unit) (t d : Z) (x : unit) (e : JsError) :
  p = fulfilled t x -> t < d -> race2 p (rejected d e) = fulfilled t x.
Proof. intros -> H. unfold race2; simpl. destruct (Z.ltb_spec t d); [done|lia]. Qed.

Lemma race2_deadline_first (p : Promise unit) (d : Z) (e : JsError) :
  exceeds p d -> race2 p (rejected d e) = rejected d e.
Proof.
  unfold exceeds, race2. destruct p as [|t x|t e']; simpl; try done;
    intros H; destruct (Z.ltb_spec t d); (done || lia).
Qed.

Lemma awaited_in_time T this m t :
  handleMessage this m = fulfilled t tt ->
  (forall d, handleMessageTimeout this = Some d -> d <> 0 -> t < timer_delay d) ->
  awaited T this m = fulfilled t tt.
Proof.
  intros Hh Hd. unfold awaited.
  destruct (handleMessageTimeout this) as [d|] eqn:E; simpl; [|done].
  destruct (Z.eqb_spec d 0); simpl; [done|].
  apply race2_handler_in_time; [done|]. by apply Hd.
Qed.

Lemma awaited_deadline T this m d :
  handleMessageTimeout this = Some d -> d <> 0 ->
  exceeds (handleMessage this m) (timer_delay d) ->
  awaited T this m = rejected (timer_delay d) (new_TimeoutError T).
Proof.
  intros E Hd Hx. unfold awaited. rewrite E. simpl.
  destruct (Z.eqb_spec d 0); [done|]. simpl.
  by apply race2_deadline_first.
Qed.

Lemma awaited_no_budget T this m :
  truthy_number (handleMessageTimeout this) = false ->
  awaited T this m = handleMessage this m.
Proof. intros E. unfold awaited. by rewrite E. Qed.

Lemma exec_attempt T this m sched w :
  exec sched (attempt T this m) w =
  match awaited T this m with
  | forever => (Pending, entered this m w)
  | rejected _ e =>
      (Rejected (rethrown this e), set_finishedProcessing m true (entered this m w))
  | fulfilled _ _ =>
      let wd := log (Call (deleteMessage (queueUrl this) (ReceiptHandle m)))
                    (log (Debug (dbg_deleting (MessageId m))) (entered this m w)) in
      match sqs_deleteMessage (sqs this) (calls w ++ extension_calls this m w)
              (queueUrl this) (ReceiptHandle m) with
      | forever => (Pending, wd)
      | fulfilled _ _ => (Resolved tt, log (Emit (processed m)) wd)
      | rejected _ e => (Rejected (delete_failure e), wd)
      end
  end.
Proof.
  unfold attempt. rewrite exec_bind, exec_executeHandler.
  destruct (awaited T this m) as [|t []|t e]; try reflexivity.
  rewrite exec_bind, exec_deleteMessage, calls_entered.
  destruct (sqs_deleteMessage _ _ _ _) as [|t' []|t' e]; reflexivity.
Qed.

Lemma extension_calls_log this m a w :
  extension_calls this m (log a w) = extension_calls this m w.
Proof. reflexivity. Qed.

Lemma events_of_release_actions this m h :
  Forall (fun ev => ev_name ev = "error" /\ ev_msg ev = Some m)
         (events_of (release_actions this m h)).
Proof.
  unfold release_actions. destruct (terminateVisibilityTimeout this); simpl; [|done].
  destruct (release_promise this m h); simpl; repeat constructor.
Qed.

Lemma calls_of_release_actions this m h :
  calls_of (release_actions this m h) =
  if terminateVisibilityTimeout this then [release_call this m] else [].
Proof.
  unfold release_actions. destruct (terminateVisibilityTimeout this); simpl; [|done].
  destruct (release_promise this m h); reflexivity.
Qed.

Lemma release_outcome_not_rejected this m h e :
  release_outcome this m h <> Rejected e.
Proof.
  unfold release_outcome. destruct (terminateVisibilityTimeout this); [|done].
  destruct (release_promise this m h); done.
Qed.

Lemma filter_name_release this m h (name : string) :
  name <> "error" ->
  filter (fun ev => ev_name ev = name) (events_of (release_actions this m h)) = [].
Proof.
  intros Hn. pose proof (events_of_release_actions this m h) as HF.
  induction HF as [|ev l [Hev _] _ IH]; [done|].
  rewrite filter_cons, IH. rewrite decide_False; [done|]. congruence.
Qed.

Lemma filter_deleteMessage_release this m h :
  filter (fun c => is_deleteMessage c) (calls_of (release_actions this m h)) = [].
Proof.
  rewrite calls_of_release_actions.
  destruct (terminateVisibilityTimeout this); reflexivity.
Qed.

Lemma filter_deleteMessage_extension this m w :
  filter (fun c => is_deleteMessage c) (extension_calls this m w) = [].
Proof. unfold extension_calls. destruct (extendVisibilityTimeout this); reflexivity. Qed.

Lemma trace_entered_received this m w :
  trace (entered this m (log (Emit (received m)) w)) =
  trace w ++ Emit (received m) :: map Call (extension_calls this m w).
Proof.
  rewrite trace_entered, extension_calls_log. unfold log; simpl.
  by rewrite <- app_assoc.
Qed.

Lemma calls_entered_received this m w :
  calls (entered this m (log (Emit (received m)) w)) =
  calls w ++ extension_calls this m w.
Proof. by rewrite calls_entered, calls_log_Emit, extension_calls_log. Qed.

(** [_processMessage] settles or stays pending; it is never rejected. *)
Lemma processMessage_never_rejected T this m sched w e :
  (exec sched (_processMessage T this m) w).1 <> Rejected e.
Proof.
  rewrite exec_processMessage. fold (attempt T this m). rewrite exec_attempt.
  destruct (awaited T this m) as [|t []|t e']; simpl; try done.
  - destruct (sqs_deleteMessage _ _ _ _) as [|t' []|t' e']; simpl; try done.
    apply release_outcome_not_rejected.
  - apply release_outcome_not_rejected.
Qed.

(** C6: when the handler resolves and the delete request succeeds,
    [_processMessage] resolves and does, in order: emit [message_received],
    issue the first extension request if extension is on, issue one
    [deleteMessage] with the queue and the message's receipt handle, emit
    [message_processed]; so it emits no [error], [timeout_error] or
    [processing_error].  If a budget [d] is set the handler is to resolve
    before the deadline's timer fires: within [d] milliseconds when [d] is a
    delay a timer takes (1 to 2^31-1), within 1 millisecond when it is
    not. *)
Theorem processMessage_success T this m sched w t t' :
  handleMessage this m = fulfilled t tt ->
  (forall d, handleMessageTimeout this = Some d -> d <> 0 -> t < timer_delay d) ->
  sqs_deleteMessage (sqs this) (calls w ++ extension_calls this m w)
     (queueUrl this) (ReceiptHandle m) = fulfilled t' tt ->
  exists w',
    exec sched (_processMessage T this m) w = (Resolved tt, w') /\
    trace w' = trace w ++ Emit (received m) :: map Call (extension_calls this m w)
                 ++ [Debug (dbg_deleting (MessageId m));
                     Call (deleteMessage (queueUrl this) (ReceiptHandle m));
                     Emit (processed m)] /\
    events w' = events w ++ [received m; processed m] /\
    filter (fun c => is_deleteMessage c) (calls w') =
      filter (fun c => is_deleteMessage c) (calls w)
        ++ [deleteMessage (queueUrl this) (ReceiptHandle m)].
Proof.
  intros Hh Hd Hdel.
  rewrite exec_processMessage. fold (attempt T this m).
  rewrite exec_attempt, (awaited_in_time T this m t Hh Hd).
  rewrite calls_log_Emit, extension_calls_log, Hdel.
  eexists; split; [reflexivity|].
  assert (Htr : forall w0 : World, trace
     (log (Emit (processed m))
        (log (Call (deleteMessage (queueUrl this) (ReceiptHandle m)))
           (log (Debug (dbg_deleting (MessageId m)))
              (entered this m (log (Emit (received m)) w0)))))
     = trace w0 ++ Emit (received m) :: map Call (extension_calls this m w0)
         ++ [Debug (dbg_deleting (MessageId m));
             Call (deleteMessage (queueUrl this) (ReceiptHandle m));
             Emit (processed m)]).
  { intros w0. unfold log at 1 2 3. simpl. rewrite trace_entered.
    unfold log; simpl. unfold extension_calls; simpl.
    rewrite <- !app_assoc. reflexivity. }
  split; [apply Htr|].
  unfold events, calls. rewrite !Htr.
  rewrite events_of_app, calls_of_app. simpl.
  rewrite events_of_app, calls_of_app, events_of_map_Call, calls_of_map_Call.
  split; [reflexivity|].
  rewrite filter_app. f_equal. rewrite filter_app. simpl.
  unfold extension_calls. destruct (extendVisibilityTimeout this); reflexivity.
Qed.

Lemma processMessage_success_witness :
  let this := Sample.consumer_with (Some 15) false false Sample.client in
  handleMessage this Sample.first = fulfilled 10 tt /\
  10 < timer_delay 15 /\
  exists w',
    exec [] (_processMessage Sample.text this Sample.first) Sample.world
      = (Resolved tt, w') /\
    trace w' = [Emit (received Sample.first);
                Debug (dbg_deleting "id-1");
                Call (deleteMessage "queue" "receipt-1");
                Emit (processed Sample.first)] /\
    events w' = [received Sample.first; processed Sample.first] /\
    filter (fun c => is_deleteMessage c) (calls w') =
      [deleteMessage "queue" "receipt-1"].
Proof.
  intros this. split; [reflexivity|]. split; [reflexivity|].
  apply (processMessage_success Sample.text this Sample.first []
           Sample.world 10 5);
    [reflexivity| intros d [= <-] _; reflexivity |reflexivity].
Defined.

(** C7: with a budget of [d] milliseconds set, a handler that has not
    settled when the deadline's timer fires makes [_processMessage] emit one
    [timeout_error], whose error is a [TimeoutError] with the text
    "Message handler timed out after <d>ms: ...", and issue no
    [deleteMessage].  The timer fires after [d] milliseconds when [d] is a
    delay a timer takes (1 to 2^31-1) and after 1 millisecond when it is
    not; so a handler that exceeds a budget of a millisecond or more is
    always timed out.  With no budget set, what [_executeHandler] returns
    is what the handler's own promise does, however late. *)
Theorem executeHandler_timeout T this m sched w :
  (forall d, handleMessageTimeout this = Some d -> d <> 0 ->
     exceeds (handleMessage this m) (timer_delay d) ->
     let err :=
       mkError Class_TimeoutError "TimeoutError"
         ("Message handler timed out after "
            +:+ NilZero.string_of_int (Z.to_int d) +:+ "ms: " +:+ T)
         None None None None None None in
     exists r w',
       exec sched (_processMessage T this m) w = (r, w') /\
       trace w' =
         trace w ++ Emit (received m) :: map Call (extension_calls this m w)
           ++ Emit (mkEvent "timeout_error" (Some err) (Some m))
              :: release_actions this m (calls w ++ extension_calls this m w) /\
       filter (fun ev => ev_name ev = "timeout_error") (events w') =
         filter (fun ev => ev_name ev = "timeout_error") (events w)
           ++ [mkEvent "timeout_error" (Some err) (Some m)] /\
       filter (fun c => is_deleteMessage c) (calls w') =
         filter (fun c => is_deleteMessage c) (calls w)) /\
  (truthy_number (handleMessageTimeout this) = false ->
     (exec sched (_executeHandler T this m) w).1 =
     match handleMessage this m with
     | forever => Pending
     | fulfilled _ _ => Resolved tt
     | rejected _ e => Rejected (rethrown this e)
     end).
Proof.
  split.
  - intros d Hb Hd Hx err.
    rewrite exec_processMessage. fold (attempt T this m).
    rewrite exec_attempt, (awaited_deadline T this m d Hb Hd Hx).
    assert (Herr : rethrown this (new_TimeoutError T) = err).
    { unfold rethrown, new_TimeoutError, set_message. simpl. by rewrite Hb. }
    rewrite Herr.
    eexists _, _; split; [reflexivity|].
    assert (Htr : trace (recovered this m err
                   (set_finishedProcessing m true
                      (entered this m (log (Emit (received m)) w))))
       = trace w ++ Emit (received m) :: map Call (extension_calls this m w)
           ++ Emit (mkEvent "timeout_error" (Some err) (Some m))
              :: release_actions this m (calls w ++ extension_calls this m w)).
    { rewrite trace_recovered, calls_set_finishedProcessing, calls_entered_received.
      change (trace (set_finishedProcessing m true ?x)) with (trace x).
      rewrite trace_entered_received. rewrite <- app_assoc. reflexivity. }
    split; [exact Htr|].
    unfold events, calls. rewrite Htr.
    rewrite events_of_app, calls_of_app. simpl.
    rewrite events_of_app, calls_of_app, events_of_map_Call, calls_of_map_Call.
    simpl. rewrite !filter_app, filter_deleteMessage_extension.
    rewrite filter_deleteMessage_release, !app_nil_r.
    split; [|reflexivity].
    repeat filter_step. by rewrite filter_name_release.
  - intros Hb. rewrite exec_executeHandler, (awaited_no_budget T this m Hb).
    destruct (handleMessage this m) as [|t []|t e]; reflexivity.
Qed.

(** C5: when the [try] block of [_processMessage] fails with [err], the
    call is not rejected; after the block it emits one event carrying [err]
    and the message, named [error] when [err] bears the name of [SQSError],
    else [timeout_error] when [err] is a [TimeoutError], else
    [processing_error]; only the release of the message follows. *)
Theorem processMessage_failure_classified T this m sched w err w1 :
  exec sched (attempt T this m) (log (Emit (received m)) w) = (Rejected err, w1) ->
  exists r w',
    exec sched (_processMessage T this m) w = (r, w') /\
    (forall e, r <> Rejected e) /\
    exists name,
      trace w' = trace w1 ++ Emit (mkEvent name (Some err) (Some m))
                   :: release_actions this m (calls w1) /\
      (err_name err = "SQSError" -> name = "error") /\
      (err_name err <> "SQSError" -> err_class err = Class_TimeoutError ->
       name = "timeout_error") /\
      (err_name err <> "SQSError" -> err_class err <> Class_TimeoutError ->
       name = "processing_error").
Proof.
  intros Hfail. rewrite exec_processMessage. fold (attempt T this m).
  rewrite Hfail. eexists _, _; split; [reflexivity|].
  split; [intros e; apply release_outcome_not_rejected|].
  exists (failure_name err). split; [apply trace_recovered|].
  unfold failure_name, SQSError_name, instanceof_TimeoutError.
  destruct (String.eqb_spec (err_name err) "SQSError") as [Hn|Hn];
    [by repeat split|].
  destruct (err_class err); repeat split; (done || congruence).
Qed.

(** C8: with [terminateVisibilityTimeout] on, when the [try] block of
    [_processMessage] fails, the failure event is followed by one
    [changeMessageVisibility] for the message's receipt handle with
    timeout 0; when that request fails, its error is emitted as [error] and
    the call still resolves. *)
Theorem processMessage_failure_releases T this m sched w err w1 :
  terminateVisibilityTimeout this = true ->
  exec sched (attempt T this m) (log (Emit (received m)) w) = (Rejected err, w1) ->
  exists r w' secondary,
    exec sched (_processMessage T this m) w = (r, w') /\
    trace w' =
      trace w1 ++ [Emit (failure_event m err);
                   Call (changeMessageVisibility (queueUrl this)
                           (ReceiptHandle m) (Some 0))] ++ secondary /\
    match sqs_changeMessageVisibility (sqs this) (calls w1) (queueUrl this)
            (ReceiptHandle m) (Some 0) with
    | rejected _ e2 =>
        secondary = [Emit (mkEvent "error" (Some e2) (Some m))] /\ r = Resolved tt
    | fulfilled _ _ => secondary = [] /\ r = Resolved tt
    | forever => secondary = [] /\ r = Pending
    end.
Proof.
  intros Hterm Hfail. rewrite exec_processMessage. fold (attempt T this m).
  rewrite Hfail. unfold release_outcome. rewrite Hterm.
  eexists _, _, _; split; [reflexivity|].
  rewrite trace_recovered. unfold release_actions, release_promise, release_call.
  rewrite Hterm. split; [reflexivity|].
  destruct (sqs_changeMessageVisibility _ _ _ _ _); split; reflexivity.
Qed.

(** C10: when the handler resolves and the delete request fails with [e],
    [_processMessage] emits [error] with the message and an [SQSError]
    whose text is "SQS delete message failed: " followed by the text of
    [e] and whose [code] and [statusCode] are those of [e]; it emits no
    [message_processed]; with [terminateVisibilityTimeout] on, the release
    request follows.  If a budget [d] is set the handler is to resolve
    before the deadline's timer fires: within [d] milliseconds when [d] is a
    delay a timer takes (1 to 2^31-1), within 1 millisecond when it is
    not. *)
Theorem processMessage_delete_failure T this m sched w t t' e :
  handleMessage this m = fulfilled t tt ->
  (forall d, handleMessageTimeout this = Some d -> d <> 0 -> t < timer_delay d) ->
  sqs_deleteMessage (sqs this) (calls w ++ extension_calls this m w)
     (queueUrl this) (ReceiptHandle m) = rejected t' e ->
  let err :=
    mkError Class_SQSError "SQSError"
      ("SQS delete message failed: " +:+ err_message e)
      (err_code e) (err_statusCode e) (err_region e) (err_retryable e)
      (err_hostname e) (err_time e) in
  let h := calls w ++ extension_calls this m w
             ++ [deleteMessage (queueUrl this) (ReceiptHandle m)] in
  exists r w',
    exec sched (_processMessage T this m) w = (r, w') /\
    trace w' =
      trace w ++ Emit (received m) :: map Call (extension_calls this m w)
        ++ [Debug (dbg_deleting (MessageId m));
            Call (deleteMessage (queueUrl this) (ReceiptHandle m));
            Emit (mkEvent "error" (Some err) (Some m))]
        ++ release_actions this m h /\
    filter (fun ev => ev_name ev = "message_processed") (events w') =
      filter (fun ev => ev_name ev = "message_processed") (events w) /\
    (terminateVisibilityTimeout this = true ->
     exists secondary,
       release_actions this m h =
       Call (changeMessageVisibility (queueUrl this) (ReceiptHandle m) (Some 0))
         :: secondary).
Proof.
  intros Hh Hd Hdel err h.
  rewrite exec_processMessage. fold (attempt T this m).
  rewrite exec_attempt, (awaited_in_time T this m t Hh Hd).
  rewrite calls_log_Emit, extension_calls_log, Hdel.
  eexists _, _; split; [reflexivity|].
  assert (Htr : trace (recovered this m (delete_failure e)
        (log (Call (deleteMessage (queueUrl this) (ReceiptHandle m)))
           (log (Debug (dbg_deleting (MessageId m)))
              (entered this m (log (Emit (received m)) w)))))
     = trace w ++ Emit (received m) :: map Call (extension_calls this m w)
        ++ [Debug (dbg_deleting (MessageId m));
            Call (deleteMessage (queueUrl this) (ReceiptHandle m));
            Emit (mkEvent "error" (Some err) (Some m))]
        ++ release_actions this m h).
  { rewrite trace_recovered, calls_log_Call, calls_log_Debug, calls_entered_received.
    unfold log at 1 2. simpl. rewrite trace_entered_received.
    unfold h. rewrite <- !app_assoc. reflexivity. }
  split; [exact Htr|]. split.
  - unfold events. rewrite Htr. rewrite events_of_app. simpl.
    rewrite events_of_app, events_of_map_Call. simpl.
    rewrite !filter_app. repeat filter_step.
    rewrite filter_name_release by discriminate. simpl. by rewrite app_nil_r.
  - intros Hterm. unfold release_actions. rewrite Hterm. eexists. reflexivity.
Qed.

Lemma executeHandler_timeout_witness :
  let slow := Sample.consumer_with (Some 15) false false Sample.client in
  exceeds (handleMessage slow Sample.second) (timer_delay 15) /\
  (exists r w',
     exec [] (_processMessage Sample.text slow Sample.second) Sample.world = (r, w') /\
     filter (fun ev => ev_name ev = "timeout_error") (events w') =
       [mkEvent "timeout_error"
          (Some (mkError Class_TimeoutError "TimeoutError"
                   "Message handler timed out after 15ms: Operation timed out."
                   None None None None None None))
          (Some Sample.second)] /\
     filter (fun c => is_deleteMessage c) (calls w') = []) /\
  (exec [] (_executeHandler Sample.text Sample.consumer Sample.second)
        Sample.world).1
  = Rejected (rethrown Sample.consumer Sample.boom).
Proof.
  intros slow.
  assert (Hx : exceeds (handleMessage slow Sample.second) (timer_delay 15))
    by (vm_compute; discriminate).
  split; [exact Hx|]. split.
  - destruct (executeHandler_timeout Sample.text slow Sample.second []
                Sample.world) as [H _].
    destruct (H 15 eq_refl ltac:(discriminate) Hx) as (r & w' & He & _ & Hf & Hc).
    exists r, w'. split; [exact He|]. split; [exact Hf|exact Hc].
  - destruct (executeHandler_timeout Sample.text Sample.consumer Sample.second []
                Sample.world) as [_ H].
    exact (H eq_refl).
Defined.

Lemma processMessage_failure_classified_witness :
  let w1 := set_finishedProcessing Sample.second true
              (entered Sample.consumer Sample.second
                 (log (Emit (received Sample.second)) Sample.world)) in
  let err := rethrown Sample.consumer Sample.boom in
  exec [] (attempt Sample.text Sample.consumer Sample.second)
       (log (Emit (received Sample.second)) Sample.world) = (Rejected err, w1) /\
  exists r w',
    exec [] (_processMessage Sample.text Sample.consumer Sample.second)
         Sample.world = (r, w') /\
    (forall e, r <> Rejected e) /\
    exists name,
      trace w' = trace w1 ++ Emit (mkEvent name (Some err) (Some Sample.second))
                   :: release_actions Sample.consumer Sample.second (calls w1) /\
      (err_name err = "SQSError" -> name = "error") /\
      (err_name err <> "SQSError" -> err_class err = Class_TimeoutError ->
       name = "timeout_error") /\
      (err_name err <> "SQSError" -> err_class err <> Class_TimeoutError ->
       name = "processing_error").
Proof.
  intros w1 err.
  assert (H : exec [] (attempt Sample.text Sample.consumer Sample.second)
                (log (Emit (received Sample.second)) Sample.world)
              = (Rejected err, w1)) by reflexivity.
  split; [exact H|].
  exact (processMessage_failure_classified Sample.text Sample.consumer
           Sample.second [] Sample.world err w1 H).
Defined.

Lemma processMessage_failure_releases_witness :
  let this := Sample.consumer_with None true false Sample.client_visibility_fails in
  let w1 := set_finishedProcessing Sample.second true
              (entered this Sample.second
                 (log (Emit (received Sample.second)) Sample.world)) in
  let err := rethrown this Sample.boom in
  terminateVisibilityTimeout this = true /\
  exec [] (attempt Sample.text this Sample.second)
       (log (Emit (received Sample.second)) Sample.world) = (Rejected err, w1) /\
  exists r w' secondary,
    exec [] (_processMessage Sample.text this Sample.second) Sample.world = (r, w') /\
    trace w' =
      trace w1 ++ [Emit (failure_event Sample.second err);
                   Call (changeMessageVisibility "queue" "receipt-2" (Some 0))]
        ++ secondary /\
    secondary = [Emit (mkEvent "error" (Some Sample.unavailable) (Some Sample.second))] /\
    r = Resolved tt.
Proof.
  intros this w1 err.
  assert (H : exec [] (attempt Sample.text this Sample.second)
                (log (Emit (received Sample.second)) Sample.world)
              = (Rejected err, w1)) by reflexivity.
  split; [reflexivity|]. split; [exact H|].
  destruct (processMessage_failure_releases Sample.text this Sample.second []
              Sample.world err w1 eq_refl H) as (r & w' & sec & He & Ht & Hs).
  exists r, w', sec. split; [exact He|]. split; [exact Ht|exact Hs].
Defined.

Lemma processMessage_delete_failure_witness :
  let this :=
    Sample.consumer_with (Some 15) true false Sample.client_delete_fails in
  handleMessage this Sample.first = fulfilled 10 tt /\
  10 < timer_delay 15 /\
  exists r w',
    exec [] (_processMessage Sample.text this Sample.first) Sample.world = (r, w') /\
    trace w' =
      [Emit (received Sample.first);
       Debug (dbg_deleting "id-1");
       Call (deleteMessage "queue" "receipt-1");
       Emit (mkEvent "error"
               (Some (mkError Class_SQSError "SQSError"
                        "SQS delete message failed: try later"
                        (Some "ServiceUnavailable") (Some 503) (Some "eu-west-1")
                        (Some true) (Some "sqs.eu-west-1.amazonaws.com")
                        (Some "2019-01-01T00:00:00Z")))
               (Some Sample.first));
       Call (changeMessageVisibility "queue" "receipt-1" (Some 0))] /\
    filter (fun ev => ev_name ev = "message_processed") (events w') = [].
Proof.
  intros this. split; [reflexivity|]. split; [reflexivity|].
  destruct (processMessage_delete_failure Sample.text this Sample.first []
              Sample.world 10 5 Sample.unavailable eq_refl
              ltac:(intros d [= <-] _; reflexivity) eq_refl)
    as (r & w' & He & Ht & Hf & _).
  exists r, w'. split; [exact He|]. split; [exact Ht|exact Hf].
Defined.

(** ** Construction *)

(** C3: given a queue URL and a handler, the constructor returns a
    consumer when the batch size is absent (it is then 1) or between 1 and
    10, and throws when it is below 1 or above 10; it throws when the queue
    URL or the handler is missing.  A new consumer is stopped, has issued no
    request and has scheduled nothing. *)
Theorem constructor_validates SDK env options :
  (truthy_string (o_queueUrl options) = true ->
   is_Some (o_handleMessage options) ->
   match o_batchSize options with
   | Some b => 1 <= b <= 10
   | None => True
   end ->
   exists this w,
     constructor SDK env options = inr (this, w) /\
     batchSize this = default 1 (o_batchSize options) /\
     this_stopped w = true /\ trace w = [] /\ agenda w = []) /\
  (truthy_string (o_queueUrl options) = true ->
   is_Some (o_handleMessage options) ->
   forall b, o_batchSize options = Some b -> b < 1 \/ 10 < b ->
   constructor SDK env options
   = inl (plain_Error "SQS batchSize option must be between 1 and 10.")) /\
  (truthy_string (o_queueUrl options) = false ->
   constructor SDK env options
   = inl (plain_Error "Missing SQS consumer option [queueUrl].")) /\
  (truthy_string (o_queueUrl options) = true ->
   o_handleMessage options = None ->
   constructor SDK env options
   = inl (plain_Error "Missing SQS consumer option [handleMessage].")).
Proof.
  unfold constructor, validate, requiredOptions, require_each, has_option.
  simpl. repeat split.
  - intros Hq [h Hh] Hb. rewrite Hq, Hh. simpl.
    destruct (o_batchSize options) as [b|]; simpl.
    + destruct (Z.ltb_spec 10 b); [lia|]. destruct (Z.ltb_spec b 1); [lia|].
      simpl. eexists _, _. repeat split.
      simpl. destruct (Z.eqb_spec b 0); [lia|reflexivity].
    + eexists _, _. repeat split.
  - intros Hq [h Hh] b Hb Hout. rewrite Hq, Hh, Hb. simpl.
    destruct (Z.ltb_spec 10 b); [reflexivity|].
    destruct (Z.ltb_spec b 1); [reflexivity|lia].
  - intros Hq. rewrite Hq. reflexivity.
  - intros Hq Hh. rewrite Hq, Hh. reflexivity.
Qed.

Lemma constructor_validates_witness :
  let SDK := fun _ : string => Sample.client in
  let missing :=
    mkOptions None (Some Sample.handler) None None None None None None None None
              None None in
  let too_many :=
    mkOptions (Some "queue") (Some Sample.handler) None None None (Some 11) None
              None None None None None in
  (exists this w, constructor SDK None Sample.options = inr (this, w) /\
                  batchSize this = 10 /\ this_stopped w = true /\
                  trace w = [] /\ agenda w = []) /\
  constructor SDK None too_many
  = inl (plain_Error "SQS batchSize option must be between 1 and 10.") /\
  constructor SDK None missing
  = inl (plain_Error "Missing SQS consumer option [queueUrl].").
Proof.
  intros SDK missing too_many. split; [|split].
  - destruct (constructor_validates SDK None Sample.options) as [H _].
    apply H; [reflexivity|by eexists|simpl; lia].
  - destruct (constructor_validates SDK None too_many) as (_ & H & _).
    apply (H eq_refl ltac:(by eexists) 11 eq_refl). lia.
  - destruct (constructor_validates SDK None missing) as (_ & _ & H & _).
    exact (H eq_refl).
Defined.

(** ** Turn by turn *)

Lemma runs_bind {A B : Type} H m (p : Async A) (f : A -> Async B) n b ret thr :
  runs H m p n b (fun a n' b' => runs H m (f a) n' b' ret thr) thr ->
  runs H m (bind p f) n b ret thr.
Proof.
  revert n b.
  induction p as [A a|A e|A k IH|A g k IH|A k IH|A|A cs k IH]; intros n b;
    simpl; try done.
  - intros Hk w. by apply IH.
  - intros [[Hq Hk]|(ev & He & Hc & Hk)]; [left|right]; eauto.
  - destruct n; [done|]. apply IH.
Qed.

Lemma runs_try_catch {A : Type} H m (p : Async A) (h : JsError -> Async A)
    n b ret thr :
  runs H m p n b ret (fun e n' b' => runs H m (h e) n' b' ret thr) ->
  runs H m (try_catch p h) n b ret thr.
Proof.
  revert n b.
  induction p as [A a|A e|A k IH|A g k IH|A k IH|A|A cs k IH]; intros n b;
    simpl; try done.
  - intros Hk w. by apply IH.
  - intros [[Hq Hk]|(ev & He & Hc & Hk)]; [left|right]; eauto.
  - destruct n; [done|]. apply IH.
Qed.

Lemma quiet_log_Call c : quiet (log (Call c)).
Proof. intros w. rewrite events_log. apply app_nil_r. Qed.

Lemma quiet_log_Debug d : quiet (log (Debug d)).
Proof. intros w. rewrite events_log. apply app_nil_r. Qed.

Lemma emits_log_Emit ev : emits ev (log (Emit ev)).
Proof. intros w. apply events_log. Qed.

Lemma quiet_set_finishedProcessing m b : quiet (set_finishedProcessing m b).
Proof. done. Qed.

Lemma quiet_set_message_visibilityTimeout m v :
  quiet (set_message_visibilityTimeout m v).
Proof. done. Qed.

Lemma quiet_schedule s : quiet (schedule s).
Proof. done. Qed.

Lemma quiet_report_unhandled e : quiet (report_unhandled e).
Proof. done. Qed.

Ltac closing :=
  unfold closing_names; repeat constructor.

Lemma closes_named m (name : string) err :
  name ∈ closing_names -> closes m (mkEvent name err (Some m)).
Proof. by split. Qed.

Lemma runs_emit H m (name : string) err n b ret thr :
  name ∈ closing_names ->
  ret tt n true ->
  runs H m (emit name err (Some m)) n b ret thr.
Proof.
  intros Hn Hr. right. exists (mkEvent name err (Some m)).
  split; [apply emits_log_Emit|]. split; [by apply closes_named|exact Hr].
Qed.

Lemma runs_request_await {X : Type} H m c (answer : list SqsCall -> Promise X)
    n b ret thr :
  (H \/ forall h, answer h <> forever) ->
  (forall x, ret x n b) -> (forall e, thr e n b) ->
  runs H m (let* p := request c answer in await p) (S n) b ret thr.
Proof.
  intros HR Hret Hthr w. left. split; [apply quiet_log_Call|].
  destruct (answer (calls w)) as [|t x|t e] eqn:E; simpl; auto.
  destruct HR as [?|HR]; [done|]. by destruct (HR (calls w)).
Qed.

Lemma runs_extendTimeout H m this n b ret thr :
  ret tt n b -> runs H m (extendTimeout this m) n b ret thr.
Proof.
  intros Hr w. unfold extendTimeout. simpl.
  assert (Hround :
    (quiet (set_message_visibilityTimeout m
              (option_map (fun v => v * 2) (visibilityTimeout (fields m w)))) /\
     forall w0 w1 : World,
       quiet (log (Call (changeMessageVisibility (queueUrl this) (ReceiptHandle m)
                           (visibilityTimeout (fields m w0))))) /\
       runs H m
         (then_ (sqs_changeMessageVisibility (sqs this) (calls w1) (queueUrl this)
                   (ReceiptHandle m) (visibilityTimeout (fields m w0)))
                (task_extendTimeout_then m)) n b ret thr)).
  { split; [apply quiet_set_message_visibilityTimeout|]. intros w0 w1.
    split; [apply quiet_log_Call|].
    destruct (sqs_changeMessageVisibility _ _ _ _ _); simpl; auto;
      left; (split; [apply quiet_schedule || apply quiet_report_unhandled|done]). }
  destruct Hround as [Hq Hk].
  destruct (finishedProcessing (fields m w)) as [[|]|]; simpl; [done| |];
    left; (split; [exact Hq|]); intros w0 w1; left; apply Hk.
Qed.

Lemma runs_extend_if H m this n b ret thr :
  ret tt n b ->
  runs H m (if extendVisibilityTimeout this then extendTimeout this m else Ret tt)
       n b ret thr.
Proof.
  intros Hr. destruct (extendVisibilityTimeout this); [|exact Hr].
  by apply runs_extendTimeout.
Qed.

Lemma runs_executeHandler H m T this n b ret thr :
  (H \/ awaited T this m <> forever) ->
  ret tt n b -> (forall e, thr e n b) ->
  runs H m (_executeHandler T this m) (S n) b ret thr.
Proof.
  intros HR Hret Hthr. unfold _executeHandler, try_finally, clearTimeout.
  apply runs_bind, runs_try_catch, runs_try_catch. simpl.
  left. split; [apply quiet_set_finishedProcessing|]. intros w.
  left. split; [apply quiet_set_message_visibilityTimeout|].
  apply runs_bind, runs_extend_if. cbv beta.
  unfold awaited in HR.
  destruct (truthy_number (handleMessageTimeout this));
    match goal with |- context [await ?p] => destruct p as [|t []|t e] eqn:E end;
    simpl; auto;
    try (destruct HR as [?|HR]; [done|by destruct HR]);
    destruct (instanceof_TimeoutError e); simpl; left;
    (split; [apply quiet_set_finishedProcessing|apply Hthr]).
Qed.

Lemma runs_deleteMessage H m this n b ret thr :
  (H \/ forall h q r, sqs_deleteMessage (sqs this) h q r <> forever) ->
  ret tt n b -> (forall e, thr e n b) ->
  runs H m (_deleteMessage this m) (S n) b ret thr.
Proof.
  intros HR Hret Hthr. unfold _deleteMessage.
  apply runs_bind. left. split; [apply quiet_log_Debug|]. cbn [runs].
  apply runs_try_catch, runs_request_await.
  - destruct HR as [?|HR]; [by left|right]. intros h. apply HR.
  - by intros [].
  - intros e. apply Hthr.
Qed.

Lemma runs_release H m this n ret thr :
  (H \/ forall h q r v, sqs_changeMessageVisibility (sqs this) h q r v <> forever) ->
  (forall n', ret tt n' true) ->
  runs H m
    (if terminateVisibilityTimeout this
     then try_catch (_terminateVisabilityTimeout this m)
            (fun err => emit "error" (Some err) (Some m))
     else Ret tt) (S n) true ret thr.
Proof.
  intros HR Hret. destruct (terminateVisibilityTimeout this); [|apply Hret].
  apply runs_try_catch. unfold _terminateVisabilityTimeout.
  apply runs_request_await.
  - destruct HR as [?|HR]; [by left|right]. intros h. apply HR.
  - intros []. apply Hret.
  - intros e. apply runs_emit; [closing|apply Hret].
Qed.

(** A call of [_processMessage] emits [message_received]; what is left
    awaits at most three times, reports and is not rejected. *)
Lemma processMessage_tame (H : Prop) T this m :
  (H \/ responsive T this [m]) ->
  exists rest,
    _processMessage T this m = Put (log (Emit (received m))) rest /\
    tame H m rest 3 false.
Proof.
  intros HR. eexists. split; [reflexivity|]. unfold tame.
  assert (Hcatch : forall err n b,
    runs H m
      ((if String.eqb (err_name err) SQSError_name
        then emit "error" (Some err) (Some m)
        else if instanceof_TimeoutError err
             then emit "timeout_error" (Some err) (Some m)
             else emit "processing_error" (Some err) (Some m)) >>
       if terminateVisibilityTimeout this
       then try_catch (_terminateVisabilityTimeout this m)
              (fun err => emit "error" (Some err) (Some m))
       else Ret tt) (S n) b (fun _ _ b' => b' = true) (fun _ _ _ => False)).
  { intros err n b. apply runs_bind.
    assert (Hrel : runs H m
              (if terminateVisibilityTimeout this
               then try_catch (_terminateVisabilityTimeout this m)
                      (fun err => emit "error" (Some err) (Some m))
               else Ret tt) (S n) true (fun _ _ b' => b' = true)
              (fun _ _ _ => False)).
    { apply runs_release; [|done].
      destruct HR as [?|(_ & HR & _)]; [by left|by right]. }
    destruct (String.eqb _ _); [|destruct (instanceof_TimeoutError err)];
      (apply runs_emit; [closing|exact Hrel]). }
  apply runs_try_catch, runs_bind, runs_executeHandler.
  - destruct HR as [?|(_ & _ & HR)]; [by left|right]. apply HR. constructor.
  - apply runs_bind, runs_deleteMessage.
    + destruct HR as [?|(HR & _)]; [by left|by right].
    + apply runs_emit; [closing|done].
    + intros e. apply Hcatch.
  - intros e. apply Hcatch.
Qed.

(** One turn of code that [runs]. *)
Lemma runs_seg {A : Type} H m (p : Async A) n b ret thr :
  runs H m p n b ret thr ->
  forall w, exists evs,
    events (seg p w).2 = events w ++ evs /\
    Forall (closes m) evs /\
    match (seg p w).1 with
    | settled (inr a) => exists b', ret a n b' /\ (b' = true -> b = true \/ evs <> [])
    | settled (inl e) => exists b', thr e n b' /\ (b' = true -> b = true \/ evs <> [])
    | waiting k =>
        exists n' b', n = S n' /\ runs H m k n' b' ret thr /\
                      (b' = true -> b = true \/ evs <> [])
    | hung => H
    end.
Proof.
  revert n b.
  induction p as [A a|A e|A k IH|A g k IH|A k IH|A|A cs k IH]; intros n b Hp w;
    simpl in *.
  - exists []. rewrite app_nil_r. repeat split; eauto.
  - exists []. rewrite app_nil_r. repeat split; eauto.
  - apply (IH w ret n b (Hp w) w).
  - destruct Hp as [[Hq Hk]|(ev & He & Hc & Hk)].
    + destruct (IH ret n b Hk (g w)) as (evs & Hev & Hcl & Hpost).
      exists evs. rewrite Hev, Hq. auto.
    + destruct (IH ret n true Hk (g w)) as (evs & Hev & Hcl & Hpost).
      exists (ev :: evs). rewrite Hev, He, <- app_assoc. split; [done|].
      split; [by constructor|].
      destruct (seg k (g w)).1 as [[e|a]|k'|].
      * destruct Hpost as (b' & ? & ?). exists b'. split; [done|]. by right.
      * destruct Hpost as (b' & ? & ?). exists b'. split; [done|]. by right.
      * destruct Hpost as (n' & b' & ? & ? & ?). exists n', b'.
        repeat split; try done. by right.
      * done.
  - exists []. rewrite app_nil_r. repeat split; [done|].
    destruct n as [|n']; [done|]. exists n', b. auto.
  - exists []. rewrite app_nil_r. auto.
  - done.
Qed.

Lemma tame_seg H m (p : Async unit) n b :
  tame H m p n b ->
  forall w, exists evs,
    events (seg p w).2 = events w ++ evs /\
    Forall (closes m) evs /\
    match (seg p w).1 with
    | settled (inr _) => b = true \/ evs <> []
    | settled (inl _) => False
    | waiting k =>
        exists n' b', n = S n' /\ tame H m k n' b' /\
                      (b' = true -> b = true \/ evs <> [])
    | hung => H
    end.
Proof.
  intros Hp w. destruct (runs_seg H m p n b _ _ Hp w) as (evs & Hev & Hcl & Hpost).
  exists evs. split; [done|]. split; [done|].
  destruct (seg p w).1 as [[e|a]|k'|]; try done.
  - by destruct Hpost as (b' & ? & ?).
  - destruct Hpost as (b' & -> & Hb). by apply Hb.
Qed.

(** ** The pool of [Promise.all] *)

Lemma closes_Exists m (evs0 evs : list Event) (b : bool) :
  Forall (closes m) evs ->
  (b = true -> Exists (closes m) evs0) ->
  b = true \/ evs <> [] ->
  Exists (closes m) (evs0 ++ evs).
Proof.
  intros Hcl Hb [->|Hne]; rewrite Exists_app; [left; auto|right].
  destruct Hcl; [done|]. by constructor.
Qed.

Lemma thread_ok_mono H (evs evs' : list Event) m t :
  (forall ev, ev ∈ evs -> ev ∈ evs') ->
  thread_ok H evs m t -> thread_ok H evs' m t.
Proof.
  intros Hsub.
  assert (Hex : Exists (closes m) evs -> Exists (closes m) evs').
  { rewrite !Exists_exists. intros (ev & Hin & Hc). eauto. }
  destruct t as [[e|a]|k|]; simpl; auto.
  intros (n & b & Ht & Hb). exists n, b. auto.
Qed.

(** After a turn of a waiting call. *)
Lemma thread_ok_turn H evs0 m k w :
  thread_ok H evs0 m (waiting k) ->
  exists evs,
    events (seg k w).2 = events w ++ evs /\
    Forall (closes m) evs /\
    thread_ok H (evs0 ++ evs) m (seg k w).1.
Proof.
  intros (n & b & Ht & Hb).
  destruct (tame_seg H m k n b Ht w) as (evs & Hev & Hcl & Hpost).
  exists evs. split; [done|]. split; [done|].
  destruct (seg k w).1 as [[e|a]|k'|]; simpl; try done.
  - by apply (closes_Exists m evs0 evs b).
  - destruct Hpost as (n' & b' & _ & Ht' & Hb'). exists n', b'.
    split; [done|]. intros ->. apply (closes_Exists m evs0 evs b); auto.
Qed.

Lemma first_rejection_ok H evs msgs pool :
  Forall2 (thread_ok H evs) msgs pool -> first_rejection pool = None.
Proof.
  unfold first_rejection. intros HF.
  destruct (list_find _ pool) as [[i t]|] eqn:E; [|done]. simpl.
  apply list_find_Some in E as (Hi & Hrej & _).
  destruct (Forall2_lookup_r _ _ _ _ _ HF Hi) as (m & _ & Hok).
  destruct t as [[e|a]|k|]; simpl in *; try done; by destruct Hrej.
Qed.

Lemma all_settled_reported H evs msgs pool :
  Forall2 (thread_ok H evs) msgs pool ->
  forallb is_settled pool = true ->
  Forall (fun m => Exists (closes m) evs) msgs.
Proof.
  induction 1 as [|m t msgs pool Hok _ IH]; simpl; [done|].
  intros [Ht Hrest]%andb_prop. constructor; [|by apply IH].
  destruct t as [[e|a]|k|]; simpl in *; done.
Qed.

Lemma closes_closing_of msgs m evs :
  m ∈ msgs -> Forall (closes m) evs -> Forall (closing_of msgs) evs.
Proof.
  intros Hin HF. eapply Forall_impl; [exact HF|]. intros ev Hc. by exists m.
Qed.

Lemma closes_per_message msgs m evs :
  m ∈ msgs -> Forall (closes m) evs -> Forall (per_message msgs) evs.
Proof.
  intros Hin HF. eapply Forall_impl; [exact HF|]. intros ev Hc. exists m. auto.
Qed.

(** [join], whatever the schedule: it is not rejected, emits only closing
    events of the batch, and resolves only once every message has its
    closing event. *)
Lemma join_safe H msgs sched :
  forall pool w evs0,
    Forall2 (thread_ok H evs0) msgs pool ->
    exists evs,
      events (join sched pool w).2 = events w ++ evs /\
      Forall (closing_of msgs) evs /\
      match (join sched pool w).1 with
      | Resolved _ => Forall (fun m => Exists (closes m) (evs0 ++ evs)) msgs
      | Rejected _ => False
      | Pending => True
      end.
Proof.
  induction sched as [|i sched IH]; intros pool w evs0 HF; simpl;
    rewrite (first_rejection_ok H evs0 msgs pool HF);
    destruct (forallb is_settled pool) eqn:Hall; simpl.
  - exists []. rewrite !app_nil_r. repeat split; [done|].
    by apply (all_settled_reported H evs0 msgs pool).
  - exists []. rewrite !app_nil_r. by repeat split.
  - exists []. rewrite !app_nil_r. repeat split; [done|].
    by apply (all_settled_reported H evs0 msgs pool).
  - destruct (pool !! i) as [[r|k|]|] eqn:Hi; try by apply IH.
    destruct (Forall2_lookup_r _ _ _ _ _ HF Hi) as (m & Hm & Hok).
    destruct (thread_ok_turn H evs0 m k w Hok) as (evs1 & Hev1 & Hcl1 & Hok1).
    destruct (seg k w) as [t w'] eqn:Hseg. simpl in *.
    assert (HF' : Forall2 (thread_ok H (evs0 ++ evs1)) msgs (<[i:=t]> pool)).
    { rewrite <- (list_insert_id msgs i m Hm).
      apply Forall2_insert; [|done].
      eapply Forall2_impl; [exact HF|]. intros m' t'.
      apply thread_ok_mono. intros ev. rewrite elem_of_app. auto. }
    destruct (IH (<[i:=t]> pool) w' (evs0 ++ evs1) HF') as (evs2 & Hev2 & Hpm & Hres).
    exists (evs1 ++ evs2). rewrite Hev2, Hev1, <- app_assoc. split; [done|].
    split.
    + apply Forall_app. split; [|done].
      apply (closes_closing_of msgs m); [|done].
      by apply list_elem_of_lookup_2 in Hm.
    + destruct (join sched (<[i:=t]> pool) w').1; try done.
      by rewrite app_assoc.
Qed.

Lemma thread_live_tail sched i j t :
  thread_live (i :: sched) j t ->
  j <> i \/ is_waiting t = false ->
  thread_live sched j t.
Proof.
  destruct t as [[e|a]|k|]; simpl; try done.
  intros (n & m & b & Ht & Hn) [Hne|?]; [|done].
  exists n, m, b. split; [done|].
  by rewrite filter_cons, decide_False in Hn by done.
Qed.

(** [join] under a schedule that gives every call its turns: it does not
    stay pending. *)
Lemma join_live sched :
  forall pool w,
    (forall i t, pool !! i = Some t -> thread_live sched i t) ->
    (join sched pool w).1 <> Pending.
Proof.
  induction sched as [|i sched IH]; intros pool w Hlive; simpl;
    destruct (first_rejection pool); try done;
    destruct (forallb is_settled pool) eqn:Hall; try done.
  - exfalso. apply not_true_iff_false in Hall. apply Hall.
    apply forallb_forall. intros t Hin.
    apply list_elem_of_In, list_elem_of_lookup_1 in Hin as [j Hj].
    specialize (Hlive j t Hj). destruct t as [[e|a]|k|]; simpl in *; try done.
    destruct Hlive as (n & m & b & _ & Hn). simpl in Hn. lia.
  - destruct (pool !! i) as [[r|k|]|] eqn:Hi.
    + apply IH. intros j t Hj. apply (thread_live_tail sched i); [by apply Hlive|].
      destruct (decide (j = i)) as [->|]; [right|by left]. by simplify_eq.
    + destruct (Hlive i _ Hi) as (n & m & b & Ht & Hn).
      destruct (tame_seg False m k n b Ht w) as (evs & _ & _ & Hpost).
      destruct (seg k w) as [t w'] eqn:Hseg. simpl in *. apply IH.
      intros j t' Hj.
      destruct (decide (j = i)) as [->|Hne].
      * rewrite list_lookup_insert_eq in Hj by (by eapply lookup_lt_Some).
        simplify_eq. destruct t' as [[e|a]|k'|]; simpl; try done.
        destruct Hpost as (n' & b' & -> & Ht' & _). exists n', m, b'.
        split; [done|]. rewrite filter_cons, decide_True in Hn by done.
        simpl in Hn. lia.
      * rewrite list_lookup_insert_ne in Hj by done.
        apply (thread_live_tail sched i); [by apply Hlive|by left].
    + apply IH. intros j t Hj. apply (thread_live_tail sched i); [by apply Hlive|].
      destruct (decide (j = i)) as [->|]; [right|by left]. by simplify_eq.
    + apply IH. intros j t Hj. apply (thread_live_tail sched i); [by apply Hlive|].
      destruct (decide (j = i)) as [->|]; [|by left]. congruence.
Qed.

(** ** A batch *)

Lemma closes_name m ev (name : string) :
  closes m ev -> name ∉ closing_names -> ev_name ev <> name.
Proof. intros [_ Hin] Hn Heq. apply Hn. by rewrite <- Heq. Qed.

Lemma not_closing_received : "message_received" ∉ closing_names.
Proof. unfold closing_names. rewrite !not_elem_of_cons. repeat split; try done. apply not_elem_of_nil. Qed.

Lemma not_closing_response_processed : "response_processed" ∉ closing_names.
Proof. unfold closing_names. rewrite !not_elem_of_cons. repeat split; try done. apply not_elem_of_nil. Qed.

Lemma filter_name_closes m evs (name : string) :
  name ∉ closing_names -> Forall (closes m) evs ->
  filter (fun ev => ev_name ev = name) evs = [].
Proof.
  intros Hn. induction 1 as [|ev evs Hc _ IH]; [done|].
  rewrite filter_cons, decide_False; [done|]. by apply (closes_name m).
Qed.

Lemma filter_response_processed msgs evs :
  Forall (per_message msgs) evs ->
  filter (fun ev => ev_name ev = "response_processed") evs = [].
Proof.
  induction 1 as [|ev evs (m & _ & [->|Hc]) _ IH]; [done| |];
    rewrite filter_cons, decide_False; try done.
  apply (closes_name m); [done|apply not_closing_response_processed].
Qed.

Lemma filter_name_closing_of msgs evs (name : string) :
  name ∉ closing_names ->
  Forall (closing_of msgs) evs ->
  filter (fun ev => ev_name ev = name) evs = [].
Proof.
  intros Hn. induction 1 as [|ev evs (m & _ & Hc) _ IH]; [done|].
  rewrite filter_cons, decide_False; [done|]. by apply (closes_name m).
Qed.

Lemma responsive_cons T this m msgs :
  responsive T this (m :: msgs) ->
  responsive T this [m] /\ responsive T this msgs.
Proof.
  intros (Hd & Hv & Ha). split; (split; [done|split; [done|]]);
    intros m' Hin; apply Ha.
  - apply list_elem_of_singleton in Hin as ->. constructor.
  - by constructor.
Qed.

Lemma per_message_cons m msgs evs :
  Forall (per_message msgs) evs -> Forall (per_message (m :: msgs)) evs.
Proof.
  intros HF. eapply Forall_impl; [exact HF|].
  intros ev (m' & Hin & Hev). exists m'. split; [|done]. by constructor.
Qed.

(** Every call of the batch started: [message_received] has been emitted
    once for each message, in order, and every call is as [join] needs. *)
Lemma start_all_ok H T this msgs :
  (H \/ responsive T this msgs) ->
  forall w, exists evs,
    events (start_all (map (_processMessage T this) msgs) w).2 = events w ++ evs /\
    Forall (per_message msgs) evs /\
    filter (fun ev => ev_name ev = "message_received") evs = map received msgs /\
    Forall2 (thread_ok H evs) msgs
            (start_all (map (_processMessage T this) msgs) w).1.
Proof.
  induction msgs as [|m msgs IH]; intros HR w; cbn [map start_all].
  - exists []. rewrite app_nil_r. repeat split; constructor.
  - assert (HR1 : H \/ responsive T this [m]).
    { destruct HR as [?|HR]; [by left|right]. by apply responsive_cons in HR as []. }
    assert (HR2 : H \/ responsive T this msgs).
    { destruct HR as [?|HR]; [by left|right]. by apply responsive_cons in HR as []. }
    destruct (processMessage_tame H T this m HR1) as (rest & -> & Ht).
    cbn [seg].
    destruct (tame_seg H m rest 3 false Ht (log (Emit (received m)) w))
      as (evs1 & Hev1 & Hcl1 & Hpost).
    destruct (seg rest (log (Emit (received m)) w)) as [t w1] eqn:Hseg.
    destruct (IH HR2 w1) as (evs2 & Hev2 & Hpm2 & Hf2 & HF2).
    destruct (start_all (map (_processMessage T this) msgs) w1) as [ts w2] eqn:Hst.
    simpl in *. rewrite events_log in Hev1.
    exists (received m :: evs1 ++ evs2).
    rewrite Hev2, Hev1, <- !app_assoc. split; [done|].
    assert (Hin : m ∈ m :: msgs) by constructor.
    split; [|split].
    + constructor; [exists m; auto|]. apply Forall_app. split.
      * by apply (closes_per_message (m :: msgs) m).
      * by apply per_message_cons.
    + rewrite filter_cons, decide_True by done.
      rewrite filter_app, (filter_name_closes m evs1), Hf2;
        [done|apply not_closing_received|done].
    + constructor.
      * assert (Hok : thread_ok H evs1 m t).
        { destruct t as [[e|a]|k|]; simpl; try done.
          - destruct Hpost as [?|Hne]; [done|].
            destruct Hcl1; [done|by constructor].
          - destruct Hpost as (n' & b' & _ & Ht' & Hb'). exists n', b'.
            split; [done|]. intros ->. destruct Hb' as [?|Hne]; [done|done|].
            destruct Hcl1; [done|by constructor]. }
        revert Hok. apply thread_ok_mono. intros ev Hev.
        apply list_elem_of_further, elem_of_app. by left.
      * eapply Forall2_impl; [exact HF2|]. intros m' t'.
        apply thread_ok_mono. intros ev Hev.
        apply list_elem_of_further, elem_of_app. by right.
Qed.

(** With a responsive client, a started call is two awaits from its end. *)
Lemma start_all_live T this msgs :
  responsive T this msgs ->
  forall w i t,
    (start_all (map (_processMessage T this) msgs) w).1 !! i = Some t ->
    match t with
    | settled (inr _) => True
    | waiting k => exists n m b, tame False m k n b /\ (n <= 2)%nat
    | _ => False
    end.
Proof.
  induction msgs as [|m msgs IH]; intros HR w i t; cbn [map start_all]; [done|].
  apply responsive_cons in HR as [HR1 HR2].
  destruct (processMessage_tame False T this m (or_intror HR1)) as (rest & -> & Ht).
  cbn [seg].
  destruct (tame_seg False m rest 3 false Ht (log (Emit (received m)) w))
    as (evs1 & _ & _ & Hpost).
  destruct (seg rest (log (Emit (received m)) w)) as [t1 w1] eqn:Hseg.
  specialize (IH HR2 w1).
  destruct (start_all (map (_processMessage T this) msgs) w1) as [ts w2] eqn:Hst.
  simpl in *. destruct i as [|i]; simpl.
  - intros [= <-]. destruct t1 as [[e|a]|k|]; try done.
    destruct Hpost as (n' & b' & Hn & Ht' & _). exists n', m, b'.
    split; [done|]. lia.
  - apply IH.
Qed.

Lemma exec_debug sched d w :
  exec sched (debug d) w = (Resolved tt, log (Debug d) w).
Proof. reflexivity. Qed.

Lemma exec_handleSqsResponse_empty T this sched response w :
  hasMessages response = false ->
  exec sched (_handleSqsResponse T this (Some response)) w =
  (Resolved tt,
   schedule (called task_poll)
     (log (Emit (mkEvent "empty" None None))
        (log (Debug (dbg_response (Some response)))
           (log (Debug (dbg_text "Received SQS response")) w)))).
Proof. intros Hno. unfold _handleSqsResponse. simpl. rewrite Hno. reflexivity. Qed.

Lemma exec_handleSqsResponse_batch T this sched response msgs w :
  hasMessages response = true ->
  Messages response = Some msgs ->
  exec sched (_handleSqsResponse T this (Some response)) w =
  let w0 := log (Debug (dbg_response (Some response)))
              (log (Debug (dbg_text "Received SQS response")) w) in
  let '(pool, w1) := start_all (map (_processMessage T this) msgs) w0 in
  match join sched pool w1 with
  | (Resolved _, w2) =>
      (Resolved tt,
       schedule (called task_poll)
         (log (Emit (mkEvent "response_processed" None None)) w2))
  | (Rejected e, w2) => (Rejected e, w2)
  | (Pending, w2) => (Pending, w2)
  end.
Proof.
  intros Hyes Hm. unfold _handleSqsResponse. simpl. rewrite Hyes, Hm. simpl.
  destruct (start_all _ _) as [pool w1].
  destruct (join sched pool w1) as [[[]|e|] w2]; reflexivity.
Qed.

Lemma events_schedule s w : events (schedule s w) = events w.
Proof. reflexivity. Qed.

Lemma events_log_Debug d w : events (log (Debug d) w) = events w.
Proof. apply quiet_log_Debug. Qed.

Lemma events_log_Emit ev w : events (log (Emit ev) w) = events w ++ [ev].
Proof. apply events_log. Qed.

(** A batch without messages makes [_handleSqsResponse] emit [empty],
    nothing else, and schedule the next poll.  A batch with messages makes
    it emit [message_received] once for each message, in order; whatever
    becomes of each message it is not rejected; it emits
    [response_processed] once, at the end, after every message has had its
    closing event, and then schedules the next poll; until then it emits
    none.  It gets there whenever the client answers, the handlers settle
    or have a deadline, and the schedule gives each call three turns. *)
Lemma handleSqsResponse_events T this sched response w :
  (hasMessages response = false ->
   exists w',
     exec sched (_handleSqsResponse T this (Some response)) w = (Resolved tt, w') /\
     events w' = events w ++ [mkEvent "empty" None None] /\
     agenda w' = agenda w ++ [called task_poll]) /\
  (forall msgs,
     hasMessages response = true -> Messages response = Some msgs ->
     exists r w' evs,
       exec sched (_handleSqsResponse T this (Some response)) w = (r, w') /\
       events w' = events w ++ evs /\
       filter (fun ev => ev_name ev = "message_received") evs = map received msgs /\
       (forall e, r <> Rejected e) /\
       (r = Pending ->
        filter (fun ev => ev_name ev = "response_processed") evs = []) /\
       (r = Resolved tt ->
        exists evs' a,
          evs = evs' ++ [mkEvent "response_processed" None None] /\
          filter (fun ev => ev_name ev = "response_processed") evs' = [] /\
          Forall (fun m => Exists (closes m) evs') msgs /\
          agenda w' = a ++ [called task_poll]) /\
       (responsive T this msgs ->
        (forall i, (i < length msgs)%nat ->
                   (3 <= length (filter (fun j => j = i) sched))%nat) ->
        r = Resolved tt)).
Proof.
  split.
  - intros Hno. rewrite (exec_handleSqsResponse_empty _ _ _ _ _ Hno).
    eexists. split; [reflexivity|]. split; [|reflexivity].
    by rewrite events_schedule, events_log_Emit, !events_log_Debug.
  - intros msgs Hyes Hm.
    rewrite (exec_handleSqsResponse_batch _ _ _ _ _ _ Hyes Hm). cbv zeta.
    set (w0 := log (Debug (dbg_response (Some response))) _).
    assert (Hw0 : events w0 = events w) by (unfold w0; by rewrite !events_log_Debug).
    destruct (start_all_ok True T this msgs (or_introl I) w0)
      as (evs1 & Hev1 & Hpm1 & Hf1 & HF1).
    pose proof (start_all_live T this msgs) as Hlive.
    destruct (start_all (map (_processMessage T this) msgs) w0) as [pool w1] eqn:Hst.
    simpl in Hev1, HF1.
    destruct (join_safe True msgs sched pool w1 evs1 HF1)
      as (evs2 & Hev2 & Hcl2 & Hres).
    pose proof (join_live sched pool w1) as Hjl.
    destruct (join sched pool w1) as [r2 w2] eqn:Hj. simpl in Hev2, Hres, Hjl.
    assert (Hf2 : forall name : string, name ∉ closing_names ->
               filter (fun ev => ev_name ev = name) evs2 = []).
    { intros name Hn. by apply (filter_name_closing_of msgs). }
    assert (Hgo : responsive T this msgs ->
              (forall i, (i < length msgs)%nat ->
                         (3 <= length (filter (fun j => j = i) sched))%nat) ->
              r2 <> Pending).
    { intros HR Hturns. apply Hjl. intros i t Hi.
      specialize (Hlive HR w0 i t). rewrite Hst in Hlive. specialize (Hlive Hi).
      assert (Hlt : (i < length msgs)%nat).
      { rewrite (Forall2_length _ _ _ HF1). by eapply lookup_lt_Some. }
      specialize (Hturns i Hlt).
      destruct t as [[e|a]|k|]; simpl; try done.
      destruct Hlive as (n & m & b & Ht & Hn). exists n, m, b. split; [done|lia]. }
    destruct r2 as [[]|e|]; [| done |].
    + exists (Resolved tt),
        (schedule (called task_poll)
           (log (Emit (mkEvent "response_processed" None None)) w2)),
        ((evs1 ++ evs2) ++ [mkEvent "response_processed" None None]).
      split; [reflexivity|].
      split; [by rewrite events_schedule, events_log_Emit, Hev2, Hev1, Hw0, <- !app_assoc|].
      split; [|split; [done|split; [done|split; [|done]]]].
      * rewrite !filter_app, Hf1, (Hf2 _ not_closing_received).
        rewrite filter_cons, decide_False by done. by rewrite !app_nil_r.
      * intros _. exists (evs1 ++ evs2), (agenda w2). split; [done|].
        split; [|split; [done|reflexivity]].
        rewrite filter_app, (filter_response_processed msgs evs1 Hpm1).
        by rewrite (Hf2 _ not_closing_response_processed).
    + exists Pending, w2, (evs1 ++ evs2).
      split; [reflexivity|].
      split; [by rewrite Hev2, Hev1, Hw0, <- !app_assoc|].
      split; [|split; [done|split; [|split; [done|]]]].
      * rewrite !filter_app, Hf1, (Hf2 _ not_closing_received). by rewrite app_nil_r.
      * intros _. rewrite filter_app, (filter_response_processed msgs evs1 Hpm1).
        by rewrite (Hf2 _ not_closing_response_processed).
      * intros HR Hturns. by destruct (Hgo HR Hturns).
Qed.

Lemma handleSqsResponse_events_sample :
  let batch := mkResponse (Some [Sample.first; Sample.second]) in
  let nothing := mkResponse None in
  hasMessages nothing = false /\
  hasMessages batch = true /\
  responsive Sample.text Sample.consumer [Sample.first; Sample.second] /\
  (exists w',
     exec [] (_handleSqsResponse Sample.text Sample.consumer (Some nothing))
          Sample.world = (Resolved tt, w') /\
     events w' = [mkEvent "empty" None None] /\
     agenda w' = [called task_poll]) /\
  (exists w' evs,
     exec [0; 1; 0; 1; 0; 1]%nat
          (_handleSqsResponse Sample.text Sample.consumer (Some batch))
          Sample.world = (Resolved tt, w') /\
     events w' = evs ++ [mkEvent "response_processed" None None] /\
     filter (fun ev => ev_name ev = "message_received") evs =
       [received Sample.first; received Sample.second] /\
     filter (fun ev => ev_name ev = "response_processed") evs = []).
Proof.
  intros batch nothing.
  assert (HR : responsive Sample.text Sample.consumer [Sample.first; Sample.second]).
  { split; [|split]; try discriminate.
    intros m _. unfold awaited. simpl. unfold Sample.handler.
    destruct (Nat.eqb (addr m) 1); discriminate. }
  split; [reflexivity|]. split; [reflexivity|]. split; [exact HR|]. split.
  - destruct (handleSqsResponse_events Sample.text Sample.consumer [] nothing
                Sample.world) as [H _].
    exact (H eq_refl).
  - destruct (handleSqsResponse_events Sample.text Sample.consumer
                [0; 1; 0; 1; 0; 1]%nat batch Sample.world) as [_ H].
    destruct (H [Sample.first; Sample.second] eq_refl eq_refl)
      as (r & w' & evs & He & Hev & Hrec & _ & _ & Hres & Hgo).
    assert (Hr : r = Resolved tt).
    { apply Hgo; [exact HR|]. intros [|[|i]] Hi; simpl in *; lia. }
    subst r. destruct (Hres eq_refl) as (evs' & a & -> & Hnone & _ & _).
    exists w', evs'. split; [exact He|]. split; [exact Hev|]. split; [|exact Hnone].
    rewrite filter_app, filter_cons, decide_False in Hrec by done.
    by rewrite app_nil_r in Hrec.
Defined.

(** ** The poll loop *)

Lemma isAuthenticationError_toSQSError e text :
  isAuthenticationError (toSQSError e text) = isAuthenticationError e.
Proof. reflexivity. Qed.

Lemma exec_get_world sched w : exec sched get_world w = (Resolved w, w).
Proof. reflexivity. Qed.

Lemma exec_receiveMessage this sched params w :
  exec sched (_receiveMessage this params) w =
  (match sqs_receiveMessage (sqs this) (calls w) params with
   | forever => Pending
   | fulfilled _ response => Resolved response
   | rejected _ e =>
       Rejected (toSQSError e ("SQS receive message failed: " +:+ err_message e))
   end, log (Call (receiveMessage params)) w).
Proof.
  unfold _receiveMessage. rewrite exec_try_catch, exec_request_await.
  destruct (sqs_receiveMessage _ _ _); reflexivity.
Qed.

(** C1: when the receive request fails, [_poll] emits [error] with the
    [SQSError] made of the failure; it sets a timer for the next poll,
    [authenticationErrorTimeout] milliseconds ahead, when the failure has
    status 403 or code CredentialsError, and schedules nothing otherwise. *)
Theorem poll_receive_failure this sched w t e :
  this_stopped w = false ->
  sqs_receiveMessage (sqs this) (calls w) (receive_params this w) = rejected t e ->
  let err := toSQSError e ("SQS receive message failed: " +:+ err_message e) in
  exists w',
    exec sched (_poll this) w = (Resolved tt, w') /\
    events w' = events w ++ [mkEvent "error" (Some err) None] /\
    this_stopped w' = false /\
    agenda w' =
      agenda w ++
      (if isAuthenticationError e
       then [timer task_poll (Some (authenticationErrorTimeout this))]
       else []).
Proof.
  intros Hrun Hfail err. unfold _poll.
  rewrite exec_bind, exec_get_world, Hrun.
  rewrite exec_bind, exec_debug, exec_try_catch.
  rewrite exec_bind, exec_get_world. cbv zeta.
  rewrite exec_bind, exec_receiveMessage.
  change (mkReceiveParams _ _ _ _ _ _) with (receive_params this w).
  rewrite calls_log_Debug, Hfail.
  rewrite exec_bind, exec_emit, isAuthenticationError_toSQSError. fold err.
  destruct (isAuthenticationError e); simpl;
    (eexists; split; [reflexivity|]);
    (split; [|split; [exact Hrun|by rewrite ?app_nil_r]]);
    rewrite ?events_schedule, ?events_log_Debug, events_log_Emit;
    unfold events, log; simpl; by rewrite !events_of_app, !app_nil_r.
Qed.

Lemma poll_receive_failure_unavailable :
  let this :=
    Sample.consumer_with None false false
      (Sample.client_receive_fails Sample.unavailable) in
  this_stopped Sample.world = false /\
  isAuthenticationError Sample.unavailable = false /\
  exists w',
    exec [] (_poll this) Sample.world = (Resolved tt, w') /\
    events w' =
      [mkEvent "error"
         (Some (toSQSError Sample.unavailable
                  "SQS receive message failed: try later")) None] /\
    this_stopped w' = false /\
    agenda w' = [] /\
    exec [] start w' = (Resolved tt, w').
Proof.
  intros this. split; [reflexivity|]. split; [reflexivity|].
  destruct (poll_receive_failure this [] Sample.world 5 Sample.unavailable
              eq_refl eq_refl) as (w' & He & Hev & Hs & Ha).
  exists w'. split; [exact He|]. split; [exact Hev|]. split; [exact Hs|].
  split; [exact Ha|]. unfold start. simpl. by rewrite Hs.
Defined.

(** A forbidden request backs the loop off. *)
Example poll_receive_failure_denied :
  let this :=
    Sample.consumer_with None false false
      (Sample.client_receive_fails Sample.denied) in
  agenda (exec [] (_poll this) Sample.world).2 = [timer task_poll (Some 10000)].
Proof. reflexivity. Qed.

(** A stopped consumer emits [stopped] and polls no more. *)
Lemma poll_stopped this sched w :
  this_stopped w = true ->
  exec sched (_poll this) w = (Resolved tt, log (Emit (mkEvent "stopped" None None)) w).
Proof.
  intros Hs. unfold _poll. rewrite exec_bind, exec_get_world, Hs. reflexivity.
Qed.

(** When both requests succeed, [_poll] emits nothing, keeps the queue's
    visibility timeout and hands the response to [_handleSqsResponse]. *)
Lemma poll_hands_over this sched w t response t' v :
  this_stopped w = false ->
  sqs_receiveMessage (sqs this) (calls w) (receive_params this w)
  = fulfilled t response ->
  sqs_getQueueAttributes (sqs this)
    (calls w ++ [receiveMessage (receive_params this w)]) (queueUrl this)
    ["VisibilityTimeout"] = fulfilled t' v ->
  exists w',
    exec sched (_poll this) w = (Resolved tt, w') /\
    events w' = events w /\
    this_visibilityTimeout w' = v /\
    agenda w' = agenda w ++ [called (task_handleSqsResponse response)].
Proof.
  intros Hrun Hrec Hatt. unfold _poll.
  rewrite exec_bind, exec_get_world, Hrun.
  rewrite exec_bind, exec_debug, exec_try_catch.
  rewrite exec_bind, exec_get_world. cbv zeta.
  rewrite exec_bind, exec_receiveMessage.
  change (mkReceiveParams _ _ _ _ _ _) with (receive_params this w).
  rewrite calls_log_Debug, Hrec. simpl exec.
  rewrite calls_log_Call, calls_log_Debug, Hatt. simpl.
  eexists. split; [reflexivity|]. split; [|split; reflexivity].
  unfold events, log; simpl. by rewrite !events_of_app, !app_nil_r.
Qed.

(** A poll cycle whose two requests succeed is a run of
    [_handleSqsResponse] on the response received. *)
Lemma cycle_runs_handler T this sched w t response t' v :
  this_stopped w = false ->
  sqs_receiveMessage (sqs this) (calls w) (receive_params this w)
  = fulfilled t response ->
  sqs_getQueueAttributes (sqs this)
    (calls w ++ [receiveMessage (receive_params this w)]) (queueUrl this)
    ["VisibilityTimeout"] = fulfilled t' v ->
  let handed :=
    set_visibilityTimeout v
      (log (Call (getQueueAttributes (queueUrl this) ["VisibilityTimeout"]))
         (log (Call (receiveMessage (receive_params this w)))
            (log (Debug (dbg_text "Polling for messages")) w))) in
  let run := exec sched (_handleSqsResponse T this response) handed in
  cycle T this sched w =
  match run.1 with
  | Rejected e => report_unhandled e run.2
  | _ => run.2
  end.
Proof.
  intros Hrun Hrec Hatt handed run. unfold cycle, _poll.
  rewrite exec_bind, exec_get_world, Hrun.
  rewrite exec_bind, exec_debug, exec_try_catch.
  rewrite exec_bind, exec_get_world. cbv zeta.
  rewrite exec_bind, exec_receiveMessage.
  change (mkReceiveParams _ _ _ _ _ _) with (receive_params this w).
  rewrite calls_log_Debug, Hrec. simpl exec.
  rewrite calls_log_Call, calls_log_Debug, Hatt. simpl fst. simpl snd.
  unfold turn. simpl agenda.
  rewrite lookup_app_r, Nat.sub_diag by lia. simpl lookup.
  rewrite delete_middle, app_nil_r. simpl body.
  change (set_agenda (agenda w) _) with handed. fold run.
  by destruct run as [[[]|e|] w'].
Qed.

(** C4: a poll cycle of a running consumer that receives a batch and is
    then told the queue's attributes.  When the batch has no messages the
    cycle emits [empty], nothing else, and a poll is called next.  When it
    has messages the cycle emits [message_received] once for each, in
    order; [response_processed] is emitted once, last of all, after every
    message has had its closing event whatever that event is, and a poll is
    called next; while a message has not settled it is not emitted.  It is
    emitted whenever the client answers, the handlers settle or have a
    deadline, and the schedule gives each call three turns. *)
Theorem poll_cycle_events T this sched w t response t' v :
  this_stopped w = false ->
  sqs_receiveMessage (sqs this) (calls w) (receive_params this w)
  = fulfilled t (Some response) ->
  sqs_getQueueAttributes (sqs this)
    (calls w ++ [receiveMessage (receive_params this w)]) (queueUrl this)
    ["VisibilityTimeout"] = fulfilled t' v ->
  let w' := cycle T this sched w in
  (hasMessages response = false ->
   events w' = events w ++ [mkEvent "empty" None None] /\
   agenda w' = agenda w ++ [called task_poll]) /\
  (forall msgs,
     hasMessages response = true -> Messages response = Some msgs ->
     let done_with evs :=
       exists evs' a,
         evs = evs' ++ [mkEvent "response_processed" None None] /\
         filter (fun ev => ev_name ev = "response_processed") evs' = [] /\
         Forall (fun m => Exists (closes m) evs') msgs /\
         agenda w' = a ++ [called task_poll] in
     exists evs,
       events w' = events w ++ evs /\
       filter (fun ev => ev_name ev = "message_received") evs = map received msgs /\
       (filter (fun ev => ev_name ev = "response_processed") evs = [] \/
        done_with evs) /\
       (responsive T this msgs ->
        (forall i, (i < length msgs)%nat ->
                   (3 <= length (filter (fun j => j = i) sched))%nat) ->
        done_with evs)).
Proof.
  intros Hrun Hrec Hatt w'. subst w'.
  rewrite (cycle_runs_handler T this sched w t (Some response) t' v Hrun Hrec Hatt).
  cbv zeta. set (handed := set_visibilityTimeout v _).
  assert (Hev0 : events handed = events w).
  { unfold handed, events, set_visibilityTimeout, log; simpl.
    by rewrite !events_of_app, !app_nil_r. }
  assert (Hag0 : agenda handed = agenda w) by reflexivity.
  destruct (handleSqsResponse_events T this sched response handed)
    as [Hempty Hbatch].
  split.
  - intros Hno. destruct (Hempty Hno) as (w1 & -> & Hev & Hag). simpl.
    by rewrite Hev, Hag, Hev0, Hag0.
  - intros msgs Hyes Hm.
    destruct (Hbatch msgs Hyes Hm)
      as (r & w1 & evs & -> & Hev & Hrecv & Hnr & Hpend & Hres & Hgo).
    assert (Hw1 : match (r, w1).1 with
                  | Rejected e => report_unhandled e (r, w1).2
                  | _ => (r, w1).2
                  end = w1).
    { destruct r as [[]|e|]; [done| by destruct (Hnr e) |done]. }
    rewrite Hw1. exists evs.
    split; [by rewrite Hev, Hev0|]. split; [exact Hrecv|]. split.
    + destruct r as [[]|e|]; [right; by apply Hres| by destruct (Hnr e) |left; by apply Hpend].
    + intros HR Hturns. apply Hres. by apply Hgo.
Qed.

Lemma poll_cycle_events_witness :
  let batch := mkResponse (Some [Sample.first; Sample.second]) in
  let busy := cycle Sample.text Sample.consumer [0; 1; 0; 1; 0; 1]%nat Sample.world in
  let idle := cycle Sample.text Scenario.idle [] Sample.world in
  hasMessages batch = true /\
  responsive Sample.text Sample.consumer [Sample.first; Sample.second] /\
  (events idle = [mkEvent "empty" None None] /\
   agenda idle = [called task_poll]) /\
  (exists evs evs' a,
     events busy = evs /\
     filter (fun ev => ev_name ev = "message_received") evs =
       [received Sample.first; received Sample.second] /\
     evs = evs' ++ [mkEvent "response_processed" None None] /\
     filter (fun ev => ev_name ev = "response_processed") evs' = [] /\
     Forall (fun m => Exists (closes m) evs') [Sample.first; Sample.second] /\
     agenda busy = a ++ [called task_poll]).
Proof.
  intros batch busy idle.
  assert (HR : responsive Sample.text Sample.consumer [Sample.first; Sample.second]).
  { split; [|split]; try discriminate.
    intros m _. unfold awaited. simpl. unfold Sample.handler.
    destruct (Nat.eqb (addr m) 1); discriminate. }
  split; [reflexivity|]. split; [exact HR|]. split.
  - destruct (poll_cycle_events Sample.text Scenario.idle [] Sample.world 5
                (mkResponse None) 5 (Some 30) eq_refl eq_refl eq_refl) as [H _].
    exact (H eq_refl).
  - destruct (poll_cycle_events Sample.text Sample.consumer
                [0; 1; 0; 1; 0; 1]%nat Sample.world 5 batch 5 (Some 30)
                eq_refl eq_refl eq_refl) as [_ H].
    destruct (H [Sample.first; Sample.second] eq_refl eq_refl)
      as (evs & Hev & Hrecv & _ & Hgo).
    destruct Hgo as (evs' & a & Hlast & Hnone & Hclosed & Hag).
    { exact HR. }
    { intros [|[|i]] Hi; simpl in *; lia. }
    exists evs, evs', a. by repeat split.
Defined.

(** A cycle that receives a batch and is then refused the queue's
    attributes emits [error] and nothing else: no [message_received] for
    the two messages of a batch, no [empty] for a batch without messages,
    no [response_processed]. *)
Lemma poll_cycle_batch_dropped :
  let batch := mkResponse (Some [Sample.first; Sample.second]) in
  let busy :=
    Sample.consumer_with None false false Scenario.client_attributes_fail in
  let idle :=
    Sample.consumer_with None false false
      (mkSQS (sqs_receiveMessage Scenario.client_idle)
             (sqs_getQueueAttributes Scenario.client_attributes_fail)
             (sqs_deleteMessage Sample.client)
             (sqs_changeMessageVisibility Sample.client)) in
  let w1 := cycle Sample.text busy [0; 1; 0; 1; 0; 1]%nat Sample.world in
  let w2 := cycle Sample.text idle [] Sample.world in
  this_stopped Sample.world = false /\
  (sqs_receiveMessage (sqs busy) (calls Sample.world)
     (receive_params busy Sample.world) = fulfilled 5 (Some batch) /\
   hasMessages batch = true /\
   calls w1 = [receiveMessage (receive_params busy Sample.world);
               getQueueAttributes "queue" ["VisibilityTimeout"]] /\
   events w1 = [mkEvent "error" (Some Sample.unavailable) None] /\
   filter (fun ev => ev_name ev = "message_received") (events w1)
   <> map received [Sample.first; Sample.second]) /\
  (sqs_receiveMessage (sqs idle) (calls Sample.world)
     (receive_params idle Sample.world) = fulfilled 5 (Some (mkResponse None)) /\
   hasMessages (mkResponse None) = false /\
   events w2 = [mkEvent "error" (Some Sample.unavailable) None] /\
   events w2 <> events Sample.world ++ [mkEvent "empty" None None]).
Proof.
  intros batch busy idle w1 w2.
  split; [reflexivity|]. split.
  - split; [reflexivity|]. split; [reflexivity|]. split; [reflexivity|].
    split; [reflexivity|]. vm_compute. discriminate.
  - split; [reflexivity|]. split; [reflexivity|]. split; [reflexivity|].
    vm_compute. discriminate.
Qed.

(** ** Extension of the visibility timeout *)

(** A round on an unfinished message doubles the message's timeout, asks
    the queue for the doubled value, and, when the queue agrees, has the
    next round set [450] times the doubled value ahead. *)
Lemma extension_round_reschedules T this m sched w t :
  finishedProcessing (fields m w) <> Some true ->
  let v := option_map (fun v => v * 2) (visibilityTimeout (fields m w)) in
  sqs_changeMessageVisibility (sqs this) (calls w) (queueUrl this)
    (ReceiptHandle m) v = fulfilled t tt ->
  let w1 := (exec sched (extendTimeout this m) w).2 in
  visibilityTimeout (fields m w1) = v /\
  trace w1 = trace w ++ [Call (changeMessageVisibility (queueUrl this)
                                 (ReceiptHandle m) v)] /\
  agenda w1 = agenda w ++ [on_fulfilled (task_extendTimeout_then m) t] /\
  agenda (turn T this sched (length (agenda w)) w1) =
    agenda w ++ [timer (task_extendTimeout m) (option_map (fun v => v * 450) v)].
Proof.
  intros Hflag v Hok w1. unfold w1.
  rewrite (exec_extendTimeout_round this m sched w Hflag). simpl.
  split; [by rewrite fields_extension_round|].
  split; [apply trace_extension_round|].
  assert (Hag : agenda (extension_round this m w)
                = agenda w ++ [on_fulfilled (task_extendTimeout_then m) t]).
  { unfold extension_round. fold v. by rewrite Hok. }
  split; [exact Hag|].
  unfold turn. rewrite Hag.
  rewrite lookup_app_r, Nat.sub_diag by lia. simpl.
  rewrite delete_middle, app_nil_r.
  unfold extension_round. fold v. rewrite Hok. simpl.
  change (fields m (log ?a (set_agenda ?l (schedule ?s (log ?c ?x)))))
    with (fields m x).
  by rewrite fields_set_message_visibilityTimeout.
Qed.

(** Once the flag is set, a round does nothing. *)
Lemma extension_stops_when_finished this m sched w :
  finishedProcessing (fields m w) = Some true ->
  exec sched (extendTimeout this m) w = (Resolved tt, w).
Proof. apply exec_extendTimeout_finished. Qed.

(** Nor does the work a round leaves behind: on a finished message the
    callback only sets a timer, and the round the timer starts does
    nothing. *)
Lemma extension_idle_when_finished T this m sched w i s :
  finishedProcessing (fields m w) = Some true ->
  agenda w !! i = Some s ->
  task_of s = task_extendTimeout m \/ task_of s = task_extendTimeout_then m ->
  calls (turn T this sched i w) = calls w /\
  fields m (turn T this sched i w) = fields m w.
Proof.
  intros Hfin Hi Hs. unfold turn. rewrite Hi.
  destruct Hs as [-> | ->]; simpl body.
  - rewrite exec_extendTimeout_finished by exact Hfin. by split.
  - rewrite exec_extendTimeout_then. split; [|reflexivity].
    unfold calls, schedule, log. simpl. rewrite calls_of_app. apply app_nil_r.
Qed.

(** A failure of the handler sets the flag. *)
Lemma executeHandler_failure_finishes T this m sched w t e :
  awaited T this m = rejected t e ->
  (exec sched (_executeHandler T this m) w).1 = Rejected (rethrown this e) /\
  finishedProcessing (fields m (exec sched (_executeHandler T this m) w).2)
  = Some true.
Proof.
  intros Hw. rewrite exec_executeHandler, Hw. simpl.
  by rewrite fields_set_finishedProcessing.
Qed.

(** When the handler resolves, the flag is left false, and a round run
    in that state is a full round. *)
Lemma executeHandler_success_unfinished T this m sched w t :
  awaited T this m = fulfilled t tt ->
  let run := exec sched (_executeHandler T this m) w in
  run.1 = Resolved tt /\
  finishedProcessing (fields m run.2) = Some false /\
  exec sched (extendTimeout this m) run.2
  = (Resolved tt, extension_round this m run.2).
Proof.
  intros Hw run. unfold run. rewrite exec_executeHandler, Hw. simpl.
  split; [done|]. split; [apply fields_entered|].
  apply exec_extendTimeout_round. by rewrite fields_entered.
Qed.

Lemma fields_recovered this m err w :
  fields m (recovered this m err w) = fields m w.
Proof.
  unfold recovered. destruct (terminateVisibilityTimeout this); [|reflexivity].
  destruct (release_promise this m _); reflexivity.
Qed.

(** C2: the flag is not set when the handler resolves.  After
    [_processMessage] on a message whose handler has resolved,
    [finishedProcessing] is false, and a round of [extendTimeout] started
    then asks the queue once more, for twice the message's timeout. *)
Theorem success_leaves_unfinished T this m sched w t :
  awaited T this m = fulfilled t tt ->
  let run := exec sched (_processMessage T this m) w in
  (forall e, run.1 <> Rejected e) /\
  finishedProcessing (fields m run.2) = Some false /\
  forall sched',
    let round := exec sched' (extendTimeout this m) run.2 in
    calls round.2 =
      calls run.2 ++
      [changeMessageVisibility (queueUrl this) (ReceiptHandle m)
         (option_map (fun v => v * 2) (visibilityTimeout (fields m run.2)))] /\
    visibilityTimeout (fields m round.2) =
      option_map (fun v => v * 2) (visibilityTimeout (fields m run.2)).
Proof.
  intros Hw run.
  split; [intros e; apply processMessage_never_rejected|].
  assert (Hflag : finishedProcessing (fields m run.2) = Some false).
  { unfold run. rewrite exec_processMessage. fold (attempt T this m).
    rewrite exec_attempt, Hw.
    destruct (sqs_deleteMessage _ _ _ _) as [|t' []|t' e]; simpl;
      rewrite ?fields_recovered; apply fields_entered. }
  split; [exact Hflag|]. intros sched' round. unfold round.
  rewrite exec_extendTimeout_round by (rewrite Hflag; discriminate). simpl.
  split; [|by rewrite fields_extension_round].
  unfold calls. rewrite trace_extension_round. by rewrite calls_of_app.
Qed.

(** With extension on and a handler that resolves, the message is
    processed and deleted with the flag still false; the callback of the
    first round sets a timer, and when it fires a further round asks the
    queue for 120 seconds. *)
Lemma extension_outlives_success :
  let this := Sample.consumer_with None false true Sample.client in
  let run := exec [] (_processMessage Sample.text this Sample.first) Sample.world in
  let w2 := turn Sample.text this [] 0 run.2 in
  let w3 := turn Sample.text this [] 0 w2 in
  awaited Sample.text this Sample.first = fulfilled 10 tt /\
  finishedProcessing (fields Sample.first run.2) = Some false /\
  run.1 = Resolved tt /\
  events run.2 = [received Sample.first; processed Sample.first] /\
  calls run.2 = [changeMessageVisibility "queue" "receipt-1" (Some 60);
                 deleteMessage "queue" "receipt-1"] /\
  agenda run.2 = [on_fulfilled (task_extendTimeout_then Sample.first) 5] /\
  agenda w2 = [timer (task_extendTimeout Sample.first) (Some 27000)] /\
  calls w3 = calls run.2
               ++ [changeMessageVisibility "queue" "receipt-1" (Some 120)] /\
  visibilityTimeout (fields Sample.first w3) = Some 120.
Proof.
  intros this run w2 w3. split; [reflexivity|]. split.
  - exact (proj1 (proj2 (success_leaves_unfinished Sample.text this Sample.first
                           [] Sample.world 10 eq_refl))).
  - vm_compute. repeat split; reflexivity.
Defined.

(** C9: a failed extension request is not seen.  A round on an unfinished
    message doubles the message's timeout and asks the queue for the
    doubled value; when the queue rejects the request, nothing is passed to
    [debug], no next round is set, and the rejection is left without
    handler. *)
Theorem extension_failure_unobserved this m sched w t e :
  finishedProcessing (fields m w) <> Some true ->
  let v := option_map (fun v => v * 2) (visibilityTimeout (fields m w)) in
  sqs_changeMessageVisibility (sqs this) (calls w) (queueUrl this)
    (ReceiptHandle m) v = rejected t e ->
  let run := exec sched (extendTimeout this m) w in
  run.1 = Resolved tt /\
  visibilityTimeout (fields m run.2) = v /\
  trace run.2 =
    trace w ++ [Call (changeMessageVisibility (queueUrl this) (ReceiptHandle m) v)] /\
  agenda run.2 = agenda w /\
  unhandled run.2 = unhandled w ++ [e].
Proof.
  intros Hflag v Hfail run. unfold run.
  rewrite (exec_extendTimeout_round this m sched w Hflag). simpl.
  split; [done|]. split; [by rewrite fields_extension_round|].
  split; [apply trace_extension_round|].
  unfold extension_round. fold v. rewrite Hfail. by split.
Qed.

(** The same round against a queue that rejects and one that agrees: only
    the second has its answer passed to [debug] and the next round set. *)
Lemma extension_failure_unobserved_witness :
  let w0 := set_fields Sample.first (mkProcessing (Some false) (Some 30))
              Sample.world in
  let failing := Sample.consumer_with None false true Sample.client_visibility_fails in
  let fine := Sample.consumer_with None false true Sample.client in
  let bad := exec [] (extendTimeout failing Sample.first) w0 in
  let good := exec [] (extendTimeout fine Sample.first) w0 in
  finishedProcessing (fields Sample.first w0) <> Some true /\
  (bad.1 = Resolved tt /\
   visibilityTimeout (fields Sample.first bad.2) = Some 60 /\
   trace bad.2 = [Call (changeMessageVisibility "queue" "receipt-1" (Some 60))] /\
   agenda bad.2 = [] /\
   unhandled bad.2 = [Sample.unavailable]) /\
  trace good.2 = [Call (changeMessageVisibility "queue" "receipt-1" (Some 60))] /\
  agenda good.2 = [on_fulfilled (task_extendTimeout_then Sample.first) 5] /\
  trace (turn Sample.text fine [] 0 good.2) =
    [Call (changeMessageVisibility "queue" "receipt-1" (Some 60));
     Debug dbg_data] /\
  agenda (turn Sample.text fine [] 0 good.2) =
    [timer (task_extendTimeout Sample.first) (Some 27000)].
Proof.
  intros w0 failing fine bad good.
  assert (Hflag : finishedProcessing (fields Sample.first w0) <> Some true)
    by (vm_compute; discriminate).
  split; [exact Hflag|]. split.
  - exact (extension_failure_unobserved failing Sample.first [] w0 5
             Sample.unavailable Hflag eq_refl).
  - vm_compute. repeat split; reflexivity.
Defined.

(** ** A batch of one *)

Lemma flat_seg {A : Type} (p : Async A) w k :
  flat p -> (seg p w).1 = waiting k -> flat k.
Proof.
  revert w. induction p as [A a|A e|A g IH|A g p IH|A p IH|A|A cs g IH];
    intros w Hp; simpl in *; try done.
  - apply IH, Hp.
  - by apply IH.
  - by intros [= <-].
Qed.

Lemma join_hung sched w : join sched [hung] w = (Pending, w).
Proof.
  induction sched as [|i sched IH]; simpl; [done|].
  destruct i as [|i]; simpl; exact IH.
Qed.

(** Alone in the pool and given its turns, a call does under [join] what
    it does under [exec]. *)
Lemma join_single H m sched' :
  forall n k b w,
    tame H m k n b -> flat k ->
    join (replicate (S n) 0%nat) [waiting k] w =
    (match (exec sched' k w).1 with
     | Resolved _ => Resolved tt
     | Rejected e => Rejected e
     | Pending => Pending
     end, (exec sched' k w).2).
Proof.
  induction n as [|n IH]; intros k b w Ht Hf;
    destruct (tame_seg H m k _ b Ht w) as (evs & _ & _ & Hpost);
    rewrite (exec_seg sched' k w Hf);
    pose proof (flat_seg k w) as Hfk;
    cbn [replicate join first_rejection list_find]; simpl;
    destruct (seg k w) as [[[e|[]]|k'|] w'] eqn:Hseg; simpl in *; try done.
  - by destruct Hpost as (n' & b' & ? & _).
  - destruct Hpost as (n' & b' & [= <-] & Ht' & _).
    apply (IH k' b' w' Ht'). by apply Hfk.
  - apply join_hung.
Qed.

(** A batch of one message: [_handleSqsResponse] does what
    [_processMessage] does on that message, then emits
    [response_processed] and schedules the next poll. *)
Lemma handleSqsResponse_single T this response m w :
  Messages response = Some [m] ->
  let w0 := log (Debug (dbg_response (Some response)))
              (log (Debug (dbg_text "Received SQS response")) w) in
  let run := exec [] (_processMessage T this m) w0 in
  exec [0; 0; 0]%nat (_handleSqsResponse T this (Some response)) w =
  match run.1 with
  | Resolved _ =>
      (Resolved tt,
       schedule (called task_poll)
         (log (Emit (mkEvent "response_processed" None None)) run.2))
  | Rejected e => (Rejected e, run.2)
  | Pending => (Pending, run.2)
  end.
Proof.
  intros Hm w0 run.
  rewrite (exec_handleSqsResponse_batch T this _ response [m] w); cycle 1.
  { unfold hasMessages. by rewrite Hm. }
  { exact Hm. }
  cbv zeta. fold w0. cbn [map start_all].
  pose proof (flat_processMessage T this m) as Hflat.
  unfold run. rewrite (exec_seg [] _ w0 Hflat).
  destruct (processMessage_tame True T this m (or_introl I)) as (rest & Heq & Ht).
  rewrite Heq in Hflat |- *. cbn [seg].
  destruct (tame_seg True m rest 3 false Ht (log (Emit (received m)) w0))
    as (evs & _ & _ & Hpost).
  pose proof (flat_seg rest (log (Emit (received m)) w0)) as Hfk.
  change [0; 0; 0]%nat with (replicate 3 0%nat).
  destruct (seg rest (log (Emit (received m)) w0)) as [[[e|[]]|k|] w1] eqn:Hseg;
    cbn [fst snd] in *; try done.
  - destruct Hpost as (n' & b' & [= <-] & Ht' & _).
    rewrite (join_single True m [] 2 k b' w1 Ht' (Hfk k Hflat eq_refl)).
    by destruct (exec [] k w1) as [[[]|e|] w2].
Qed.

(** ** Method binding *)

Lemma bind_each_self obj p :
  Bind.self (Bind.autoBind_each obj p) = Bind.self obj.
Proof.
  unfold Bind.autoBind_each.
  destruct (Bind.isMethod p (Bind.get obj p)); [|done].
  by destruct (Bind.get obj p).
Qed.

Lemma bind_each_class_prototype obj p :
  Bind.class_prototype (Bind.autoBind_each obj p) = Bind.class_prototype obj.
Proof.
  unfold Bind.autoBind_each.
  destruct (Bind.isMethod p (Bind.get obj p)); [|done].
  by destruct (Bind.get obj p).
Qed.

Lemma bind_each_inherited obj p :
  Bind.inherited (Bind.autoBind_each obj p) = Bind.inherited obj.
Proof.
  unfold Bind.autoBind_each.
  destruct (Bind.isMethod p (Bind.get obj p)); [|done].
  by destruct (Bind.get obj p).
Qed.

Lemma bind_each_own_other obj p q :
  q <> p -> Bind.own (Bind.autoBind_each obj p) !! q = Bind.own obj !! q.
Proof.
  intros Hq. unfold Bind.autoBind_each.
  destruct (Bind.isMethod p (Bind.get obj p)); [|done].
  destruct (Bind.get obj p); try done.
  simpl. by rewrite lookup_insert_ne.
Qed.

Lemma bind_each_get_other obj p q :
  q <> p -> Bind.get (Bind.autoBind_each obj p) q = Bind.get obj q.
Proof.
  intros Hq. unfold Bind.get. simpl.
  rewrite bind_each_own_other by done.
  by rewrite bind_each_class_prototype, bind_each_inherited.
Qed.

Lemma bind_all_self l : forall obj,
  Bind.self (foldl Bind.autoBind_each obj l) = Bind.self obj.
Proof.
  induction l as [|a l IH]; intros obj; simpl; [done|].
  by rewrite IH, bind_each_self.
Qed.

Lemma bind_all_class_prototype l : forall obj,
  Bind.class_prototype (foldl Bind.autoBind_each obj l)
  = Bind.class_prototype obj.
Proof.
  induction l as [|a l IH]; intros obj; simpl; [done|].
  by rewrite IH, bind_each_class_prototype.
Qed.

Lemma bind_all_inherited l : forall obj,
  Bind.inherited (foldl Bind.autoBind_each obj l) = Bind.inherited obj.
Proof.
  induction l as [|a l IH]; intros obj; simpl; [done|].
  by rewrite IH, bind_each_inherited.
Qed.

(** The own property [p] of the object once the names [l] have been gone
    through. *)
Lemma bind_all_own l :
  NoDup l ->
  forall obj p,
    Bind.own (foldl Bind.autoBind_each obj l) !! p =
    if decide (p ∈ l) then
      match Bind.get obj p with
      | Bind.js_function f =>
          if Bind.isMethod p (Bind.js_function f)
          then Some (Bind.js_function (Bind.fn_bound f (Bind.self obj)))
          else Bind.own obj !! p
      | _ => Bind.own obj !! p
      end
    else Bind.own obj !! p.
Proof.
  induction 1 as [|a l Ha Hl IH]; intros obj p; simpl.
  - done.
  - rewrite IH. destruct (decide (p = a)) as [->|Hp].
    + rewrite decide_False by done.
      rewrite decide_True by apply list_elem_of_here.
      unfold Bind.autoBind_each.
      destruct (Bind.get obj a) as [ |b|n|s|f] eqn:Hg;
        unfold Bind.isMethod; simpl Bind.typeof_function;
        rewrite ?andb_false_r; try done.
      rewrite andb_true_r. destruct (negb (a =? "constructor")%string); [|done].
      simpl. by rewrite lookup_insert_eq.
    + rewrite bind_each_get_other, bind_each_self, bind_each_own_other by done.
      destruct (decide (p ∈ l)) as [Hin|Hin].
      * by rewrite decide_True by by apply list_elem_of_further.
      * rewrite decide_False; [done|].
        by intros [?|?]%elem_of_cons.
Qed.

Lemma getOwnPropertyNames_NoDup o : NoDup (Bind.getOwnPropertyNames o).
Proof. apply NoDup_fst_map_to_list. Qed.

Lemma getOwnPropertyNames_elem o p :
  p ∈ Bind.getOwnPropertyNames o <-> is_Some (o !! p).
Proof.
  unfold Bind.getOwnPropertyNames. rewrite list_elem_of_fmap. split.
  - intros [[q v] [-> Hin]]. apply elem_of_map_to_list in Hin. by exists v.
  - intros [v Hv]. exists (p, v). split; [done|]. by apply elem_of_map_to_list.
Qed.

(** What [obj[p]] is once the object is bound. *)
Lemma autoBind_get obj p :
  Bind.get (Bind.autoBind obj) p =
  match Bind.class_prototype obj !! p, Bind.get obj p with
  | Some _, Bind.js_function f =>
      if Bind.isMethod p (Bind.js_function f)
      then Bind.js_function (Bind.fn_bound f (Bind.self obj))
      else Bind.get obj p
  | _, _ => Bind.get obj p
  end.
Proof.
  unfold Bind.autoBind, Bind.get at 1. cbn [Bind.lookup_chain].
  rewrite bind_all_own by apply getOwnPropertyNames_NoDup.
  rewrite bind_all_class_prototype, bind_all_inherited.
  destruct (Bind.class_prototype obj !! p) as [v|] eqn:Hp.
  - rewrite decide_True by (apply getOwnPropertyNames_elem; by exists v).
    destruct (Bind.get obj p) as [ |b|n|s|f] eqn:Hg;
      try (rewrite <- Hg; unfold Bind.get; cbn [Bind.lookup_chain];
           by rewrite Hp).
    destruct (Bind.isMethod p (Bind.js_function f)); [done|].
    rewrite <- Hg. unfold Bind.get. cbn [Bind.lookup_chain]. by rewrite Hp.
  - rewrite decide_False.
    + unfold Bind.get. cbn [Bind.lookup_chain]. by rewrite Hp.
    + intros [v Hv]%getOwnPropertyNames_elem. congruence.
Qed.

Lemma isMethod_function p f :
  p <> "constructor" -> Bind.isMethod p (Bind.js_function f) = true.
Proof.
  intros Hp. unfold Bind.isMethod. simpl. rewrite andb_true_r.
  apply negb_true_iff. by apply String.eqb_neq.
Qed.

(** X1: Every method of the class but the constructor becomes an own
    property of the object, bound to it; taken off the object and called
    with any receiver, it runs the code it ran when called on the object,
    with the object as [this]. *)
Theorem autoBind_detached obj p :
  is_Some (Bind.class_prototype obj !! p) ->
  p <> "constructor" ->
  (forall f,
     Bind.get obj p = Bind.js_function f ->
     Bind.own (Bind.autoBind obj) !! p
     = Some (Bind.js_function (Bind.fn_bound f (Bind.self obj)))) /\
  forall receiver,
    Bind.call (Bind.get (Bind.autoBind obj) p) receiver
    = Bind.call (Bind.get obj p) (Bind.self obj).
Proof.
  intros [v Hv] Hp. split.
  - intros f Hf. unfold Bind.autoBind.
    rewrite bind_all_own by apply getOwnPropertyNames_NoDup.
    rewrite decide_True by (apply getOwnPropertyNames_elem; by exists v).
    by rewrite Hf, isMethod_function.
  - intros receiver. rewrite autoBind_get, Hv.
    destruct (Bind.get obj p) as [ |b|n|s|f]; try done.
    by rewrite isMethod_function.
Qed.

Lemma autoBind_detached_witness :
  Bind.own (Bind.autoBind Bind.consumer_object) !! "_processMessage"
  = Some (Bind.js_function
            (Bind.fn_bound (Bind.fn_code "_processMessage") 7)) /\
  Bind.call (Bind.get Bind.consumer_object "_processMessage") 0
  = Some ("_processMessage", 0%nat) /\
  Bind.call (Bind.get (Bind.autoBind Bind.consumer_object) "_processMessage") 0
  = Some ("_processMessage", 7%nat).
Proof.
  assert (Hin : is_Some (Bind.class_prototype Bind.consumer_object
                           !! "_processMessage")) by (by eexists).
  assert (Hne : "_processMessage" <> "constructor") by discriminate.
  destruct (autoBind_detached Bind.consumer_object "_processMessage" Hin Hne)
    as [Hown Hcall].
  split; [|split].
  - by apply Hown.
  - reflexivity.
  - rewrite Hcall. reflexivity.
Defined.

(** X2: Binding changes nothing else: the identity of the object, its
    prototypes, the property [constructor], the properties that are not on
    the prototype of the class (those inherited from further up included)
    and those that hold no function are as they were; and a method called on
    the object does what it did. *)
Theorem autoBind_frame obj :
  Bind.self (Bind.autoBind obj) = Bind.self obj /\
  Bind.class_prototype (Bind.autoBind obj) = Bind.class_prototype obj /\
  Bind.inherited (Bind.autoBind obj) = Bind.inherited obj /\
  (forall p,
     Bind.class_prototype obj !! p = None \/ p = "constructor" \/
     Bind.typeof_function (Bind.get obj p) = false ->
     Bind.own (Bind.autoBind obj) !! p = Bind.own obj !! p /\
     Bind.get (Bind.autoBind obj) p = Bind.get obj p) /\
  (forall p,
     Bind.call (Bind.get (Bind.autoBind obj) p) (Bind.self obj)
     = Bind.call (Bind.get obj p) (Bind.self obj)).
Proof.
  split; [apply bind_all_self|].
  split; [apply bind_all_class_prototype|].
  split; [apply bind_all_inherited|].
  split.
  - intros p Hp. split.
    + unfold Bind.autoBind.
      rewrite bind_all_own by apply getOwnPropertyNames_NoDup.
      destruct (decide (p ∈ _)) as [Hin|Hin]; [|done].
      destruct (Bind.get obj p) as [ |b|n|s|f] eqn:Hg; try done.
      destruct Hp as [Hp|[->|Hp]].
      * apply getOwnPropertyNames_elem in Hin as [v Hv]. congruence.
      * done.
      * done.
    + rewrite autoBind_get.
      destruct (Bind.class_prototype obj !! p) as [v|] eqn:Hv; [|done].
      destruct (Bind.get obj p) as [ |b|n|s|f] eqn:Hg; try done.
      destruct Hp as [Hp|[->|Hp]]; done.
  - intros p. rewrite autoBind_get.
    destruct (Bind.class_prototype obj !! p) as [v|]; [|done].
    destruct (Bind.get obj p) as [ |b|n|s|f]; try done.
    by destruct (Bind.isMethod p (Bind.js_function f)).
Qed.

Lemma autoBind_frame_witness :
  Bind.class_prototype Bind.consumer_object !! "emit" = None /\
  Bind.typeof_function (Bind.get Bind.consumer_object "stopped") = false /\
  Bind.own (Bind.autoBind Bind.consumer_object) !! "emit" = None /\
  Bind.own (Bind.autoBind Bind.consumer_object) !! "constructor" = None /\
  Bind.get (Bind.autoBind Bind.consumer_object) "stopped"
  = Bind.js_boolean true /\
  Bind.call (Bind.get (Bind.autoBind Bind.consumer_object) "emit") 0
  = Some ("emit", 0%nat).
Proof.
  destruct (autoBind_frame Bind.consumer_object) as (_ & _ & _ & Hrest & _).
  assert (H1 : Bind.class_prototype Bind.consumer_object !! "emit" = None)
    by reflexivity.
  assert (H2 : Bind.typeof_function (Bind.get Bind.consumer_object "stopped")
               = false) by reflexivity.
  split; [exact H1|]. split; [exact H2|].
  destruct (Hrest "emit" (or_introl H1)) as [Ho Hg].
  destruct (Hrest "constructor" (or_intror (or_introl eq_refl))) as [Ho' _].
  destruct (Hrest "stopped" (or_intror (or_intror H2))) as [_ Hg'].
  split; [rewrite Ho; reflexivity|].
  split; [rewrite Ho'; reflexivity|].
  split; [rewrite Hg'; reflexivity|].
  rewrite Hg. reflexivity.
Defined.

(** X3: Binding an object already bound changes no call: whatever the
    property and the receiver, the code that runs and the [this] it sees are
    those after the first binding. *)
Theorem autoBind_twice obj p receiver :
  Bind.call (Bind.get (Bind.autoBind (Bind.autoBind obj)) p) receiver
  = Bind.call (Bind.get (Bind.autoBind obj) p) receiver.
Proof.
  rewrite (autoBind_get (Bind.autoBind obj)).
  unfold Bind.autoBind at 1. rewrite bind_all_class_prototype.
  destruct (Bind.class_prototype obj !! p) as [v|] eqn:Hv; [|done].
  destruct (Bind.get (Bind.autoBind obj) p) as [ |b|n|s|f] eqn:Hg; try done.
  destruct (Bind.isMethod p (Bind.js_function f)) eqn:Hm; [|done].
  simpl. f_equal.
  rewrite autoBind_get, Hv in Hg.
  destruct (Bind.get obj p) as [ |b|n|s|g] eqn:Hg0; try done.
  assert (Bind.isMethod p (Bind.js_function g) = true) as Hm' by exact Hm.
  rewrite Hm' in Hg. by injection Hg as <-.
Qed.

(** ** The state, field by field *)

(** An action is logged. *)

Lemma trace_log a w : trace (log a w) = trace w ++ [a].
Proof. reflexivity. Qed.

Lemma agenda_log a w : agenda (log a w) = agenda w.
Proof. reflexivity. Qed.

Lemma this_stopped_log a w : this_stopped (log a w) = this_stopped w.
Proof. reflexivity. Qed.

Lemma this_visibilityTimeout_log a w :
  this_visibilityTimeout (log a w) = this_visibilityTimeout w.
Proof. reflexivity. Qed.

Lemma unhandled_log a w : unhandled (log a w) = unhandled w.
Proof. reflexivity. Qed.

Lemma objects_log a w : objects (log a w) = objects w.
Proof. reflexivity. Qed.

(** Work is scheduled. *)

Lemma trace_schedule s w : trace (schedule s w) = trace w.
Proof. reflexivity. Qed.

Lemma agenda_schedule s w : agenda (schedule s w) = agenda w ++ [s].
Proof. reflexivity. Qed.

Lemma this_stopped_schedule s w : this_stopped (schedule s w) = this_stopped w.
Proof. reflexivity. Qed.

Lemma this_visibilityTimeout_schedule s w :
  this_visibilityTimeout (schedule s w) = this_visibilityTimeout w.
Proof. reflexivity. Qed.

Lemma unhandled_schedule s w : unhandled (schedule s w) = unhandled w.
Proof. reflexivity. Qed.

Lemma objects_schedule s w : objects (schedule s w) = objects w.
Proof. reflexivity. Qed.

Lemma calls_schedule s w : calls (schedule s w) = calls w.
Proof. reflexivity. Qed.

(** [this.stopped] is written. *)

Lemma trace_set_stopped b w : trace (set_stopped b w) = trace w.
Proof. reflexivity. Qed.

Lemma agenda_set_stopped b w : agenda (set_stopped b w) = agenda w.
Proof. reflexivity. Qed.

Lemma this_stopped_set_stopped b w : this_stopped (set_stopped b w) = b.
Proof. reflexivity. Qed.

Lemma this_visibilityTimeout_set_stopped b w :
  this_visibilityTimeout (set_stopped b w) = this_visibilityTimeout w.
Proof. reflexivity. Qed.

Lemma unhandled_set_stopped b w : unhandled (set_stopped b w) = unhandled w.
Proof. reflexivity. Qed.

Lemma objects_set_stopped b w : objects (set_stopped b w) = objects w.
Proof. reflexivity. Qed.

Lemma calls_set_stopped b w : calls (set_stopped b w) = calls w.
Proof. reflexivity. Qed.

Lemma events_set_stopped b w : events (set_stopped b w) = events w.
Proof. reflexivity. Qed.

(** [this.visibilityTimeout] is written. *)

Lemma trace_set_visibilityTimeout v w :
  trace (set_visibilityTimeout v w) = trace w.
Proof. reflexivity. Qed.

Lemma agenda_set_visibilityTimeout v w :
  agenda (set_visibilityTimeout v w) = agenda w.
Proof. reflexivity. Qed.

Lemma this_stopped_set_visibilityTimeout v w :
  this_stopped (set_visibilityTimeout v w) = this_stopped w.
Proof. reflexivity. Qed.

Lemma this_visibilityTimeout_set_visibilityTimeout v w :
  this_visibilityTimeout (set_visibilityTimeout v w) = v.
Proof. reflexivity. Qed.

Lemma unhandled_set_visibilityTimeout v w :
  unhandled (set_visibilityTimeout v w) = unhandled w.
Proof. reflexivity. Qed.

Lemma objects_set_visibilityTimeout v w :
  objects (set_visibilityTimeout v w) = objects w.
Proof. reflexivity. Qed.

Lemma calls_set_visibilityTimeout v w :
  calls (set_visibilityTimeout v w) = calls w.
Proof. reflexivity. Qed.

Lemma events_set_visibilityTimeout v w :
  events (set_visibilityTimeout v w) = events w.
Proof. reflexivity. Qed.

(** Work is taken off the agenda. *)

Lemma trace_set_agenda l w : trace (set_agenda l w) = trace w.
Proof. reflexivity. Qed.

Lemma agenda_set_agenda l w : agenda (set_agenda l w) = l.
Proof. reflexivity. Qed.

Lemma this_stopped_set_agenda l w :
  this_stopped (set_agenda l w) = this_stopped w.
Proof. reflexivity. Qed.

Lemma this_visibilityTimeout_set_agenda l w :
  this_visibilityTimeout (set_agenda l w) = this_visibilityTimeout w.
Proof. reflexivity. Qed.

Lemma unhandled_set_agenda l w : unhandled (set_agenda l w) = unhandled w.
Proof. reflexivity. Qed.

Lemma objects_set_agenda l w : objects (set_agenda l w) = objects w.
Proof. reflexivity. Qed.

Lemma calls_set_agenda l w : calls (set_agenda l w) = calls w.
Proof. reflexivity. Qed.

Lemma events_set_agenda l w : events (set_agenda l w) = events w.
Proof. reflexivity. Qed.

(** A rejection is left without handler. *)

Lemma trace_report_unhandled e w : trace (report_unhandled e w) = trace w.
Proof. reflexivity. Qed.

Lemma agenda_report_unhandled e w : agenda (report_unhandled e w) = agenda w.
Proof. reflexivity. Qed.

Lemma this_stopped_report_unhandled e w :
  this_stopped (report_unhandled e w) = this_stopped w.
Proof. reflexivity. Qed.

Lemma this_visibilityTimeout_report_unhandled e w :
  this_visibilityTimeout (report_unhandled e w) = this_visibilityTimeout w.
Proof. reflexivity. Qed.

Lemma unhandled_report_unhandled e w :
  unhandled (report_unhandled e w) = unhandled w ++ [e].
Proof. reflexivity. Qed.

Lemma objects_report_unhandled e w : objects (report_unhandled e w) = objects w.
Proof. reflexivity. Qed.

Lemma calls_report_unhandled e w : calls (report_unhandled e w) = calls w.
Proof. reflexivity. Qed.

Lemma events_report_unhandled e w : events (report_unhandled e w) = events w.
Proof. reflexivity. Qed.

Lemma events_log_Call c w : events (log (Call c) w) = events w.
Proof. by rewrite events_log, app_nil_r. Qed.

Create Rewrite HintDb state.
#[local] Hint Rewrite
  trace_log agenda_log this_stopped_log this_visibilityTimeout_log
  unhandled_log objects_log trace_schedule agenda_schedule
  this_stopped_schedule this_visibilityTimeout_schedule unhandled_schedule
  objects_schedule calls_schedule trace_set_stopped agenda_set_stopped
  this_stopped_set_stopped this_visibilityTimeout_set_stopped
  unhandled_set_stopped objects_set_stopped calls_set_stopped
  events_set_stopped trace_set_visibilityTimeout
  agenda_set_visibilityTimeout this_stopped_set_visibilityTimeout
  this_visibilityTimeout_set_visibilityTimeout
  unhandled_set_visibilityTimeout objects_set_visibilityTimeout
  calls_set_visibilityTimeout events_set_visibilityTimeout trace_set_agenda
  agenda_set_agenda this_stopped_set_agenda
  this_visibilityTimeout_set_agenda unhandled_set_agenda objects_set_agenda
  calls_set_agenda events_set_agenda trace_report_unhandled
  agenda_report_unhandled this_stopped_report_unhandled
  this_visibilityTimeout_report_unhandled unhandled_report_unhandled
  objects_report_unhandled calls_report_unhandled events_report_unhandled
  events_schedule events_log_Debug events_log_Emit events_log_Call
  calls_log_Emit calls_log_Debug calls_log_Call : state.

(** The states of a poll are unfolded and read field by field. *)
Ltac unfold_world :=
  unfold poll_failed, asked, polled, receive_failure;
  autorewrite with state.

(** ** Starting and stopping *)

Lemma exec_modify sched f w : exec sched (modify f) w = (Resolved tt, f w).
Proof. reflexivity. Qed.

Lemma exec_call_detached sched t w :
  exec sched (call_detached t) w = (Resolved tt, schedule (called t) w).
Proof. reflexivity. Qed.

Lemma exec_setTimeout sched t d w :
  exec sched (setTimeout t d) w = (Resolved tt, schedule (timer t d) w).
Proof. reflexivity. Qed.

Lemma exec_start sched w :
  exec sched start w =
  (Resolved tt,
   if this_stopped w
   then schedule (called task_poll)
          (set_stopped false (log (Debug (dbg_text "Starting consumer")) w))
   else w).
Proof.
  unfold start. rewrite exec_bind, exec_get_world.
  destruct (this_stopped w); [|done].
  by rewrite exec_bind, exec_debug, exec_bind, exec_modify, exec_call_detached.
Qed.

Lemma exec_stop sched w :
  exec sched stop w =
  (Resolved tt,
   set_stopped true (log (Debug (dbg_text "Stopping consumer")) w)).
Proof. unfold stop. by rewrite exec_bind, exec_debug, exec_modify. Qed.

(** What a poll does while the consumer runs, by the answers of the
    queue. *)
Lemma exec_poll_running this sched w :
  this_stopped w = false ->
  exec sched (_poll this) w =
  match sqs_receiveMessage (sqs this) (calls w) (receive_params this w) with
  | forever => (Pending, polled this w)
  | rejected _ e =>
      (Resolved tt, poll_failed this (receive_failure e) (polled this w))
  | fulfilled _ response =>
      match sqs_getQueueAttributes (sqs this)
              (calls w ++ [receiveMessage (receive_params this w)])
              (queueUrl this) ["VisibilityTimeout"] with
      | forever => (Pending, asked this w)
      | rejected _ e => (Resolved tt, poll_failed this e (asked this w))
      | fulfilled _ v =>
          (Resolved tt,
           schedule (called (task_handleSqsResponse response))
             (set_visibilityTimeout v (asked this w)))
      end
  end.
Proof.
  intros Hrun. unfold _poll.
  rewrite exec_bind, exec_get_world, Hrun.
  rewrite exec_bind, exec_debug, exec_try_catch.
  rewrite exec_bind, exec_get_world. cbv zeta.
  rewrite exec_bind, exec_receiveMessage.
  change (mkReceiveParams _ _ _ _ _ _) with (receive_params this w).
  rewrite calls_log_Debug.
  fold (polled this w).
  destruct (sqs_receiveMessage _ _ _) as [|t response|t e].
  - done.
  - simpl exec. unfold polled at 1. rewrite calls_log_Call, calls_log_Debug.
    fold (asked this w).
    destruct (sqs_getQueueAttributes _ _ _ _) as [|t' v|t' e].
    + done.
    + done.
    + simpl. unfold poll_failed. by destruct (isAuthenticationError e).
  - fold (receive_failure e).
    rewrite exec_bind, exec_emit. unfold poll_failed.
    destruct (isAuthenticationError (receive_failure e)); [|done].
    by rewrite exec_bind, exec_debug, exec_setTimeout.
Qed.

(** ** What the code leaves alone *)

Lemma writes_All {A : Type} P children (k : option JsError -> Async A) :
  writes P (All children k) <->
  Forall (writes P) children /\ forall r, writes P (k r).
Proof.
  cbn [writes]. split; intros [H1 H2]; (split; [|exact H2]).
  - induction children as [|c l IH]; constructor; [apply H1|apply IH, H1].
  - induction H1 as [|c l Hc Hl IH]; [exact I|split; [exact Hc|exact IH]].
Qed.

Lemma writes_bind {A B : Type} P (p : Async A) (f : A -> Async B) :
  writes P p -> (forall a, writes P (f a)) -> writes P (bind p f).
Proof.
  revert f. induction p as [A a|A e|A k IH|A g k IH|A k IH|A|A children k IH];
    intros f Hp Hf; cbn [bind].
  - apply Hf.
  - done.
  - intros w. by apply IH.
  - destruct Hp as [Hg Hk]. split; [done|]. by apply IH.
  - by apply IH.
  - done.
  - apply writes_All in Hp as [Hc Hk]. apply writes_All. split; [done|].
    intros r. by apply IH.
Qed.

Lemma writes_try_catch {A : Type} P (p : Async A) (h : JsError -> Async A) :
  writes P p -> (forall e, writes P (h e)) -> writes P (try_catch p h).
Proof.
  revert h. induction p as [A a|A e|A k IH|A g k IH|A k IH|A|A children k IH];
    intros h Hp Hh; cbn [try_catch].
  - done.
  - apply Hh.
  - intros w. by apply IH.
  - destruct Hp as [Hg Hk]. split; [done|]. by apply IH.
  - by apply IH.
  - done.
  - apply writes_All in Hp as [Hc Hk]. apply writes_All. split; [done|].
    intros r. by apply IH.
Qed.

Lemma writes_await {X : Type} P (p : Promise X) : writes P (await p).
Proof. by destruct p. Qed.

Lemma writes_modify P f : P f -> writes P (modify f).
Proof. by split. Qed.

Lemma no_return_bind {A B : Type} (p : Async A) (f : A -> Async B) :
  no_return p -> no_return (bind p f).
Proof.
  revert f. induction p as [A a|A e|A k IH|A g k IH|A k IH|A|A children k IH];
    intros f Hp; cbn [bind no_return] in *; auto.
  done.
Qed.

Lemma no_return_bind_r {A B : Type} (p : Async A) (f : A -> Async B) :
  (forall a, no_return (f a)) -> no_return (bind p f).
Proof.
  revert f. induction p as [A a|A e|A k IH|A g k IH|A k IH|A|A children k IH];
    intros f Hf; cbn [bind no_return]; auto.
Qed.

Lemma no_return_try_catch {A : Type} (p : Async A) (h : JsError -> Async A) :
  no_return p -> (forall e, no_return (h e)) -> no_return (try_catch p h).
Proof.
  revert h. induction p as [A a|A e|A k IH|A g k IH|A k IH|A|A children k IH];
    intros h Hp Hh; cbn [try_catch no_return] in *; auto.
Qed.

(** What does not return does, followed by anything, what it does alone. *)
Lemma writes_bind_no_return {A B : Type} P (p : Async A) (f : A -> Async B) :
  no_return p -> writes P p -> writes P (bind p f).
Proof.
  revert f. induction p as [A a|A e|A k IH|A g k IH|A k IH|A|A children k IH];
    intros f Hn Hp; cbn [bind no_return] in *.
  - done.
  - done.
  - intros w. by apply IH.
  - destruct Hp as [Hg Hk]. split; [done|]. by apply IH.
  - by apply IH.
  - done.
  - apply writes_All in Hp as [Hc Hk]. apply writes_All. split; [done|].
    intros r. by apply IH.
Qed.

Section Frame.

Context (R : World -> World -> Prop).
Hypothesis R_refl : forall w, R w w.
Hypothesis R_trans : forall w1 w2 w3, R w1 w2 -> R w2 w3 -> R w1 w3.

Lemma steps_seg {A : Type} (p : Async A) :
  writes (steps R) p ->
  forall w,
    R w (seg p w).2 /\
    forall k, (seg p w).1 = waiting k -> writes (steps R) k.
Proof.
  induction p as [A a|A e|A k IH|A g k IH|A k IH|A|A children k IH];
    intros Hp w; cbn [seg]; try (split; [apply R_refl|by intros ?]).
  - apply IH, Hp.
  - destruct Hp as [Hg Hk]. destruct (IH Hk (g w)) as [IH1 IH2].
    split; [|done]. eapply R_trans; [apply Hg|exact IH1].
  - split; [apply R_refl|]. intros k' [= <-]. exact Hp.
Qed.

Lemma steps_start_all children :
  Forall (writes (steps R)) children ->
  forall w,
    R w (start_all children w).2 /\
    Forall (thread_writes (steps R)) (start_all children w).1.
Proof.
  induction 1 as [|c l Hc Hl IH]; intros w; cbn [start_all].
  { split; [apply R_refl|constructor]. }
  destruct (steps_seg c Hc w) as [H1 H2].
  destruct (seg c w) as [t w1] eqn:Hseg. cbn [fst snd] in *.
  destruct (IH w1) as [H3 H4].
  destruct (start_all l w1) as [ts w2]. cbn [fst snd] in *.
  split; [by eapply R_trans|]. constructor; [|done].
  destruct t; try done. by apply H2.
Qed.

Lemma steps_join sched :
  forall pool w,
    Forall (thread_writes (steps R)) pool ->
    R w (join sched pool w).2.
Proof.
  induction sched as [|i sched IH]; intros pool w Hpool; cbn [join].
  - destruct (first_rejection pool); [apply R_refl|].
    destruct (forallb is_settled pool); apply R_refl.
  - destruct (first_rejection pool); [apply R_refl|].
    destruct (forallb is_settled pool); [apply R_refl|].
    destruct (pool !! i) as [[r|k|]|] eqn:Hi; try by apply IH.
    assert (Hk : writes (steps R) k).
    { eapply (Forall_lookup_1 _ _ _ _ Hpool Hi). }
    destruct (steps_seg k Hk w) as [H1 H2].
    destruct (seg k w) as [t w'] eqn:Hseg. cbn [fst snd] in *.
    eapply R_trans; [exact H1|]. apply IH.
    apply Forall_insert; [done|]. destruct t; try done. by apply H2.
Qed.

Lemma steps_exec {A : Type} sched (p : Async A) :
  writes (steps R) p -> forall w, R w (exec sched p w).2.
Proof.
  induction p as [A a|A e|A k IH|A g k IH|A k IH|A|A children k IH];
    intros Hp w; cbn [exec]; try apply R_refl.
  - apply IH, Hp.
  - destruct Hp as [Hg Hk]. eapply R_trans; [apply Hg|by apply IH].
  - by apply IH.
  - apply writes_All in Hp as [Hc Hk].
    destruct (steps_start_all children Hc w) as [H1 H2].
    destruct (start_all children w) as [pool w1]. cbn [fst snd] in *.
    pose proof (steps_join sched pool w1 H2) as H3.
    destruct (join sched pool w1) as [[[]|e|] w2]; cbn [fst snd] in *.
    + eapply R_trans; [exact H1|]. eapply R_trans; [exact H3|]. by apply IH.
    + eapply R_trans; [exact H1|]. eapply R_trans; [exact H3|]. by apply IH.
    + by eapply R_trans.
Qed.

End Frame.

Section Keeps.

Context {X : Type} (obs : World -> X).

Lemma keeps_start_all children :
  Forall (writes (keeps obs)) children ->
  forall w,
    obs (start_all children w).2 = obs w /\
    Forall (thread_writes (keeps obs)) (start_all children w).1.
Proof.
  apply (steps_start_all (fun w w' => obs w' = obs w)); [done|].
  intros w1 w2 w3 H1 H2. by rewrite H2.
Qed.

Lemma keeps_join sched pool w :
  Forall (thread_writes (keeps obs)) pool ->
  obs (join sched pool w).2 = obs w.
Proof.
  apply (steps_join (fun w w' => obs w' = obs w)); [done|].
  intros w1 w2 w3 H1 H2. by rewrite H2.
Qed.

Lemma keeps_exec {A : Type} sched (p : Async A) :
  writes (keeps obs) p -> forall w, obs (exec sched p w).2 = obs w.
Proof.
  apply (steps_exec (fun w w' => obs w' = obs w)); [done|].
  intros w1 w2 w3 H1 H2. by rewrite H2.
Qed.

End Keeps.

Section Writes.

Context (P : (World -> World) -> Prop) (T : string) (this : Consumer)
        (own_message : Message -> Prop).
Hypothesis P_log_Emit : forall ev, P (log (Emit ev)).
Hypothesis P_log_Debug : forall d, P (log (Debug d)).
Hypothesis P_log_Call :
  forall c, is_deleteMessage c = false -> P (log (Call c)).
Hypothesis P_delete :
  forall m t,
    own_message m -> awaited T this m = fulfilled t tt ->
    P (log (Call (deleteMessage (queueUrl this) (ReceiptHandle m)))).
Hypothesis P_schedule_loop :
  forall s, loop_task (task_of s) = true -> P (schedule s).
Hypothesis P_schedule_extension :
  forall s, loop_task (task_of s) = false -> P (schedule s).
Hypothesis P_report_unhandled :
  extendVisibilityTimeout this = true -> forall e, P (report_unhandled e).
Hypothesis P_set_visibilityTimeout : forall v, P (set_visibilityTimeout v).
Hypothesis P_set_finishedProcessing :
  forall m b, own_message m -> P (set_finishedProcessing m b).
Hypothesis P_set_message_visibilityTimeout :
  forall m v, own_message m -> P (set_message_visibilityTimeout m v).

Lemma writes_emit name err msg : writes P (emit name err msg).
Proof. apply writes_modify, P_log_Emit. Qed.

Lemma writes_debug d : writes P (debug d).
Proof. apply writes_modify, P_log_Debug. Qed.

Lemma writes_request_await {X : Type} c (answer : list SqsCall -> Promise X) :
  is_deleteMessage c = false ->
  writes P (let* p := request c answer in await p).
Proof. intros Hc w. split; [by apply P_log_Call|]. apply writes_await. Qed.

Lemma writes_extendTimeout m :
  (forall e, P (report_unhandled e)) ->
  own_message m -> writes P (extendTimeout this m).
Proof.
  intros Hrep Hm w. cbn.
  destruct (finishedProcessing (fields m w)) as [[]|]; [done| |];
    (split; [by apply P_set_message_visibilityTimeout|]);
    intros w1 w2; (split; [by apply P_log_Call|]);
    destruct (sqs_changeMessageVisibility _ _ _ _ _); cbn; try done;
    (split; [|done]); auto.
Qed.

Lemma writes_extendTimeout_then m : writes P (extendTimeout_then m).
Proof.
  split; [apply P_log_Debug|]. intros w.
  split; [by apply P_schedule_extension|done].
Qed.

Lemma writes_executeHandler m :
  own_message m -> writes P (_executeHandler T this m).
Proof.
  intros Hm. unfold _executeHandler, try_finally, clearTimeout.
  apply writes_bind; [|done].
  apply writes_try_catch; [|done].
  apply writes_try_catch.
  - apply writes_bind; [by apply writes_modify, P_set_finishedProcessing|].
    intros _. apply writes_bind; [done|]. intros w.
    apply writes_bind; [by apply writes_modify, P_set_message_visibilityTimeout|].
    intros _. apply writes_bind.
    + destruct (extendVisibilityTimeout this) eqn:Hext; [|done].
      apply writes_extendTimeout; [by apply P_report_unhandled|done].
    + intros _. destruct (truthy_number _); apply writes_await.
  - intros e. destruct (instanceof_TimeoutError e);
      (apply writes_bind; [by apply writes_modify, P_set_finishedProcessing|done]).
Qed.

(** Unless the promise it awaits is fulfilled, [_executeHandler] does not
    return. *)
Lemma no_return_executeHandler m :
  (forall t, awaited T this m <> fulfilled t tt) ->
  no_return (_executeHandler T this m).
Proof.
  intros Haw. unfold _executeHandler, try_finally, clearTimeout.
  apply no_return_bind. apply no_return_try_catch; [|done].
  apply no_return_try_catch.
  - apply no_return_bind_r. intros _. apply no_return_bind_r. intros w.
    apply no_return_bind_r. intros _. apply no_return_bind_r. intros _.
    unfold awaited in Haw.
    destruct (truthy_number (handleMessageTimeout this));
      match goal with |- no_return (await ?p) => destruct p as [|t []|t e] end;
      try done; by destruct (Haw t).
  - intros e. destruct (instanceof_TimeoutError e);
      by apply no_return_bind_r.
Qed.

Lemma writes_processMessage m :
  own_message m -> writes P (_processMessage T this m).
Proof.
  intros Hm. unfold _processMessage.
  apply writes_bind; [apply writes_emit|]. intros _.
  apply writes_try_catch.
  - destruct (awaited T this m) as [|t []|t e] eqn:Haw.
    + apply writes_bind_no_return; [|by apply writes_executeHandler].
      apply no_return_executeHandler. by rewrite Haw.
    + apply writes_bind; [by apply writes_executeHandler|]. intros _.
      apply writes_bind; [|intros _; apply writes_emit].
      unfold _deleteMessage. apply writes_bind; [apply writes_debug|]. intros _.
      apply writes_try_catch; [|done].
      intros w. split; [by apply (P_delete m t)|]. apply writes_await.
    + apply writes_bind_no_return; [|by apply writes_executeHandler].
      apply no_return_executeHandler. by rewrite Haw.
  - intros e. apply writes_bind.
    + destruct (String.eqb _ _); [apply writes_emit|].
      destruct (instanceof_TimeoutError e); apply writes_emit.
    + intros _. destruct (terminateVisibilityTimeout this); [|done].
      apply writes_try_catch; [by apply writes_request_await|].
      intros e'. apply writes_emit.
Qed.

Lemma writes_handleSqsResponse response :
  (forall r msgs, response = Some r -> Messages r = Some msgs ->
                  Forall own_message msgs) ->
  writes P (_handleSqsResponse T this response).
Proof.
  intros Hmsgs. unfold _handleSqsResponse.
  apply writes_bind; [apply writes_debug|]. intros _.
  apply writes_bind; [apply writes_debug|]. intros _.
  apply writes_bind; [|intros _; by apply writes_modify, P_schedule_loop].
  destruct response as [r|]; [|done].
  destruct (hasMessages r); [|apply writes_emit].
  apply writes_bind; [|intros _; apply writes_emit].
  unfold await_all. apply writes_All. split.
  - destruct (Messages r) as [msgs|] eqn:Hr; [|by constructor].
    simpl. apply Forall_map. eapply Forall_impl; [by eapply Hmsgs|].
    intros m Hm. by apply writes_processMessage.
  - by intros [e|].
Qed.

Lemma writes_poll : writes P (_poll this).
Proof.
  unfold _poll. intros w. cbn [bind get_world].
  destruct (this_stopped w); [apply writes_emit|].
  apply writes_bind; [apply writes_debug|]. intros _.
  apply writes_try_catch.
  - intros w1. cbn [bind]. apply writes_bind.
    + unfold _receiveMessage.
      apply writes_try_catch; [by apply writes_request_await|done].
    + intros response. intros w2. split; [by apply P_log_Call|]. cbn [bind].
      apply writes_bind; [apply writes_await|]. intros v.
      split; [apply P_set_visibilityTimeout|].
      by apply writes_modify, P_schedule_loop.
  - intros e. apply writes_bind; [apply writes_emit|]. intros _.
    destruct (isAuthenticationError e); [|done].
    apply writes_bind; [apply writes_debug|]. intros _.
    by apply writes_modify, P_schedule_loop.
Qed.

End Writes.

Lemma keeps_stopped_body T this t : writes (keeps this_stopped) (body T this t).
Proof.
  destruct t as [|response|m|m]; cbn [body].
  - by apply writes_poll.
  - by apply (writes_handleSqsResponse _ T this (fun _ => True));
      try done; intros; by apply Forall_true.
  - by apply (writes_extendTimeout _ this (fun _ => True)).
  - by apply writes_extendTimeout_then.
Qed.

(** X4: Only [start] and [stop] write [this.stopped]: no piece of scheduled
    work, be it a poll, the handling of a response with the processing of
    its messages, or a round of extension, changes whether the consumer is
    stopped, however the calls of a batch interleave and whatever the queue
    and the handler answer. *)
Theorem scheduled_work_keeps_stopped T this sched i w :
  this_stopped (turn T this sched i w) = this_stopped w.
Proof.
  unfold turn. destruct (agenda w !! i) as [s|]; [|done].
  pose proof (keeps_exec this_stopped sched (body T this (task_of s))
                (keeps_stopped_body T this (task_of s))
                (set_agenda (delete i (agenda w)) w)) as H.
  destruct (exec sched _ _) as [[[]|e|] w']; exact H.
Qed.

(** X5: [start] on a consumer that runs does nothing, so that starting twice
    is starting once: one poll is called, not two. *)
Theorem start_twice sched w :
  exec sched (start >> start) w = exec sched start w /\
  agenda (exec sched (start >> start) w).2 =
    agenda w ++ (if this_stopped w then [called task_poll] else []) /\
  this_stopped (exec sched (start >> start) w).2 = false.
Proof.
  rewrite exec_bind, !exec_start.
  destruct (this_stopped w) eqn:Hs; cbn [fst snd]; rewrite ?Hs, ?app_nil_r; done.
Qed.

Lemma filter_receive_one p :
  filter (fun c => is_receiveMessage c) [receiveMessage p] = [receiveMessage p].
Proof. reflexivity. Qed.

Lemma filter_receive_none q a :
  filter (fun c => is_receiveMessage c) [getQueueAttributes q a] = [].
Proof. reflexivity. Qed.

Lemma filter_stopped_error err :
  filter (fun ev => ev_name ev = "stopped") [mkEvent "error" err None] = [].
Proof. reflexivity. Qed.

(** One poll of a running consumer: a receive request, no [stopped]. *)
Lemma turn_poll_running T this sched i s w :
  this_stopped w = false ->
  agenda w !! i = Some s ->
  task_of s = task_poll ->
  let w' := turn T this sched i w in
  this_stopped w' = false /\
  (exists new, agenda w' = delete i (agenda w) ++ new) /\
  filter (fun ev => ev_name ev = "stopped") (events w') =
    filter (fun ev => ev_name ev = "stopped") (events w) /\
  filter (fun c => is_receiveMessage c) (calls w') =
    filter (fun c => is_receiveMessage c) (calls w)
      ++ [receiveMessage (receive_params this w)].
Proof.
  intros Hrun Hi Hs w'. subst w'. unfold turn. rewrite Hi, Hs. cbn [body].
  rewrite exec_poll_running by done.
  change (calls (set_agenda (delete i (agenda w)) w)) with (calls w).
  change (receive_params this (set_agenda (delete i (agenda w)) w))
    with (receive_params this w).
  assert (Hnew : forall new : list Scheduled,
            exists new', delete i (agenda w) ++ new = delete i (agenda w) ++ new')
    by (intros new; by exists new).
  assert (Hnil : exists new', delete i (agenda w) = delete i (agenda w) ++ new')
    by (exists []; by rewrite app_nil_r).
  destruct (sqs_receiveMessage _ _ _) as [|t response|t e];
    [|destruct (sqs_getQueueAttributes _ _ _ _) as [|t' v|t' e]|];
    unfold poll_failed; try destruct (isAuthenticationError _);
    unfold_world;
    rewrite ?filter_app, ?filter_receive_one, ?filter_receive_none,
      ?filter_stopped_error, ?app_nil_r;
    (split; [done|]); (split; [done|]); done.
Qed.

(** X6: [stop] takes effect at the next poll.  The call emits nothing and
    leaves the pending work as it is; the next poll, when its turn comes,
    emits [stopped], asks the queue nothing and schedules nothing: the loop
    has ended. *)
Theorem stop_ends_loop T this sched w i s :
  agenda w !! i = Some s ->
  task_of s = task_poll ->
  let w1 := (exec sched stop w).2 in
  let w2 := turn T this sched i w1 in
  trace w1 = trace w ++ [Debug (dbg_text "Stopping consumer")] /\
  agenda w1 = agenda w /\
  trace w2 = trace w1 ++ [Emit (mkEvent "stopped" None None)] /\
  agenda w2 = delete i (agenda w) /\
  this_stopped w2 = true /\
  unhandled w2 = unhandled w.
Proof.
  intros Hi Hs w1 w2. subst w2 w1. rewrite exec_stop. cbn [snd].
  split; [done|]. split; [done|].
  unfold turn. change (agenda (set_stopped true _)) with (agenda w).
  rewrite Hi, Hs. cbn [body]. by rewrite poll_stopped.
Qed.

Lemma stop_ends_loop_witness :
  let w1 := (exec [] stop Scenario.polling).2 in
  let w2 := turn Sample.text Sample.consumer [] 0 w1 in
  trace w2 = [Debug (dbg_text "Stopping consumer");
              Emit (mkEvent "stopped" None None)] /\
  agenda w2 = [] /\
  this_stopped w2 = true.
Proof.
  destruct (stop_ends_loop Sample.text Sample.consumer [] Scenario.polling 0
              (called task_poll) eq_refl eq_refl)
    as (_ & _ & H3 & H4 & H5 & _).
  split; [exact H3|]. split; [exact H4|exact H5].
Defined.

(** X7: [stop] followed at once by [start] does not end a loop that is in
    its pause after an authentication failure.  [start] calls a poll of its
    own, and the timer of the pause is still set: when both have had their
    turn the queue has been asked twice, the consumer runs, and [stopped]
    has not been emitted. *)
Theorem restart_keeps_pending_poll T this sched w i d :
  this_stopped w = false ->
  agenda w !! i = Some (timer task_poll d) ->
  let w1 := (exec sched (stop >> start) w).2 in
  let w2 := turn T this sched (length (agenda w)) w1 in
  let w3 := turn T this sched i w2 in
  agenda w1 = agenda w ++ [called task_poll] /\
  events w1 = events w /\
  this_stopped w3 = false /\
  filter (fun ev => ev_name ev = "stopped") (events w3) =
    filter (fun ev => ev_name ev = "stopped") (events w) /\
  filter (fun c => is_receiveMessage c) (calls w3) =
    filter (fun c => is_receiveMessage c) (calls w)
      ++ [receiveMessage (receive_params this w1);
          receiveMessage (receive_params this w2)].
Proof.
  intros Hrun Hi w1 w2 w3.
  assert (Hw1 : w1 =
                schedule (called task_poll)
                  (set_stopped false
                     (log (Debug (dbg_text "Starting consumer"))
                        (set_stopped true
                           (log (Debug (dbg_text "Stopping consumer")) w))))).
  { subst w1. by rewrite exec_bind, exec_stop, exec_start. }
  assert (Ha1 : agenda w1 = agenda w ++ [called task_poll]) by by rewrite Hw1.
  assert (He1 : events w1 = events w) by (rewrite Hw1; by unfold_world).
  assert (Hc1 : calls w1 = calls w) by (rewrite Hw1; by unfold_world).
  assert (Hs1 : this_stopped w1 = false) by by rewrite Hw1.
  assert (Hi1 : agenda w1 !! length (agenda w) = Some (called task_poll)).
  { rewrite Ha1, lookup_app_r, Nat.sub_diag by lia. done. }
  destruct (turn_poll_running T this sched _ _ w1 Hs1 Hi1 eq_refl)
    as (Hs2 & [new Ha2] & He2 & Hc2).
  fold w2 in Hs2, Ha2, He2, Hc2.
  rewrite Ha1, delete_middle, app_nil_r in Ha2.
  assert (Hi2 : agenda w2 !! i = Some (timer task_poll d)).
  { rewrite Ha2. apply lookup_app_l_Some, Hi. }
  destruct (turn_poll_running T this sched _ _ w2 Hs2 Hi2 eq_refl)
    as (Hs3 & _ & He3 & Hc3).
  fold w3 in Hs3, He3, Hc3.
  split; [done|]. split; [done|]. split; [done|].
  split; [by rewrite He3, He2, He1|].
  by rewrite Hc3, Hc2, Hc1, <- app_assoc.
Qed.

Lemma restart_keeps_pending_poll_witness :
  let w1 := (exec [] (stop >> start) Scenario.backing_off).2 in
  let w2 := turn Sample.text Sample.consumer [] 1 w1 in
  let w3 := turn Sample.text Sample.consumer [] 0 w2 in
  agenda w1 = [timer task_poll (Some 10000); called task_poll] /\
  this_stopped w3 = false /\
  events w3 = [] /\
  filter (fun c => is_receiveMessage c) (calls w3) =
    [receiveMessage (mkReceiveParams "queue" [] [] 10 20 None);
     receiveMessage (mkReceiveParams "queue" [] [] 10 20 (Some 30))].
Proof.
  destruct (restart_keeps_pending_poll Sample.text Sample.consumer []
              Scenario.backing_off 0 (Some 10000) eq_refl eq_refl)
    as (H1 & _ & H3 & _ & H5).
  split; [exact H1|]. split; [exact H3|]. split; [reflexivity|exact H5].
Defined.

(** ** The poll loop, further *)

(** X8: When the queue has handed out messages and then fails to tell its
    attributes, [_poll] emits [error] with that failure as it is, keeps the
    visibility timeout it had, and hands the response to nobody: the
    messages received are not processed, and the next poll is set only when
    the failure is one of authentication. *)
Theorem poll_attributes_failure this sched w t response t' e :
  this_stopped w = false ->
  sqs_receiveMessage (sqs this) (calls w) (receive_params this w)
  = fulfilled t response ->
  sqs_getQueueAttributes (sqs this)
    (calls w ++ [receiveMessage (receive_params this w)]) (queueUrl this)
    ["VisibilityTimeout"] = rejected t' e ->
  exists w',
    exec sched (_poll this) w = (Resolved tt, w') /\
    events w' = events w ++ [mkEvent "error" (Some e) None] /\
    calls w' =
      calls w ++ [receiveMessage (receive_params this w);
                  getQueueAttributes (queueUrl this) ["VisibilityTimeout"]] /\
    this_visibilityTimeout w' = this_visibilityTimeout w /\
    agenda w' =
      agenda w ++
      (if isAuthenticationError e
       then [timer task_poll (Some (authenticationErrorTimeout this))]
       else []).
Proof.
  intros Hrun Hrec Hatt. rewrite exec_poll_running, Hrec, Hatt by done.
  eexists. split; [reflexivity|].
  unfold poll_failed. destruct (isAuthenticationError e); unfold_world;
    rewrite ?app_nil_r, <- ?app_assoc; done.
Qed.

Lemma poll_attributes_failure_witness :
  let this :=
    Sample.consumer_with None false false Scenario.client_attributes_fail in
  exists w',
    exec [] (_poll this) Sample.world = (Resolved tt, w') /\
    events w' = [mkEvent "error" (Some Sample.unavailable) None] /\
    calls w' = [receiveMessage (mkReceiveParams "queue" [] [] 10 20 (Some 30));
                getQueueAttributes "queue" ["VisibilityTimeout"]] /\
    this_visibilityTimeout w' = Some 30 /\
    agenda w' = [].
Proof.
  intros this.
  exact (poll_attributes_failure this [] Sample.world 5
           (Some (mkResponse (Some [Sample.first; Sample.second]))) 5
           Sample.unavailable eq_refl eq_refl eq_refl).
Defined.

Lemma validate_ok options :
  validate options = inr tt ->
  truthy_string (o_queueUrl options) = true /\
  match o_batchSize options with
  | Some b => 1 <= b <= 10
  | None => True
  end.
Proof.
  unfold validate, requiredOptions. cbn [require_each].
  unfold has_option. cbn [String.eqb Ascii.eqb Bool.eqb andb].
  destruct (truthy_string (o_queueUrl options)); [|done].
  destruct (o_handleMessage options); [|done]. cbn [negb].
  destruct (o_batchSize options) as [b|]; [|done].
  unfold gt_number, lt_number.
  destruct (10 <? b) eqn:H1; [done|]. destruct (b <? 1) eqn:H2; [done|].
  intros _. split; [done|]. lia.
Qed.

Lemma trace_poll_running this sched w :
  this_stopped w = false ->
  exists rest,
    trace (exec sched (_poll this) w).2 =
    trace w ++ Debug (dbg_text "Polling for messages")
      :: Call (receiveMessage (receive_params this w)) :: rest.
Proof.
  intros Hrun. rewrite exec_poll_running by done.
  destruct (sqs_receiveMessage _ _ _) as [|t response|t e];
    [|destruct (sqs_getQueueAttributes _ _ _ _) as [|t' v|t' e]|];
    unfold poll_failed; try destruct (isAuthenticationError _);
    cbn [snd]; unfold_world; rewrite <- ?app_assoc; cbn [app];
    first [by eexists | by exists []].
Qed.

(** X9: What [create(options).start()] asks first.  The first thing a new
    consumer does once started is one receive request: for the queue of the
    options; for as many messages as the batch size, 1 when none is given,
    and always between 1 and 10; with a waiting time that is never 0, a
    given 0 being replaced by 20 as an absent one is; and with no visibility
    timeout, the consumer not having read the queue's yet. *)
Theorem first_request T SDK env options this w0 sched :
  create SDK env options = inr (this, w0) ->
  let w1 := (exec sched start w0).2 in
  let w2 := turn T this sched 0 w1 in
  exists p rest,
    trace w2 = Debug (dbg_text "Starting consumer")
                 :: Debug (dbg_text "Polling for messages")
                 :: Call (receiveMessage p) :: rest /\
    o_queueUrl options = Some (rp_QueueUrl p) /\
    rp_MaxNumberOfMessages p = default 1 (o_batchSize options) /\
    1 <= rp_MaxNumberOfMessages p <= 10 /\
    rp_WaitTimeSeconds p <> 0 /\
    (o_waitTimeSeconds options = None \/ o_waitTimeSeconds options = Some 0 ->
     rp_WaitTimeSeconds p = 20) /\
    (forall n, o_waitTimeSeconds options = Some n -> n <> 0 ->
               rp_WaitTimeSeconds p = n) /\
    rp_VisibilityTimeout p = None.
Proof.
  intros Hc w1 w2. unfold create, constructor in Hc.
  destruct (validate options) as [e|[]] eqn:Hv; [done|].
  destruct (o_handleMessage options) as [handler|]; [|done].
  apply validate_ok in Hv as [Hq Hb].
  injection Hc as <- <-.
  set (this := mkConsumer _ _ _ _ _ _ _ _ _ _ _) in *.
  subst w2 w1. rewrite exec_start. cbn [this_stopped snd].
  set (w1 := schedule _ _).
  destruct (trace_poll_running this sched (set_agenda [] w1) eq_refl)
    as [rest Hrest].
  exists (receive_params this (set_agenda [] w1)), rest.
  split.
  { unfold turn. change (agenda w1 !! 0%nat) with (Some (called task_poll)).
    cbn [task_of body delete]. change (delete 0%nat (agenda w1)) with (@nil Scheduled).
    destruct (exec sched (_poll this) (set_agenda [] w1)) as [[[]|e|] w'];
      exact Hrest. }
  cbn [receive_params rp_QueueUrl rp_MaxNumberOfMessages rp_WaitTimeSeconds
       rp_VisibilityTimeout this queueUrl batchSize waitTimeSeconds].
  split.
  { destruct (o_queueUrl options); [done|discriminate]. }
  assert (Hbs : or_number (o_batchSize options) 1 = default 1 (o_batchSize options)).
  { destruct (o_batchSize options) as [b|]; [|done]. simpl.
    destruct (b =? 0) eqn:H0; [lia|done]. }
  split; [done|].
  split.
  { rewrite Hbs. destruct (o_batchSize options); simpl; lia. }
  split.
  { destruct (o_waitTimeSeconds options) as [n|]; simpl; [|done].
    destruct (n =? 0) eqn:H0; lia. }
  split.
  { intros [->| ->]; done. }
  split; [|done].
  intros n -> Hn. simpl. destruct (n =? 0) eqn:H0; [lia|done].
Qed.

Lemma first_request_witness :
  let w1 := (exec [] start (mkWorld [] ∅ true None [] [])).2 in
  let w2 := turn Sample.text
              (mkConsumer "queue" Sample.handler None [] [] 10 false false 20
                 10000 Sample.client) [] 0 w1 in
  exists p rest,
    trace w2 = Debug (dbg_text "Starting consumer")
                 :: Debug (dbg_text "Polling for messages")
                 :: Call (receiveMessage p) :: rest /\
    rp_MaxNumberOfMessages p = 10 /\
    rp_WaitTimeSeconds p = 20 /\
    rp_VisibilityTimeout p = None.
Proof.
  destruct (first_request Sample.text (fun _ => Sample.client) None
              Sample.options _ _ [] eq_refl)
    as (p & rest & H1 & _ & H3 & _ & _ & H6 & _ & H8).
  exists p, rest. split; [exact H1|]. split; [exact H3|].
  split; [apply H6; by left|exact H8].
Defined.

(** *** Pending work *)

Lemma list_find_last (sel : Task -> bool) others s :
  Forall (fun s' => sel (task_of s') = false) others ->
  sel (task_of s) = true ->
  list_find (fun s => sel (task_of s) = true) (others ++ [s])
  = Some (length others, s).
Proof.
  intros Hothers Hs. apply list_find_Some. split; [|split; [done|]].
  - by rewrite lookup_app_r, Nat.sub_diag by lia.
  - intros j y Hj Hlt. rewrite lookup_app_l in Hj by done.
    rewrite Forall_forall in Hothers.
    apply list_elem_of_lookup_2 in Hj. rewrite (Hothers _ Hj). done.
Qed.

Lemma turn_last T this sched others s w :
  agenda w = others ++ [s] ->
  turn T this sched (length others) w =
  match exec sched (body T this (task_of s)) (set_agenda others w) with
  | (Rejected e, w') => report_unhandled e w'
  | (_, w') => w'
  end.
Proof.
  intros Ha. unfold turn. rewrite Ha, lookup_app_r, Nat.sub_diag by lia.
  cbn [lookup list_lookup]. rewrite delete_middle, app_nil_r.
  by destruct (exec sched _ _) as [[[]|e|] w'].
Qed.

Lemma run_next_last T this sched sel others s w :
  next_is sel s others w ->
  sel (task_of s) = true ->
  run_next T this sched sel w =
  match exec sched (body T this (task_of s)) (set_agenda others w) with
  | (Rejected e, w') => report_unhandled e w'
  | (_, w') => w'
  end.
Proof.
  intros [Ha Hothers] Hs. unfold run_next.
  rewrite Ha, list_find_last by done. by apply turn_last.
Qed.

Lemma exec_handleSqsResponse_none T this sched w :
  exec sched (_handleSqsResponse T this None) w =
  (Resolved tt,
   schedule (called task_poll)
     (log (Debug (dbg_response None))
        (log (Debug (dbg_text "Received SQS response")) w))).
Proof.
  unfold _handleSqsResponse.
  by rewrite exec_bind, exec_debug, exec_bind, exec_debug.
Qed.

(** One round of the loop on an idle queue. *)
Lemma idle_round T this sched others s w :
  idle_queue this ->
  this_stopped w = false ->
  next_is loop_task s others w ->
  task_of s = task_poll ->
  let w' := loop_round T this sched w in
  this_stopped w' = false /\
  next_is loop_task (called task_poll) others w' /\
  (exists round, shown w' = shown w ++ idle_round_shown this round) /\
  unhandled w' = unhandled w.
Proof.
  intros [Hrec Hatt] Hrun Hnext Hs w'. subst w'. unfold loop_round.
  pose proof Hnext as [Ha Hothers].
  rewrite (run_next_last _ _ _ _ others s w) by (by rewrite ?Hs).
  rewrite Hs. cbn [body]. rewrite exec_poll_running by done.
  destruct (Hrec (calls (set_agenda others w))
              (receive_params this (set_agenda others w)))
    as (t & r & -> & Hr).
  destruct (Hatt (calls (set_agenda others w)
                    ++ [receiveMessage (receive_params this (set_agenda others w))])
              (queueUrl this) ["VisibilityTimeout"]) as (t' & v & ->).
  set (w1 := schedule _ _).
  assert (Hn1 : next_is loop_task (called (task_handleSqsResponse r)) others w1).
  { split; [done|exact Hothers]. }
  rewrite (run_next_last _ _ _ _ others _ w1 Hn1) by done.
  cbn [task_of body].
  destruct r as [response|].
  - rewrite exec_handleSqsResponse_empty
      by (by apply negb_true_iff in Hr).
    split; [done|]. split; [by split|]. split; [|done].
    exists (receive_params this (set_agenda others w), true).
    subst w1. unfold shown. unfold_world.
    by rewrite !filter_app, <- !app_assoc.
  - rewrite exec_handleSqsResponse_none.
    split; [done|]. split; [by split|]. split; [|done].
    exists (receive_params this (set_agenda others w), false).
    subst w1. unfold shown. unfold_world.
    by rewrite !filter_app, <- !app_assoc.
Qed.

(** X10: On an idle queue that answers, the loop of a running consumer goes
    on, one poll pending at a time.  After any number [n] of rounds, each a
    poll and the handling of what it received, the consumer still runs and
    exactly one poll is pending, whatever other work was pending being
    untouched; what the consumer has shown is, round after round, a receive
    request, then the attributes request, then [empty] at most once, and
    nothing else; and no rejection has been left unhandled. *)
Theorem idle_loop_goes_on T this sched n :
  idle_queue this ->
  forall w others s,
    this_stopped w = false ->
    next_is loop_task s others w ->
    task_of s = task_poll ->
    let w' := Nat.iter n (loop_round T this sched) w in
    this_stopped w' = false /\
    (exists s', next_is loop_task s' others w' /\ task_of s' = task_poll) /\
    (exists rounds,
       length rounds = n /\
       shown w' = shown w ++ flat_map (idle_round_shown this) rounds) /\
    unhandled w' = unhandled w.
Proof.
  intros Hidle w others s Hrun Hnext Hs.
  induction n as [|n IH]; intros w'; subst w'; cbn [Nat.iter].
  - split; [done|]. split; [by exists s|].
    split; [exists []; by rewrite app_nil_r|done].
  - cbv zeta in IH. rewrite !Nat.iter_succ.
    destruct IH as (Hrun' & (s' & Hnext' & Hs') & (rounds & Hlen & Hshown) & Hun).
    destruct (idle_round T this sched others s' _ Hidle Hrun' Hnext' Hs')
      as (H1 & H2 & [round H3] & H5).
    split; [done|]. split; [by eexists|].
    split; [|by rewrite H5].
    exists (rounds ++ [round]). split; [rewrite length_app; simpl; lia|].
    rewrite H3, Hshown, flat_map_app, <- app_assoc. simpl.
    by rewrite app_nil_r.
Qed.

Lemma idle_loop_goes_on_witness :
  let w' :=
    Nat.iter 2 (loop_round Sample.text Scenario.idle []) Scenario.polling in
  let first_time := mkReceiveParams "queue" [] [] 10 20 None in
  let later := mkReceiveParams "queue" [] [] 10 20 (Some 30) in
  let attributes := getQueueAttributes "queue" ["VisibilityTimeout"] in
  idle_queue Scenario.idle /\
  this_stopped w' = false /\
  agenda w' = [called task_poll] /\
  shown w' =
    [Call (receiveMessage first_time); Call attributes;
     Emit (mkEvent "empty" None None);
     Call (receiveMessage later); Call attributes;
     Emit (mkEvent "empty" None None)].
Proof.
  assert (Hidle : idle_queue Scenario.idle).
  { split; [intros h p|intros h q a]; by do 2 eexists. }
  assert (Hnext : next_is loop_task (called task_poll) [] Scenario.polling).
  { split; [done|constructor]. }
  destruct (idle_loop_goes_on Sample.text Scenario.idle [] 2 Hidle
              Scenario.polling [] (called task_poll) eq_refl Hnext eq_refl)
    as (H1 & _ & _ & _).
  split; [exact Hidle|]. split; [exact H1|].
  split; reflexivity.
Defined.

(** One poll against a queue that refuses it. *)
Lemma refused_poll T this sched others s w :
  refuses_receive this ->
  this_stopped w = false ->
  next_is loop_task s others w ->
  task_of s = task_poll ->
  let w' := run_next T this sched loop_task w in
  this_stopped w' = false /\
  next_is loop_task (timer task_poll (Some (authenticationErrorTimeout this)))
    others w' /\
  (exists ev, events w' = events w ++ [ev] /\ refusal ev) /\
  (exists p, calls w' = calls w ++ [receiveMessage p]) /\
  unhandled w' = unhandled w.
Proof.
  intros Href Hrun Hnext Hs w'. subst w'.
  pose proof Hnext as [Ha Hothers].
  rewrite (run_next_last _ _ _ _ others s w) by (by rewrite ?Hs).
  rewrite Hs. cbn [body]. rewrite exec_poll_running by done.
  destruct (Href (calls (set_agenda others w))
              (receive_params this (set_agenda others w)))
    as (t & e & -> & Hauth).
  unfold poll_failed, receive_failure.
  rewrite isAuthenticationError_toSQSError, Hauth. unfold_world.
  split; [done|]. split; [by split|].
  split; [|split; [by eexists|done]].
  eexists. split; [done|]. split; [done|]. split; [done|].
  eexists. split; [done|]. split; [done|].
  by rewrite isAuthenticationError_toSQSError.
Qed.

(** X11: Against a queue that refuses every receive request for want of
    authentication, the loop of a running consumer goes on.  After any
    number [n] of polls the consumer still runs, the queue has been asked
    [n] times, [n] [error] events have been emitted, each with the
    [SQSError] of a refusal and no message, and, once a poll has been made,
    exactly one poll is pending: on a timer of [authenticationErrorTimeout]
    milliseconds. *)
Theorem refused_loop_goes_on T this sched n :
  refuses_receive this ->
  forall w others s,
    this_stopped w = false ->
    next_is loop_task s others w ->
    task_of s = task_poll ->
    let w' := Nat.iter n (run_next T this sched loop_task) w in
    this_stopped w' = false /\
    (n <> 0%nat ->
     agenda w' =
       others ++ [timer task_poll (Some (authenticationErrorTimeout this))]) /\
    (exists evs,
       events w' = events w ++ evs /\ length evs = n /\ Forall refusal evs) /\
    (exists cs,
       calls w' = calls w ++ cs /\ length cs = n /\
       Forall (fun c => is_receiveMessage c = true) cs) /\
    unhandled w' = unhandled w.
Proof.
  intros Href w others s Hrun Hnext Hs w'.
  assert (H : this_stopped w' = false /\
    (exists s', next_is loop_task s' others w' /\ task_of s' = task_poll /\
       (n <> 0%nat ->
        s' = timer task_poll (Some (authenticationErrorTimeout this)))) /\
    (exists evs,
       events w' = events w ++ evs /\ length evs = n /\ Forall refusal evs) /\
    (exists cs,
       calls w' = calls w ++ cs /\ length cs = n /\
       Forall (fun c => is_receiveMessage c = true) cs) /\
    unhandled w' = unhandled w).
  { subst w'. induction n as [|n IH].
    - cbn [Nat.iter nat_rect]. split; [done|].
      split; [exists s; split; [done|split; [done|by intros []]]|].
      split; [exists []; by rewrite app_nil_r|].
      split; [exists []; by rewrite app_nil_r|done].
    - rewrite Nat.iter_succ.
      destruct IH as (Hrun' & (s' & Hnext' & Hs' & _)
                      & (evs & Hevs & Hlen & Hall) & (cs & Hcs & Hlc & Hrecv) & Hun).
      destruct (refused_poll T this sched others s' _ Href Hrun' Hnext' Hs')
        as (H1 & H2 & (ev & H3 & Hev) & (p & H4) & H5).
      split; [done|]. split; [by eexists|].
      split; [|split; [|by rewrite H5]].
      + exists (evs ++ [ev]). rewrite H3, Hevs, <- app_assoc.
        split; [done|]. split; [rewrite length_app; simpl; lia|].
        apply Forall_app. split; [done|by constructor].
      + exists (cs ++ [receiveMessage p]). rewrite H4, Hcs, <- app_assoc.
        split; [done|]. split; [rewrite length_app; simpl; lia|].
        apply Forall_app. split; [done|by constructor]. }
  destruct H as (H1 & (s' & [Ha _] & _ & Hs') & H3 & H4 & H5).
  split; [done|]. split; [|done].
  intros Hn. by rewrite Ha, Hs'.
Qed.

Lemma refused_loop_goes_on_witness :
  let w' := Nat.iter 3 (run_next Sample.text Scenario.refused [] loop_task)
              Scenario.polling in
  refuses_receive Scenario.refused /\
  this_stopped w' = false /\
  agenda w' = [timer task_poll (Some 10000)] /\
  length (events w') = 3%nat /\
  length (calls w') = 3%nat.
Proof.
  assert (Href : refuses_receive Scenario.refused).
  { intros h p. by exists 5, Sample.denied. }
  assert (Hnext : next_is loop_task (called task_poll) [] Scenario.polling).
  { split; [done|constructor]. }
  destruct (refused_loop_goes_on Sample.text Scenario.refused [] 3 Href
              Scenario.polling [] (called task_poll) eq_refl Hnext eq_refl)
    as (H1 & H2 & _).
  split; [exact Href|]. split; [exact H1|].
  split; [apply H2; discriminate|]. split; reflexivity.
Defined.

(** ** One message, further *)

Lemma trace_set_finishedProcessing m b w :
  trace (set_finishedProcessing m b w) = trace w.
Proof. reflexivity. Qed.

Lemma trace_set_message_visibilityTimeout m v w :
  trace (set_message_visibilityTimeout m v w) = trace w.
Proof. reflexivity. Qed.

Lemma calls_of_Emit ev l : calls_of (Emit ev :: l) = calls_of l.
Proof. reflexivity. Qed.

Lemma calls_of_Debug d l : calls_of (Debug d :: l) = calls_of l.
Proof. reflexivity. Qed.

Lemma calls_of_Call c l : calls_of (Call c :: l) = c :: calls_of l.
Proof. reflexivity. Qed.

Ltac list_assoc :=
  repeat first [rewrite <- app_assoc | rewrite <- app_comm_cons | rewrite app_nil_l].

(** What [_processMessage] leaves in the trace, by the outcome of the
    handler and of the delete request. *)
Lemma trace_processMessage T this m sched w :
  let h := calls w ++ extension_calls this m w in
  trace (exec sched (_processMessage T this m) w).2 =
  trace w ++ Emit (received m) :: map Call (extension_calls this m w) ++
  match awaited T this m with
  | forever => []
  | rejected _ e =>
      Emit (failure_event m (rethrown this e)) :: release_actions this m h
  | fulfilled _ _ =>
      Debug (dbg_deleting (MessageId m))
      :: Call (deleteMessage (queueUrl this) (ReceiptHandle m))
      :: match sqs_deleteMessage (sqs this) h (queueUrl this)
                 (ReceiptHandle m) with
         | forever => []
         | fulfilled _ _ => [Emit (processed m)]
         | rejected _ e =>
             Emit (failure_event m (delete_failure e))
             :: release_actions this m
                  (h ++ [deleteMessage (queueUrl this) (ReceiptHandle m)])
         end
  end.
Proof.
  intros h. rewrite exec_processMessage. fold (attempt T this m).
  rewrite exec_attempt, calls_log_Emit, extension_calls_log. fold h.
  destruct (awaited T this m) as [|t []|t e]; cbn [snd].
  - by rewrite trace_entered_received, app_nil_r.
  - destruct (sqs_deleteMessage _ _ _ _) as [|t' []|t' e]; cbn [snd].
    + rewrite !trace_log, trace_entered_received. by list_assoc.
    + rewrite !trace_log, trace_entered_received. by list_assoc.
    + rewrite trace_recovered, !trace_log, calls_log_Call, calls_log_Debug,
        calls_entered_received, trace_entered_received. subst h.
      by list_assoc.
  - rewrite trace_recovered, trace_set_finishedProcessing,
      calls_set_finishedProcessing, calls_entered_received,
      trace_entered_received. by list_assoc.
Qed.

Lemma race2_handler_fails_in_time (p : Promise unit) (t d : Z)
    (e e' : JsError) :
  p = rejected t e -> t < d -> race2 p (rejected d e') = rejected t e.
Proof.
  intros -> Ht. unfold race2. simpl. destruct (Z.ltb_spec t d); [done|lia].
Qed.

Lemma awaited_fails_in_time T this m t e :
  handleMessage this m = rejected t e ->
  (forall d, handleMessageTimeout this = Some d -> d <> 0 -> t < timer_delay d) ->
  awaited T this m = rejected t e.
Proof.
  intros Hh Hd. unfold awaited.
  destruct (handleMessageTimeout this) as [d|] eqn:Hb; simpl; [|done].
  destruct (d =? 0) eqn:H0; simpl; [done|].
  apply race2_handler_fails_in_time; [done|]. apply Hd; [done|lia].
Qed.

(** X12: A failure of the handler.  When the handler's promise is rejected
    with an error [e] that is neither a [TimeoutError] nor named [SQSError],
    [_processMessage] emits, after [message_received], one
    [processing_error] carrying the message and [e] with its text prefixed
    by "Unexpected message handler failure: "; it asks for no deletion; only
    the release of the message follows, and the call is not rejected.  If a
    budget [d] is set the handler is to fail before the deadline's timer
    fires: within [d] milliseconds when [d] is a delay a timer takes (1 to
    2^31-1), within 1 millisecond when it is not. *)
Theorem processMessage_handler_failure T this m sched w t e :
  handleMessage this m = rejected t e ->
  (forall d, handleMessageTimeout this = Some d -> d <> 0 -> t < timer_delay d) ->
  err_class e <> Class_TimeoutError ->
  err_name e <> "SQSError" ->
  let err := set_message e ("Unexpected message handler failure: "
                              +:+ err_message e) in
  let run := exec sched (_processMessage T this m) w in
  trace run.2 =
    trace w ++ Emit (received m) :: map Call (extension_calls this m w)
      ++ Emit (mkEvent "processing_error" (Some err) (Some m))
         :: release_actions this m (calls w ++ extension_calls this m w) /\
  filter (fun c => is_deleteMessage c) (calls run.2) =
    filter (fun c => is_deleteMessage c) (calls w) /\
  (forall e', run.1 <> Rejected e').
Proof.
  intros Hh Hd Hclass Hname err run.
  assert (Hre : rethrown this e = err).
  { unfold rethrown, instanceof_TimeoutError.
    by destruct (err_class e). }
  assert (Hfe : failure_event m err = mkEvent "processing_error" (Some err) (Some m)).
  { unfold failure_event, failure_name, instanceof_TimeoutError, err. simpl.
    apply String.eqb_neq in Hname. unfold SQSError_name. rewrite Hname.
    by destruct (err_class e). }
  assert (Htr : trace run.2 =
    trace w ++ Emit (received m) :: map Call (extension_calls this m w)
      ++ Emit (mkEvent "processing_error" (Some err) (Some m))
         :: release_actions this m (calls w ++ extension_calls this m w)).
  { subst run. rewrite trace_processMessage.
    by rewrite (awaited_fails_in_time T this m t e Hh Hd), Hre, Hfe. }
  split; [exact Htr|]. split.
  - unfold calls.
    rewrite Htr, calls_of_app, calls_of_Emit, calls_of_app, calls_of_map_Call,
      calls_of_Emit.
    rewrite !filter_app, filter_deleteMessage_extension,
      filter_deleteMessage_release. by rewrite !app_nil_r.
  - intros e'. apply processMessage_never_rejected.
Qed.

Lemma processMessage_handler_failure_witness :
  let this :=
    mkConsumer "queue" (handleMessage Scenario.failing) (Some 50) [] [] 10
               true true 20 10000 Sample.client in
  let run :=
    exec [] (_processMessage Sample.text this Sample.second) Sample.world in
  handleMessage this Sample.second = rejected 20 Sample.boom /\
  20 < timer_delay 50 /\
  trace run.2 =
    [Emit (received Sample.second);
     Call (changeMessageVisibility "queue" "receipt-2" (Some 60));
     Emit (mkEvent "processing_error"
             (Some (plain_Error "Unexpected message handler failure: boom"))
             (Some Sample.second));
     Call (changeMessageVisibility "queue" "receipt-2" (Some 0))] /\
  filter (fun c => is_deleteMessage c) (calls run.2) = [].
Proof.
  intros this run.
  assert (Hd : forall d, handleMessageTimeout this = Some d ->
                         d <> 0 -> 20 < timer_delay d)
    by (intros d [= <-] _; reflexivity).
  assert (Hc : err_class Sample.boom <> Class_TimeoutError) by discriminate.
  assert (Hn : err_name Sample.boom <> "SQSError") by discriminate.
  destruct (processMessage_handler_failure Sample.text this
              Sample.second [] Sample.world 20 Sample.boom eq_refl Hd Hc Hn)
    as (H1 & H2 & _).
  split; [reflexivity|]. split; [reflexivity|]. split; [exact H1|exact H2].
Defined.

(** X13: A message is deleted only once handled.  [_processMessage] asks the
    queue to delete the message, once and with the message's receipt handle,
    exactly when the promise it awaits for the handler (the handler's, raced
    against the deadline if one is set) is fulfilled; when that promise is
    rejected or never settles, no deletion is asked, whatever else fails. *)
Theorem delete_only_after_success T this m sched w :
  filter (fun c => is_deleteMessage c)
         (calls (exec sched (_processMessage T this m) w).2) =
  filter (fun c => is_deleteMessage c) (calls w) ++
  match awaited T this m with
  | fulfilled _ _ => [deleteMessage (queueUrl this) (ReceiptHandle m)]
  | _ => []
  end.
Proof.
  unfold calls. rewrite trace_processMessage.
  rewrite calls_of_app, calls_of_Emit, calls_of_app, calls_of_map_Call.
  rewrite !filter_app, filter_deleteMessage_extension. cbn [app].
  f_equal.
  destruct (awaited T this m) as [|t []|t e].
  - done.
  - rewrite calls_of_Debug, calls_of_Call, filter_cons.
    rewrite decide_True by done. f_equal.
    destruct (sqs_deleteMessage _ _ _ _) as [|t' []|t' e]; try done.
    by rewrite calls_of_Emit, filter_deleteMessage_release.
  - by rewrite calls_of_Emit, filter_deleteMessage_release.
Qed.

(** ** A batch, further *)

Lemma seg_bind {A B : Type} (p : Async A) (f : A -> Async B) w :
  seg (bind p f) w =
  match seg p w with
  | (settled (inr a), w') => seg (f a) w'
  | (settled (inl e), w') => (settled (inl e), w')
  | (waiting k, w') => (waiting (bind k f), w')
  | (hung, w') => (hung, w')
  end.
Proof.
  revert f w. induction p as [A a|A e|A k IH|A g k IH|A k IH|A|A cs k IH];
    intros f w; cbn [bind seg]; auto.
Qed.

Lemma seg_try_catch {A : Type} (p : Async A) (h : JsError -> Async A) w :
  seg (try_catch p h) w =
  match seg p w with
  | (settled (inr a), w') => (settled (inr a), w')
  | (settled (inl e), w') => seg (h e) w'
  | (waiting k, w') => (waiting (try_catch k h), w')
  | (hung, w') => (hung, w')
  end.
Proof.
  revert h w. induction p as [A a|A e|A k IH|A g k IH|A k IH|A|A cs k IH];
    intros h w; cbn [try_catch seg]; auto.
Qed.

(** A round of extension awaits nothing. *)
Lemma seg_extendTimeout this m w :
  (seg (extendTimeout this m) w).1 = settled (inr tt).
Proof.
  unfold extendTimeout. cbn [bind get_world seg].
  destruct (finishedProcessing (fields m w)) as [[]|]; [done| |];
    cbn [modify bind seg request];
    by destruct (sqs_changeMessageVisibility _ _ _ _ _).
Qed.

(** With a handler that never settles and no deadline that does, a call
    of [_processMessage] waits for ever from its first turn. *)
Lemma seg_processMessage_hung T this m w :
  awaited T this m = forever ->
  (seg (_processMessage T this m) w).1 = hung.
Proof.
  intros Haw. unfold _processMessage.
  rewrite seg_bind. cbn [emit modify seg].
  rewrite seg_try_catch, seg_bind.
  unfold _executeHandler, try_finally.
  rewrite seg_bind, seg_try_catch, seg_try_catch.
  rewrite seg_bind. cbn [modify seg].
  rewrite seg_bind. cbn [get_world seg].
  rewrite seg_bind. cbn [modify seg].
  rewrite seg_bind.
  set (w1 := set_message_visibilityTimeout _ _ _).
  assert (Hext : exists w2,
    seg (if extendVisibilityTimeout this then extendTimeout this m else Ret tt) w1
    = (settled (inr tt), w2)).
  { destruct (extendVisibilityTimeout this); [|by eexists].
    pose proof (seg_extendTimeout this m w1) as H.
    destruct (seg (extendTimeout this m) w1) as [t w2]. simpl in H. subst t.
    by eexists. }
  destruct Hext as [w2 ->].
  assert (Hawait :
    (if truthy_number (handleMessageTimeout this)
     then await (Promise_race
                   [handleMessage this m;
                    snd (createTimeout T (default 0 (handleMessageTimeout this)))])
     else await (handleMessage this m)) = Never).
  { unfold awaited in Haw.
    destruct (truthy_number (handleMessageTimeout this)); by rewrite Haw. }
  rewrite Hawait. done.
Qed.

Lemma start_all_lookup {M : Type} (f : M -> Async unit) msgs :
  forall w i m,
    msgs !! i = Some m ->
    exists w', (start_all (map f msgs) w).1 !! i = Some (seg (f m) w').1.
Proof.
  induction msgs as [|m0 msgs IH]; intros w i m Hi; [done|].
  cbn [map start_all].
  destruct (seg (f m0) w) as [t w1] eqn:Hseg.
  destruct (start_all (map f msgs) w1) as [ts w2] eqn:Hst.
  destruct i as [|i]; simpl in Hi.
  - injection Hi as <-. exists w. by rewrite Hseg.
  - destruct (IH w1 i m Hi) as [w' Hw']. exists w'.
    rewrite Hst in Hw'. exact Hw'.
Qed.

(** A pool with a call that waits for ever is never resolved. *)
Lemma join_hung_in sched :
  forall pool w i,
    pool !! i = Some hung ->
    (join sched pool w).1 <> Resolved tt.
Proof.
  induction sched as [|j sched IH]; intros pool w i Hi; cbn [join].
  - destruct (first_rejection pool); [done|].
    destruct (forallb is_settled pool) eqn:Hall; [|done].
    rewrite forallb_forall in Hall.
    apply list_elem_of_lookup_2, list_elem_of_In, Hall in Hi. done.
  - destruct (first_rejection pool); [done|].
    destruct (forallb is_settled pool) eqn:Hall.
    { rewrite forallb_forall in Hall.
      apply list_elem_of_lookup_2, list_elem_of_In, Hall in Hi. done. }
    destruct (pool !! j) as [[r|k|]|] eqn:Hj; try by eapply IH.
    destruct (seg k w) as [t w'].
    apply (IH _ _ i). rewrite list_lookup_insert_ne; [done|].
    intros ->. congruence.
Qed.

Lemma keeps_pending_loop_schedule s :
  loop_task (task_of s) = false -> keeps pending_loop (schedule s).
Proof.
  intros Hs w. unfold pending_loop. rewrite agenda_schedule, filter_app.
  rewrite filter_cons, decide_False by (by rewrite Hs).
  by rewrite filter_nil, app_nil_r.
Qed.

Lemma keeps_pending_loop_processMessage T this m :
  writes (keeps pending_loop) (_processMessage T this m).
Proof.
  apply (writes_processMessage _ T this (fun _ => True)); try done.
  intros s Hs. by apply keeps_pending_loop_schedule.
Qed.

Lemma hasMessages_elem response msgs (m : Message) :
  Messages response = Some msgs -> m ∈ msgs -> hasMessages response = true.
Proof.
  intros Hr Hm. unfold hasMessages. rewrite Hr.
  destruct msgs; [by apply elem_of_nil in Hm|]. simpl. apply Z.ltb_lt. lia.
Qed.

Lemma hasMessages_Some response :
  hasMessages response = true -> exists msgs, Messages response = Some msgs.
Proof. unfold hasMessages. destruct (Messages response); [by eexists|done]. Qed.

(** X14: With no deadline set, one handler that never settles holds the
    whole batch: under every schedule [_handleSqsResponse] stays pending; it
    emits no [response_processed] and calls no next poll, whatever becomes
    of the other messages of the batch. *)
Theorem unsettled_handler_blocks_batch T this sched response msgs m w :
  Messages response = Some msgs ->
  m ∈ msgs ->
  handleMessage this m = forever ->
  truthy_number (handleMessageTimeout this) = false ->
  let run := exec sched (_handleSqsResponse T this (Some response)) w in
  run.1 = Pending /\
  filter (fun ev => ev_name ev = "response_processed") (events run.2) =
    filter (fun ev => ev_name ev = "response_processed") (events w) /\
  pending_loop run.2 = pending_loop w.
Proof.
  intros Hr Hm Hh Hb run. subst run.
  assert (Haw : awaited T this m = forever) by by rewrite awaited_no_budget.
  rewrite (exec_handleSqsResponse_batch T this sched response msgs)
    by eauto using hasMessages_elem.
  cbv zeta. set (w0 := log _ (log _ w)).
  destruct (start_all_ok True T this msgs (or_introl I) w0)
    as (evs1 & Hev1 & Hpm1 & _ & Hok).
  pose proof (keeps_start_all pending_loop (map (_processMessage T this) msgs))
    as Hk1.
  ospecialize (Hk1 _ w0).
  { apply Forall_map, Forall_true. intros m'.
    apply keeps_pending_loop_processMessage. }
  destruct Hk1 as [Hk1 Hk2].
  apply list_elem_of_lookup_1 in Hm as [i Hi].
  destruct (start_all_lookup (_processMessage T this) msgs w0 i m Hi)
    as [wi Hhung].
  rewrite seg_processMessage_hung in Hhung by done.
  destruct (start_all (map (_processMessage T this) msgs) w0) as [pool w1].
  cbn [fst snd] in *.
  destruct (join_safe True msgs sched pool w1 evs1 Hok) as (evs2 & Hev2 & Hcl2 & Hres).
  pose proof (join_hung_in sched pool w1 i Hhung) as Hnot.
  pose proof (keeps_join pending_loop sched pool w1 Hk2) as Hk3.
  destruct (join sched pool w1) as [[[]|e|] w2]; cbn [fst snd] in *; try done.
  split; [done|]. split.
  - rewrite Hev2, Hev1. subst w0. rewrite !events_log_Debug, !filter_app.
    rewrite (filter_response_processed msgs evs1) by done.
    rewrite (filter_name_closing_of msgs evs2)
      by (done || apply not_closing_response_processed).
    by rewrite !app_nil_r.
  - by rewrite Hk3, Hk1.
Qed.

Lemma unsettled_handler_blocks_batch_witness :
  let batch := mkResponse (Some [Sample.first; Sample.second]) in
  let run := exec [0; 1; 0; 1; 0; 1]%nat
               (_handleSqsResponse Sample.text Scenario.stuck (Some batch))
               Sample.world in
  run.1 = Pending /\
  events run.2 = [received Sample.first; received Sample.second] /\
  agenda run.2 = [].
Proof.
  assert (Hin : Sample.second ∈ [Sample.first; Sample.second])
    by (apply list_elem_of_further, list_elem_of_here).
  destruct (unsettled_handler_blocks_batch Sample.text Scenario.stuck
              [0; 1; 0; 1; 0; 1]%nat
              (mkResponse (Some [Sample.first; Sample.second]))
              [Sample.first; Sample.second] Sample.second Sample.world
              eq_refl Hin eq_refl eq_refl) as (H1 & _ & _).
  split; [exact H1|]. split; reflexivity.
Defined.

Lemma keeps_object_at_set_fields a m p :
  addr m <> a -> keeps (object_at a) (set_fields m p).
Proof. intros Hm w. unfold object_at. simpl. by rewrite lookup_insert_ne. Qed.

Lemma keeps_object_at_body T this t a :
  a ∉ map addr (task_messages t) ->
  writes (keeps (object_at a)) (body T this t).
Proof.
  intros Ha.
  assert (Hfin : forall m b, addr m <> a ->
            keeps (object_at a) (set_finishedProcessing m b))
    by (intros m b Hm w; by apply (keeps_object_at_set_fields a m)).
  assert (Hvis : forall m v, addr m <> a ->
            keeps (object_at a) (set_message_visibilityTimeout m v))
    by (intros m v Hm w; by apply (keeps_object_at_set_fields a m)).
  destruct t as [|response|m|m]; cbn [body].
  - by apply writes_poll.
  - apply (writes_handleSqsResponse _ T this (fun m => addr m <> a)); try done.
    intros r msgs -> Hr. simpl in Ha. rewrite Hr in Ha. simpl in Ha.
    apply Forall_forall. intros m Hm Heq. apply Ha.
    apply list_elem_of_fmap. by exists m.
  - apply (writes_extendTimeout _ this (fun m => addr m <> a)); try done.
    intros Heq. apply Ha. simpl. rewrite Heq. apply list_elem_of_here.
  - by apply writes_extendTimeout_then.
Qed.

(** X15: A piece of scheduled work writes the processing fields
    ([finishedProcessing], [visibilityTimeout]) of its own messages only:
    those of the response it handles, or the one whose timeout it extends; a
    poll writes none.  The fields of every other message object are after
    the work what they were before. *)
Theorem work_touches_own_messages T this sched i s w a :
  agenda w !! i = Some s ->
  a ∉ map addr (task_messages (task_of s)) ->
  object_at a (turn T this sched i w) = object_at a w.
Proof.
  intros Hi Ha. unfold turn. rewrite Hi.
  pose proof (keeps_exec (object_at a) sched (body T this (task_of s))
                (keeps_object_at_body T this (task_of s) a Ha)
                (set_agenda (delete i (agenda w)) w)) as H.
  destruct (exec sched _ _) as [[[]|e|] w']; exact H.
Qed.

Lemma work_touches_own_messages_witness :
  let batch := mkResponse (Some [Sample.first]) in
  let earlier := mkProcessing (Some false) (Some 60) in
  let w := mkWorld [] {[ 2%nat := earlier ]} false (Some 30)
             [called (task_handleSqsResponse (Some batch))] [] in
  let w' := turn Sample.text Sample.consumer [0; 0; 0]%nat 0 w in
  events w' = [received Sample.first; processed Sample.first;
               mkEvent "response_processed" None None] /\
  object_at 1 w' = Some (mkProcessing (Some false) (Some 30)) /\
  object_at 2 w' = Some earlier.
Proof.
  intros batch earlier w w'.
  assert (Ha : 2%nat ∉ map addr (task_messages (task_handleSqsResponse (Some batch)))).
  { simpl. intros [H|H]%elem_of_cons; [discriminate|by apply elem_of_nil in H]. }
  pose proof (work_touches_own_messages Sample.text Sample.consumer
                [0; 0; 0]%nat 0 _ w 2%nat eq_refl Ha) as H.
  split; [reflexivity|]. split; [reflexivity|exact H].
Defined.

Lemma asked_only_refl ok w : asked_only ok w w.
Proof. exists []. by rewrite app_nil_r. Qed.

Lemma asked_only_trans ok w1 w2 w3 :
  asked_only ok w1 w2 -> asked_only ok w2 w3 -> asked_only ok w1 w3.
Proof.
  intros (cs1 & H1 & Hok1) (cs2 & H2 & Hok2). exists (cs1 ++ cs2).
  rewrite H2, H1, <- app_assoc. split; [done|]. by apply Forall_app.
Qed.

Lemma asked_only_same ok (f : World -> World) :
  (forall w, calls (f w) = calls w) -> steps (asked_only ok) f.
Proof. intros Hf w. exists []. by rewrite Hf, app_nil_r. Qed.

Lemma asked_only_call ok c :
  ok c -> steps (asked_only ok) (log (Call c)).
Proof.
  intros Hc w. exists [c]. rewrite calls_log_Call. split; [done|].
  by constructor.
Qed.

Lemma handleSqsResponse_asks T this (response : option Response) :
  let msgs := default [] (response ≫= Messages) in
  writes (steps (asked_only (deletes_handled T this msgs)))
         (_handleSqsResponse T this response).
Proof.
  intros msgs.
  apply (writes_handleSqsResponse _ T this (fun m => m ∈ msgs)).
  - intros ev. apply asked_only_same. intros w. apply calls_log_Emit.
  - intros d. apply asked_only_same. intros w. apply calls_log_Debug.
  - intros c Hc. apply asked_only_call. by destruct c.
  - intros m t Hm Haw. apply asked_only_call. by exists m, t.
  - intros s _. by apply asked_only_same.
  - intros s _. by apply asked_only_same.
  - intros _ e. by apply asked_only_same.
  - intros m b _. apply asked_only_same. intros w.
    apply calls_set_finishedProcessing.
  - intros m v _. apply asked_only_same. intros w.
    apply calls_set_message_visibilityTimeout.
  - intros r l -> Hr. subst msgs. simpl. rewrite Hr. simpl.
    by apply Forall_forall.
Qed.

(** X16: Under every schedule, a batch deletes only what has been handled.
    Whatever the interleaving of the calls under [Promise.all] and whatever
    the queue answers, every [deleteMessage] that [_handleSqsResponse]
    issues is for the consumer's queue and for the receipt handle of a
    message of the response whose handler's promise (raced against the
    deadline if one is set) is fulfilled. *)
Theorem batch_deletes_only_handled T this sched (response : option Response) w :
  let msgs := default [] (response ≫= Messages) in
  exists cs,
    calls (exec sched (_handleSqsResponse T this response) w).2
    = calls w ++ cs /\
    forall q r,
      deleteMessage q r ∈ cs ->
      exists m t,
        m ∈ msgs /\ q = queueUrl this /\ r = ReceiptHandle m /\
        awaited T this m = fulfilled t tt.
Proof.
  intros msgs.
  destruct (steps_exec (asked_only (deletes_handled T this msgs))
              (asked_only_refl _) (asked_only_trans _) sched
              (_handleSqsResponse T this response)
              (handleSqsResponse_asks T this response) w) as (cs & Hcs & Hok).
  exists cs. split; [exact Hcs|]. intros q r Hin.
  rewrite Forall_forall in Hok. exact (Hok _ Hin).
Qed.

Lemma batch_deletes_only_handled_witness :
  let batch := mkResponse (Some [Sample.first; Sample.second]) in
  let run := exec [0; 1; 0; 1; 0; 1]%nat
               (_handleSqsResponse Sample.text Sample.consumer (Some batch))
               Sample.world in
  calls run.2 = [deleteMessage "queue" "receipt-1"] /\
  awaited Sample.text Sample.consumer Sample.first = fulfilled 10 tt /\
  awaited Sample.text Sample.consumer Sample.second = rejected 20 Sample.boom /\
  exists cs,
    calls run.2 = calls Sample.world ++ cs /\
    forall q r,
      deleteMessage q r ∈ cs ->
      exists m t,
        m ∈ [Sample.first; Sample.second] /\ q = "queue" /\
        r = ReceiptHandle m /\
        awaited Sample.text Sample.consumer m = fulfilled t tt.
Proof.
  intros batch run. split; [reflexivity|]. split; [reflexivity|].
  split; [reflexivity|].
  exact (batch_deletes_only_handled Sample.text Sample.consumer
           [0; 1; 0; 1; 0; 1]%nat (Some batch) Sample.world).
Defined.

Lemma keeps_events_extendTimeout this m :
  writes (keeps events) (extendTimeout this m).
Proof.
  apply (writes_extendTimeout _ this (fun _ => True)); try done.
  intros c _ w. apply events_log_Call.
Qed.

(** The first turn of [_processMessage] emits [message_received] and
    nothing else. *)
Lemma seg_processMessage_events T this m w :
  events (seg (_processMessage T this m) w).2 = events w ++ [received m].
Proof.
  unfold _processMessage.
  rewrite seg_bind. cbn [emit modify seg].
  rewrite seg_try_catch, seg_bind.
  unfold _executeHandler, try_finally.
  rewrite seg_bind, seg_try_catch, seg_try_catch.
  rewrite seg_bind. cbn [modify seg].
  rewrite seg_bind. cbn [get_world seg].
  rewrite seg_bind. cbn [modify seg].
  rewrite seg_bind.
  set (w1 := set_message_visibilityTimeout _ _ _).
  assert (Hw1 : events w1 = events w ++ [received m]).
  { subst w1. unfold events.
    by rewrite trace_set_message_visibilityTimeout, trace_set_finishedProcessing,
      trace_log, events_of_app. }
  assert (Hext : exists w2,
    seg (if extendVisibilityTimeout this then extendTimeout this m else Ret tt) w1
    = (settled (inr tt), w2) /\ events w2 = events w1).
  { destruct (extendVisibilityTimeout this); [|by eexists].
    pose proof (seg_extendTimeout this m w1) as H.
    destruct (steps_seg (fun w w' => events w' = events w)
                (fun w => eq_refl) (fun w1 w2 w3 H1 H2 => eq_trans H2 H1)
                (extendTimeout this m) (keeps_events_extendTimeout this m) w1)
      as [Hev _].
    destruct (seg (extendTimeout this m) w1) as [t w2]. simpl in H, Hev.
    subst t. by eexists. }
  destruct Hext as (w2 & -> & Hw2). rewrite <- Hw1, <- Hw2.
  destruct (truthy_number (handleMessageTimeout this));
    match goal with |- context [await ?p] => by destruct p end.
Qed.

Lemma start_all_events T this msgs :
  forall w,
    events (start_all (map (_processMessage T this) msgs) w).2
    = events w ++ map received msgs.
Proof.
  induction msgs as [|m msgs IH]; intros w; cbn [map start_all].
  - by rewrite app_nil_r.
  - pose proof (seg_processMessage_events T this m w) as Hm.
    destruct (seg (_processMessage T this m) w) as [t w1]. cbn [snd] in Hm.
    specialize (IH w1).
    destruct (start_all (map (_processMessage T this) msgs) w1) as [ts w2].
    cbn [snd] in *. by rewrite IH, Hm, <- app_assoc.
Qed.

(** X17: The messages of a batch are dispatched together.  Under every
    schedule, [_handleSqsResponse] emits [message_received] for every
    message of the response, in the order of the response, before it emits
    anything else: every call of [_processMessage] has been started before
    the outcome of any is reported. *)
Theorem batch_dispatched_together T this sched (response : option Response) w :
  let msgs := default [] (response ≫= Messages) in
  exists rest,
    events (exec sched (_handleSqsResponse T this response) w).2
    = events w ++ map received msgs ++ rest /\
    Forall (fun ev => ev_name ev <> "message_received") rest.
Proof.
  intros msgs. subst msgs.
  destruct response as [r|]; cbn [mbind option_bind default].
  2: { rewrite exec_handleSqsResponse_none. exists []. cbn [snd map].
       autorewrite with state. by rewrite !app_nil_r. }
  destruct (hasMessages r) eqn:Hr.
  2: { rewrite exec_handleSqsResponse_empty by done.
       exists [mkEvent "empty" None None]. cbn [snd].
       autorewrite with state. unfold hasMessages in Hr.
       destruct (Messages r) as [[|m l]|]; simpl in *; try done.
       all: split; [done|]; by repeat constructor. }
  destruct (hasMessages_Some r Hr) as [msgs Hmsgs]. rewrite Hmsgs.
  cbn [default].
  rewrite (exec_handleSqsResponse_batch T this sched r msgs) by done.
  cbv zeta. set (w0 := log _ (log _ w)).
  pose proof (start_all_events T this msgs w0) as Hev1.
  destruct (start_all_ok True T this msgs (or_introl I) w0)
    as (evs1 & _ & _ & _ & Hok).
  destruct (start_all (map (_processMessage T this) msgs) w0) as [pool w1].
  cbn [fst snd] in *.
  destruct (join_safe True msgs sched pool w1 evs1 Hok)
    as (evs2 & Hev2 & Hcl2 & Hres).
  assert (Hnot : Forall (fun ev => ev_name ev <> "message_received") evs2).
  { eapply Forall_impl; [exact Hcl2|]. intros ev (m & _ & Hc).
    eapply closes_name; [exact Hc|apply not_closing_received]. }
  assert (Hw0 : events w0 = events w) by (subst w0; by autorewrite with state).
  destruct (join sched pool w1) as [[[]|e|] w2]; cbn [fst snd] in *.
  - exists (evs2 ++ [mkEvent "response_processed" None None]).
    cbn [snd]. autorewrite with state. rewrite Hev2, Hev1, Hw0, <- !app_assoc.
    split; [done|]. apply Forall_app. split; [done|by repeat constructor].
  - done.
  - exists evs2. rewrite Hev2, Hev1, Hw0, <- !app_assoc. by split.
Qed.

(** ** Extension of the visibility timeout, further *)

Lemma fields_schedule m s w : fields m (schedule s w) = fields m w.
Proof. reflexivity. Qed.

Lemma fields_set_agenda m l w : fields m (set_agenda l w) = fields m w.
Proof. reflexivity. Qed.

Lemma extension_task_refl m : extension_task m (task_extendTimeout m) = true.
Proof. simpl. apply Nat.eqb_refl. Qed.

Lemma extension_task_then m :
  extension_task m (task_extendTimeout_then m) = true.
Proof. simpl. apply Nat.eqb_refl. Qed.

(** One round of extension and its callback, on a queue that grants. *)
Lemma extension_cycle_grants T this sched m others s w :
  grants_visibility this ->
  finishedProcessing (fields m w) <> Some true ->
  next_is (extension_task m) s others w ->
  task_of s = task_extendTimeout m ->
  let v' := option_map (fun v => v * 2) (visibilityTimeout (fields m w)) in
  let w' := extension_cycle T this sched m w in
  fields m w' = mkProcessing (finishedProcessing (fields m w)) v' /\
  next_is (extension_task m)
    (timer (task_extendTimeout m) (option_map (fun v => v * 450) v'))
    others w' /\
  calls w' =
    calls w ++
    [changeMessageVisibility (queueUrl this) (ReceiptHandle m) v'] /\
  events w' = events w /\
  unhandled w' = unhandled w.
Proof.
  intros Hgrant Hfin Hnext Hs v' w'. subst w'. unfold extension_cycle.
  pose proof Hnext as [Ha Hothers].
  rewrite (run_next_last _ _ _ _ others s w Hnext)
    by (rewrite Hs; apply extension_task_refl).
  rewrite Hs. cbn [body].
  rewrite exec_extendTimeout_round by (by rewrite fields_set_agenda).
  unfold extension_round. rewrite fields_set_agenda. fold v'.
  destruct (Hgrant (calls (set_agenda others w)) (queueUrl this)
              (ReceiptHandle m) v') as [t ->].
  set (w1 := schedule _ _).
  assert (Hn1 : next_is (extension_task m)
                  (on_fulfilled (task_extendTimeout_then m) t) others w1).
  { split; [done|exact Hothers]. }
  rewrite (run_next_last _ _ _ _ others _ w1 Hn1)
    by apply extension_task_then.
  cbn [task_of body]. rewrite exec_extendTimeout_then.
  assert (Hf1 : fields m (set_agenda others w1)
                = mkProcessing (finishedProcessing (fields m w)) v').
  { subst w1.
    by rewrite fields_set_agenda, fields_schedule, fields_log,
      fields_set_message_visibilityTimeout, fields_set_agenda. }
  rewrite Hf1. cbn [visibilityTimeout].
  split; [by rewrite fields_schedule, fields_log|].
  split; [by split|].
  subst w1. autorewrite with state.
  rewrite calls_set_message_visibilityTimeout. autorewrite with state.
  split; [done|]. split; [|done].
  unfold events. rewrite trace_set_message_visibilityTimeout. done.
Qed.



Lemma processMessage_failure_finished T this m sched w t e :
  awaited T this m = rejected t e ->
  finishedProcessing (fields m (exec sched (_processMessage T this m) w).2)
  = Some true.
Proof.
  intros Haw. rewrite exec_processMessage. fold (attempt T this m).
  rewrite exec_attempt, Haw. cbn [snd].
  by rewrite fields_recovered, fields_set_finishedProcessing.
Qed.

(** X19: A handler that fails with an error object, or is timed out, ends
    the extension of its message.  When the promise awaited for the handler
    is rejected with an error object (the handler's own, or the
    [TimeoutError] of the deadline), [_processMessage] leaves the message
    finished; whatever extension work is still pending for it then asks the
    queue nothing and emits nothing: the callback of the last request only
    sets its timer, and the round the timer starts does nothing and sets no
    further one. *)
Theorem failure_stops_extension T this m sched w t e :
  awaited T this m = rejected t e ->
  let run := exec sched (_processMessage T this m) w in
  finishedProcessing (fields m run.2) = Some true /\
  forall sched' i s,
    agenda run.2 !! i = Some s ->
    let w' := turn T this sched' i run.2 in
    (task_of s = task_extendTimeout_then m ->
     calls w' = calls run.2 /\ events w' = events run.2 /\
     fields m w' = fields m run.2 /\
     agenda w' =
       delete i (agenda run.2) ++
       [timer (task_extendTimeout m)
          (option_map (fun v => v * 450)
             (visibilityTimeout (fields m run.2)))]) /\
    (task_of s = task_extendTimeout m ->
     w' = set_agenda (delete i (agenda run.2)) run.2).
Proof.
  intros Haw run.
  assert (Hfin : finishedProcessing (fields m run.2) = Some true)
    by by apply (processMessage_failure_finished T this m sched w t e).
  split; [exact Hfin|].
  intros sched' i s Hi w'. subst w'. unfold turn. rewrite Hi. split; intros ->.
  - cbn [body]. rewrite exec_extendTimeout_then.
    by autorewrite with state.
  - cbn [body]. by rewrite exec_extendTimeout_finished.
Qed.

Lemma failure_stops_extension_witness :
  let run :=
    exec [] (_processMessage Sample.text Scenario.failing Sample.second)
         Sample.world in
  let w1 := turn Sample.text Scenario.failing [] 0 run.2 in
  let w2 := turn Sample.text Scenario.failing [] 0 w1 in
  finishedProcessing (fields Sample.second run.2) = Some true /\
  agenda run.2 = [on_fulfilled (task_extendTimeout_then Sample.second) 5] /\
  agenda w1 = [timer (task_extendTimeout Sample.second) (Some 27000)] /\
  calls w2 = calls run.2 /\
  agenda w2 = [].
Proof.
  destruct (failure_stops_extension Sample.text Scenario.failing Sample.second
              [] Sample.world 20 Sample.boom eq_refl) as [H1 H2].
  split; [exact H1|]. split; [reflexivity|].
  destruct (H2 [] 0%nat _ eq_refl) as [Hthen _].
  destruct (Hthen eq_refl) as (_ & _ & _ & Ha).
  split; [exact Ha|]. split; reflexivity.
Defined.

(** ** Stopping and the work in flight *)

Lemma blind_All {A : Type} children (k : option JsError -> Async A) :
  blind_to_stopped (All children k) <->
  Forall blind_to_stopped children /\ forall r, blind_to_stopped (k r).
Proof.
  cbn [blind_to_stopped]. split; intros [H1 H2]; (split; [|exact H2]).
  - induction children as [|c l IH]; constructor; [apply H1|apply IH, H1].
  - induction H1 as [|c l Hc Hl IH]; [exact I|split; [exact Hc|exact IH]].
Qed.

Lemma blind_bind {A B : Type} (p : Async A) (f : A -> Async B) :
  blind_to_stopped p -> (forall a, blind_to_stopped (f a)) ->
  blind_to_stopped (bind p f).
Proof.
  revert f. induction p as [A a|A e|A k IH|A g k IH|A k IH|A|A children k IH];
    intros f Hp Hf; cbn [bind].
  - apply Hf.
  - done.
  - intros w. destruct (Hp w) as [Hk Hb]. split; [|by apply IH].
    intros b. by rewrite Hk.
  - destruct Hp as [Hg Hk]. split; [done|]. by apply IH.
  - by apply IH.
  - done.
  - apply blind_All in Hp as [Hc Hk]. apply blind_All. split; [done|].
    intros r. by apply IH.
Qed.

Lemma blind_try_catch {A : Type} (p : Async A) (h : JsError -> Async A) :
  blind_to_stopped p -> (forall e, blind_to_stopped (h e)) ->
  blind_to_stopped (try_catch p h).
Proof.
  revert h. induction p as [A a|A e|A k IH|A g k IH|A k IH|A|A children k IH];
    intros h Hp Hh; cbn [try_catch].
  - done.
  - apply Hh.
  - intros w. destruct (Hp w) as [Hk Hb]. split; [|by apply IH].
    intros b. by rewrite Hk.
  - destruct Hp as [Hg Hk]. split; [done|]. by apply IH.
  - by apply IH.
  - done.
  - apply blind_All in Hp as [Hc Hk]. apply blind_All. split; [done|].
    intros r. by apply IH.
Qed.

Lemma blind_await {X : Type} (p : Promise X) : blind_to_stopped (await p).
Proof. by destruct p. Qed.

Lemma blind_modify f :
  (forall w b, f (set_stopped b w) = set_stopped b (f w)) ->
  blind_to_stopped (modify f).
Proof. by split. Qed.

Lemma blind_get_world {B : Type} (g : World -> Async B) :
  (forall w b, g (set_stopped b w) = g w) ->
  (forall w, blind_to_stopped (g w)) ->
  blind_to_stopped (bind get_world g).
Proof. intros Hg Hb w. split; [intros b; apply Hg|apply Hb]. Qed.

Lemma blind_emit name err msg : blind_to_stopped (emit name err msg).
Proof. by split. Qed.

Lemma blind_debug d : blind_to_stopped (debug d).
Proof. by split. Qed.

Lemma blind_request_await {X : Type} c (answer : list SqsCall -> Promise X) :
  blind_to_stopped (let* p := request c answer in await p).
Proof.
  intros w. split; [done|]. split; [done|]. apply blind_await.
Qed.

Lemma blind_then {X : Type} (p : Promise X) cb : blind_to_stopped (then_ p cb).
Proof. by destruct p. Qed.

Lemma blind_extendTimeout this m : blind_to_stopped (extendTimeout this m).
Proof.
  unfold extendTimeout. apply blind_get_world; [done|]. intros w.
  destruct (finishedProcessing (fields m w)) as [[]|]; [done| |];
    (apply blind_bind; [by apply blind_modify|]; intros _;
     apply blind_get_world; [done|]; intros w1;
     intros w2; (split; [done|]); (split; [done|]); apply blind_then).
Qed.

Lemma blind_extendTimeout_then m : blind_to_stopped (extendTimeout_then m).
Proof.
  unfold extendTimeout_then. apply blind_bind; [apply blind_debug|]. intros _.
  apply blind_get_world; [done|]. intros w. by apply blind_modify.
Qed.

Lemma blind_executeHandler T this m :
  blind_to_stopped (_executeHandler T this m).
Proof.
  unfold _executeHandler, try_finally, clearTimeout.
  apply blind_bind; [|done].
  apply blind_try_catch; [|done].
  apply blind_try_catch.
  - apply blind_bind; [by apply blind_modify|]. intros _.
    apply blind_get_world; [done|]. intros w.
    apply blind_bind; [by apply blind_modify|]. intros _.
    apply blind_bind.
    + destruct (extendVisibilityTimeout this); [|done].
      apply blind_extendTimeout.
    + intros _. destruct (truthy_number _); apply blind_await.
  - intros e. by destruct (instanceof_TimeoutError e).
Qed.

Lemma blind_processMessage T this m :
  blind_to_stopped (_processMessage T this m).
Proof.
  unfold _processMessage.
  apply blind_bind; [apply blind_emit|]. intros _.
  apply blind_try_catch.
  - apply blind_bind; [apply blind_executeHandler|]. intros _.
    apply blind_bind; [|intros _; apply blind_emit].
    unfold _deleteMessage. apply blind_bind; [apply blind_debug|]. intros _.
    apply blind_try_catch; [apply blind_request_await|done].
  - intros e. apply blind_bind.
    + destruct (String.eqb _ _); [apply blind_emit|].
      destruct (instanceof_TimeoutError e); apply blind_emit.
    + intros _. destruct (terminateVisibilityTimeout this); [|done].
      apply blind_try_catch; [apply blind_request_await|].
      intros e'. apply blind_emit.
Qed.

Lemma blind_handleSqsResponse T this response :
  blind_to_stopped (_handleSqsResponse T this response).
Proof.
  unfold _handleSqsResponse.
  apply blind_bind; [apply blind_debug|]. intros _.
  apply blind_bind; [apply blind_debug|]. intros _.
  apply blind_bind; [|intros _; by split].
  destruct response as [r|]; [|done].
  destruct (hasMessages r); [|apply blind_emit].
  apply blind_bind; [|intros _; apply blind_emit].
  unfold await_all. apply blind_All. split.
  - apply Forall_map, Forall_true. intros m. apply blind_processMessage.
  - by intros [e|].
Qed.

Lemma seg_blind {A : Type} (p : Async A) :
  blind_to_stopped p ->
  forall w b,
    seg p (set_stopped b w) = ((seg p w).1, set_stopped b (seg p w).2) /\
    forall k, (seg p w).1 = waiting k -> blind_to_stopped k.
Proof.
  induction p as [A a|A e|A k IH|A g k IH|A k IH|A|A children k IH];
    intros Hp w b; cbn [seg]; try (split; [done|by intros ?]).
  - destruct (Hp w) as [Hk Hb]. rewrite Hk. by apply IH.
  - destruct Hp as [Hg Hk]. rewrite Hg. by apply IH.
  - split; [done|]. intros k' [= <-]. exact Hp.
Qed.

Lemma start_all_blind children :
  Forall blind_to_stopped children ->
  forall w b,
    start_all children (set_stopped b w) =
      ((start_all children w).1, set_stopped b (start_all children w).2) /\
    Forall thread_blind (start_all children w).1.
Proof.
  induction 1 as [|c l Hc Hl IH]; intros w b; cbn [start_all]; [done|].
  destruct (seg_blind c Hc w b) as [-> H2].
  destruct (seg c w) as [t w1] eqn:Hseg. cbn [fst snd] in *.
  destruct (IH w1 b) as [-> H4].
  destruct (start_all l w1) as [ts w2]. cbn [fst snd] in *.
  split; [done|]. constructor; [|done].
  destruct t; try done. by apply H2.
Qed.

Lemma join_blind sched :
  forall pool w b,
    Forall thread_blind pool ->
    join sched pool (set_stopped b w) =
    ((join sched pool w).1, set_stopped b (join sched pool w).2).
Proof.
  induction sched as [|i sched IH]; intros pool w b Hpool; cbn [join].
  - destruct (first_rejection pool); [done|].
    by destruct (forallb is_settled pool).
  - destruct (first_rejection pool); [done|].
    destruct (forallb is_settled pool); [done|].
    destruct (pool !! i) as [[r|k|]|] eqn:Hi; try by apply IH.
    assert (Hk : blind_to_stopped k).
    { eapply (Forall_lookup_1 _ _ _ _ Hpool Hi). }
    destruct (seg_blind k Hk w b) as [-> H2].
    destruct (seg k w) as [t w'] eqn:Hseg. cbn [fst snd] in *.
    apply IH. apply Forall_insert; [done|]. destruct t; try done. by apply H2.
Qed.

Lemma exec_blind {A : Type} sched (p : Async A) :
  blind_to_stopped p ->
  forall w b,
    exec sched p (set_stopped b w) =
    ((exec sched p w).1, set_stopped b (exec sched p w).2).
Proof.
  induction p as [A a|A e|A k IH|A g k IH|A k IH|A|A children k IH];
    intros Hp w b; cbn [exec]; try done.
  - destruct (Hp w) as [Hk Hb]. rewrite Hk. by apply IH.
  - destruct Hp as [Hg Hk]. rewrite Hg. by apply IH.
  - by apply IH.
  - apply blind_All in Hp as [Hc Hk].
    destruct (start_all_blind children Hc w b) as [-> H2].
    destruct (start_all children w) as [pool w1]. cbn [fst snd] in *.
    rewrite (join_blind sched pool w1 b H2).
    destruct (join sched pool w1) as [[[]|e|] w2]; cbn [fst snd] in *.
    + by apply IH.
    + by apply IH.
    + done.
Qed.

(** X20: [stop] does not interrupt the work in flight.  The handling of a
    response neither reads nor writes [this.stopped]: in a stopped consumer
    it does, turn for turn under the same schedule, what it does in a
    running one, with the same outcome, events, requests and scheduled work,
    the call of the next poll included; so do a round of extension and its
    callback. *)
Theorem stop_does_not_interrupt T this sched t w b :
  t <> task_poll ->
  exec sched (body T this t) (set_stopped b w) =
  ((exec sched (body T this t) w).1,
   set_stopped b (exec sched (body T this t) w).2).
Proof.
  intros Ht. apply exec_blind. destruct t as [|response|m|m]; cbn [body].
  - done.
  - apply blind_handleSqsResponse.
  - apply blind_extendTimeout.
  - apply blind_extendTimeout_then.
Qed.

Lemma stop_does_not_interrupt_witness :
  let batch := mkResponse (Some [Sample.first; Sample.second]) in
  let work := _handleSqsResponse Sample.text Sample.consumer (Some batch) in
  let run := exec [0; 1; 0; 1; 0; 1]%nat work (set_stopped true Sample.world) in
  run = ((exec [0; 1; 0; 1; 0; 1]%nat work Sample.world).1,
         set_stopped true (exec [0; 1; 0; 1; 0; 1]%nat work Sample.world).2) /\
  this_stopped run.2 = true /\
  map ev_name (events run.2) =
    ["message_received"; "message_received"; "processing_error";
     "message_processed"; "response_processed"] /\
  agenda run.2 = [called task_poll].
Proof.
  intros batch work run.
  assert (Ht : task_handleSqsResponse (Some batch) <> task_poll) by discriminate.
  split; [|split; [reflexivity|split; reflexivity]].
  exact (stop_does_not_interrupt Sample.text Sample.consumer
           [0; 1; 0; 1; 0; 1]%nat (task_handleSqsResponse (Some batch))
           Sample.world true Ht).
Defined.

(** ** Rejections *)

Lemma poll_never_rejected this sched w e :
  (exec sched (_poll this) w).1 <> Rejected e.
Proof.
  destruct (this_stopped w) eqn:Hs.
  - by rewrite poll_stopped.
  - rewrite exec_poll_running by done.
    destruct (sqs_receiveMessage _ _ _) as [|t response|t e']; try done.
    by destruct (sqs_getQueueAttributes _ _ _ _).
Qed.

Lemma handleSqsResponse_never_rejected T this sched response w e :
  (exec sched (_handleSqsResponse T this response) w).1 <> Rejected e.
Proof.
  destruct response as [r|]; [|by rewrite exec_handleSqsResponse_none].
  destruct (hasMessages r) eqn:Hr; [|by rewrite exec_handleSqsResponse_empty].
  destruct (hasMessages_Some r Hr) as [msgs Hmsgs].
  rewrite (exec_handleSqsResponse_batch T this sched r msgs) by done.
  cbv zeta. set (w0 := log _ (log _ w)).
  destruct (start_all_ok True T this msgs (or_introl I) w0)
    as (evs1 & _ & _ & _ & Hok).
  destruct (start_all (map (_processMessage T this) msgs) w0) as [pool w1].
  cbn [fst snd] in *.
  destruct (join_safe True msgs sched pool w1 evs1 Hok) as (evs2 & _ & _ & Hres).
  by destruct (join sched pool w1) as [[[]|e'|] w2].
Qed.

Lemma keeps_unhandled_loop T this t :
  loop_task t = true ->
  extendVisibilityTimeout this = false ->
  writes (keeps unhandled) (body T this t).
Proof.
  intros Ht Hext. destruct t as [|response|m|m]; cbn [body]; try done.
  - apply (writes_poll _ this); try done.
  - apply (writes_handleSqsResponse _ T this (fun _ => True)); try done.
    + intros He. by rewrite Hext in He.
    + intros. by apply Forall_true.
Qed.

(** X21: The polling loop throws nothing.  Whatever the queue and the
    handlers answer and however the calls of a batch interleave, a poll and
    the handling of a response are never rejected; and with
    [extendVisibilityTimeout] off they leave no rejected promise without
    handler: no failure escapes the loop. *)
Theorem loop_never_rejects T this sched t :
  loop_task t = true ->
  (forall w e, (exec sched (body T this t) w).1 <> Rejected e) /\
  (extendVisibilityTimeout this = false ->
   forall i s w,
     agenda w !! i = Some s -> task_of s = t ->
     unhandled (turn T this sched i w) = unhandled w).
Proof.
  intros Ht.
  assert (Hrej : forall w e, (exec sched (body T this t) w).1 <> Rejected e).
  { intros w e. destruct t as [|response|m|m]; cbn [body]; try done.
    - apply poll_never_rejected.
    - apply handleSqsResponse_never_rejected. }
  split; [exact Hrej|].
  intros Hext i s w Hi Hs. unfold turn. rewrite Hi, Hs.
  pose proof (keeps_exec unhandled sched (body T this t)
                (keeps_unhandled_loop T this t Ht Hext)
                (set_agenda (delete i (agenda w)) w)) as Hk.
  pose proof (Hrej (set_agenda (delete i (agenda w)) w)) as Hr.
  destruct (exec sched _ _) as [[[]|e|] w']; cbn [fst snd] in *; try done.
  by destruct (Hr e).
Qed.

Lemma loop_never_rejects_witness :
  let batch := mkResponse (Some [Sample.first; Sample.second]) in
  let this :=
    Sample.consumer_with None true false Sample.client_visibility_fails in
  let w := mkWorld [] ∅ false (Some 30)
             [called (task_handleSqsResponse (Some batch))] [] in
  let w' := turn Sample.text this [0; 1; 0; 1; 0; 1]%nat 0 w in
  map ev_name (events w') =
    ["message_received"; "message_received"; "processing_error";
     "message_processed"; "error"; "response_processed"] /\
  unhandled w' = [].
Proof.
  intros batch this w w'.
  destruct (loop_never_rejects Sample.text this [0; 1; 0; 1; 0; 1]%nat
              (task_handleSqsResponse (Some batch)) eq_refl) as [_ H].
  split; [reflexivity|].
  exact (H eq_refl 0%nat _ w eq_refl eq_refl).
Defined.
